(** * Restaurant-review scoring pipeline: a shallow embedding of [main.py]

    The development follows the Python source function by function:
    - [calculate_overall_score], the numeric kernel, over IEEE-754 binary64
      numbers (Rocq's primitive floats) with Python's exceptions made
      explicit in a small error monad;
    - [fetch_restaurant_data], the corpus reader, over a file that may be
      missing, unreadable or present;
    - [chat_sequence] and the tail of [main] that extracts and prints the
      final answer, with Python's [re.search] modelled by a backtracking
      matcher over the two patterns the source uses;
    - the coordinator that runs the stages: it belongs to the conversation
      library, not to the source, and is modelled from the specification.

    Python [str] values are modelled as [string]; every character is read as
    one code point below 256 (Latin-1), which covers the text the source
    itself contains. Python [int] is [Z], [float] is [float]. *)

From Stdlib Require Import ZArith List String Ascii Floats Lia Bool Reals Lra Psatz.
From stdpp Require Import gmap strings.
Import ListNotations.

Set Warnings "-inexact-float".
Open Scope Z_scope.

(** ** Exceptions and the error monad *)

Inductive exception :=
  | ValueError
  | OverflowError
  | ZeroDivisionError
  | IndexError
  | FileNotFoundError
  | PermissionError
  | UnicodeDecodeError
  | TypeError.

Inductive outcome (A : Type) :=
  | Ok (a : A)
  | Raise (e : exception).
Arguments Ok {A} a.
Arguments Raise {A} e.

#[global] Instance outcome_ret : MRet outcome := fun A a => Ok a.
#[global] Instance outcome_bind : MBind outcome := fun A B k r =>
  match r with Ok a => k a | Raise e => Raise e end.
#[global] Instance outcome_fmap : FMap outcome := fun A B f r =>
  match r with Ok a => Ok (f a) | Raise e => Raise e end.

Definition returns {A} (r : outcome A) : Prop := exists a, r = Ok a.

(** ** Python sequences *)

Definition len {A} (l : list A) : Z := Z.of_nat (length l).

(** [l[i]], with Python's negative indices and [IndexError]. *)
Definition py_getitem {A} (l : list A) (i : Z) : outcome A :=
  let j := if i <? 0 then i + len l else i in
  if (j <? 0) || (len l <=? j) then Raise IndexError
  else match l !! Z.to_nat j with
       | Some x => Ok x
       | None => Raise IndexError
       end.

(** [range(n)] *)
Definition py_range (n : Z) : list Z := seqZ 0 n.

(** ** Python floats *)

(** Conversion of an [int] to a [float]: correctly rounded (ties to even),
    [OverflowError] when the rounded value is not finite. *)
Definition float_of_int (z : Z) : outcome float :=
  match binary_normalize prec emax z 0 false with
  | S754_infinity _ => Raise OverflowError
  | sf => Ok (SF2Prim sf)
  end.

(** [math.sqrt] applied to an [int]: the argument is converted first; a NaN
    result from a non-NaN argument is a "math domain error". *)
Definition math_sqrt (z : Z) : outcome float :=
  x ← float_of_int z;
  let r := PrimFloat.sqrt x in
  if is_nan r && negb (is_nan x) then Raise ValueError else Ok r.

(** [a / x] with an [int] numerator and a [float] denominator. *)
Definition py_truediv (a : Z) (x : float) : outcome float :=
  fa ← float_of_int a;
  if is_zero x then Raise ZeroDivisionError else Ok (fa / x)%float.

(** [x * a] with a [float] and an [int]. *)
Definition py_mul_int (x : float) (a : Z) : outcome float :=
  fa ← float_of_int a;
  Ok (x * fa)%float.

(** Nearest integer to [a / b] for [b > 0], ties to the even one. *)
Definition round_half_even_div (a b : Z) : Z :=
  let q := a / b in
  let r := a mod b in
  match 2 * r ?= b with
  | Lt => q
  | Gt => q + 1
  | Eq => if Z.even q then q else q + 1
  end.

(** The float nearest to the decimal [q / 10^ndigits], with sign [s]. *)
Definition decimal_to_float (s : bool) (q : positive) (ndigits : Z) : float :=
  SF2Prim (SFdiv prec emax (S754_finite s q 0)
                           (S754_finite false (Z.to_pos (10 ^ ndigits)) 0)).

(** [round(x, ndigits)] for a float and [0 <= ndigits]: the exact binary
    value is rounded to [ndigits] decimals (ties to even), and the decimal
    obtained is converted back to the nearest float. NaN and the infinities
    round to themselves. *)
Definition py_round (x : float) (ndigits : Z) : float :=
  match Prim2SF x with
  | S754_finite s m e =>
      let num := Z.pos m * 10 ^ ndigits * 2 ^ Z.max e 0 in
      let den := 2 ^ Z.max (- e) 0 in
      match round_half_even_div num den with
      | Z.pos q => decimal_to_float s q ndigits
      | _ => SF2Prim (S754_zero s)
      end
  | _ => x
  end.

(** ** [calculate_overall_score] *)

(** The body of [for i in range(n)], with [total_score] as accumulator. *)
Fixpoint score_loop (food_scores customer_service_scores : list Z)
    (indices : list Z) (total_score : float) : outcome float :=
  match indices with
  | [] => Ok total_score
  | i :: rest =>
      f ← py_getitem food_scores i;
      s ← py_getitem customer_service_scores i;
      score_component ← math_sqrt (f ^ 2 * s);
      score_loop food_scores customer_service_scores rest
        (total_score + score_component)%float
  end.

(** The value stored under the restaurant's name once the guard is passed. *)
Definition final_score (food_scores customer_service_scores : list Z)
    : outcome float :=
  let n := len food_scores in
  total_score ← score_loop food_scores customer_service_scores (py_range n) 0%float;
  root ← math_sqrt 125;
  fn ← float_of_int n;
  inverse ← py_truediv 1 (fn * root)%float;
  scaled ← py_mul_int (total_score * inverse)%float 10;
  Ok (py_round scaled 3).

Definition calculate_overall_score (restaurant_name : string)
    (food_scores customer_service_scores : list Z)
    : outcome (gmap string float) :=
  if bool_decide (food_scores = [])
     || bool_decide (customer_service_scores = [])
     || negb (len food_scores =? len customer_service_scores)
  then Ok {[ restaurant_name := 0%float ]}
  else
    score ← final_score food_scores customer_service_scores;
    Ok {[ restaurant_name := score ]}.

(** The formula as the specification words it: one component per index,
    the components summed in index order, the sum scaled by
    [1 / (N * sqrt 125)] and by 10, the product rounded to 3 decimals. *)
Definition spec_component (pair : Z * Z) : outcome float :=
  math_sqrt (pair.1 ^ 2 * pair.2).

Definition spec_sum (components : list float) : float :=
  foldl PrimFloat.add 0%float components.

Definition spec_score (food_scores service_scores : list Z) : outcome float :=
  components ← mapM spec_component (zip food_scores service_scores);
  root ← math_sqrt 125;
  fn ← float_of_int (len food_scores);
  inverse ← py_truediv 1 (fn * root)%float;
  scaled ← py_mul_int (spec_sum components * inverse)%float 10;
  Ok (py_round scaled 3).

(** ** Python strings *)

Definition LF : ascii := "010"%char.
Definition CR : ascii := "013"%char.

(** [str.isspace] on one character: the Unicode whitespace below 256. *)
Definition isspace (c : ascii) : bool :=
  let n := N_of_ascii c in
  ((9 <=? n) && (n <=? 13) || (28 <=? n) && (n <=? 32)
   || (n =? 133) || (n =? 160))%N.

Fixpoint lstrip (s : string) : string :=
  match s with
  | String c s' => if isspace c then lstrip s' else s
  | EmptyString => EmptyString
  end.

Definition rstrip (s : string) : string := String.rev (lstrip (String.rev s)).

(** [s.strip()] *)
Definition strip (s : string) : string := rstrip (lstrip s).

(** [s.startswith(prefix)] *)
Fixpoint startswith (s prefix : string) {struct prefix} : bool :=
  match prefix, s with
  | EmptyString, _ => true
  | String p prefix', String c s' => bool_decide (c = p) && startswith s' prefix'
  | String _ _, EmptyString => false
  end.

(** The text before and after the first occurrence of [sep], if any. *)
Fixpoint str_partition (sep : ascii) (s : string) : option (string * string) :=
  match s with
  | EmptyString => None
  | String c s' =>
      if bool_decide (c = sep) then Some (EmptyString, s')
      else '(before, after) ← str_partition sep s'; Some (String c before, after)
  end.

(** [s.split(sep, 1)] for a one-character separator. *)
Definition py_split1 (sep : ascii) (s : string) : list string :=
  match str_partition sep s with
  | Some (before, after) => [before; after]
  | None => [s]
  end.

(** Source literals hold accented letters; [latin1] turns the two-byte UTF-8
    sequences of a literal into the code points they stand for. *)
Fixpoint latin1 (s : string) : string :=
  match s with
  | EmptyString => EmptyString
  | String c s' =>
      match s' with
      | String d s'' =>
          if bool_decide (c = "194"%char) then String d (latin1 s'')
          else if bool_decide (c = "195"%char)
               then String (ascii_of_N (N_of_ascii d + 64)) (latin1 s'')
               else String c (latin1 s')
      | EmptyString => String c EmptyString
      end
  end.

(** ** The corpus file and [fetch_restaurant_data] *)

(** What [open("restaurantes.txt", "r", encoding="utf-8")] followed by
    [readlines()] meets: no file, a file that cannot be opened or decoded,
    or a file with some decoded text. *)
Inductive corpus :=
  | Missing
  | Unreadable (e : exception)
  | Text (contents : string).

(** The file is absent or can be read: opening it raises nothing but
    [FileNotFoundError]. *)
Definition openable (file : corpus) : Prop :=
  match file with
  | Unreadable e => e = FileNotFoundError
  | Missing | Text _ => True
  end.

(** Text mode with universal newlines: CR LF and a lone CR read as LF. *)
Fixpoint universal_newlines (s : string) : string :=
  match s with
  | EmptyString => EmptyString
  | String c s' =>
      if bool_decide (c = CR) then
        match s' with
        | String d s'' =>
            if bool_decide (d = LF) then String LF (universal_newlines s'')
            else String LF (universal_newlines s')
        | EmptyString => String LF EmptyString
        end
      else String c (universal_newlines s')
  end.

(** Lines of a text, each with its terminating LF when it has one. *)
Fixpoint split_keepends (s : string) : list string :=
  match s with
  | EmptyString => []
  | String c s' =>
      if bool_decide (c = LF) then String c EmptyString :: split_keepends s'
      else match split_keepends s' with
           | [] => [String c EmptyString]
           | line :: lines => String c line :: lines
           end
  end.

Definition text_lines (contents : string) : list string :=
  split_keepends (universal_newlines contents).

Definition readlines (c : corpus) : outcome (list string) :=
  match c with
  | Missing => Raise FileNotFoundError
  | Unreadable e => Raise e
  | Text contents => Ok (text_lines contents)
  end.

(** The body of [for line in lines], with [reviews] as accumulator. *)
Fixpoint fetch_loop (restaurant_name : string) (lines : list string)
    (reviews : list string) : outcome (list string) :=
  match lines with
  | [] => Ok reviews
  | line :: rest =>
      let line := strip line in
      if startswith line (restaurant_name +:+ ".") then
        review ← strip <$> py_getitem (py_split1 "." line) 1;
        fetch_loop restaurant_name rest (reviews ++ [review])
      else fetch_loop restaurant_name rest reviews
  end.

Definition fetch_restaurant_data (file : corpus) (restaurant_name : string)
    : outcome (gmap string (list string)) :=
  match readlines file with
  | Raise FileNotFoundError => Ok {[ restaurant_name := [] ]}
  | Raise e => Raise e
  | Ok lines =>
      reviews ← fetch_loop restaurant_name lines [];
      Ok {[ restaurant_name := reviews ]}
  end.

(** The attribution rule as the specification words it. *)
Definition attributed (entity_name line : string) : Prop :=
  exists rest, line = entity_name +:+ "." +:+ rest.

(** [text] is everything after the first period of [line]. *)
Definition after_first_period (line text : string) : Prop :=
  exists before, line = before +:+ "." +:+ text
                 /\ str_partition "." before = None.

(** The reviews of an entity among the lines of a corpus, as the
    specification words them: a line whose trimmed text is attributed to the
    entity gives the trimmed text after its first period, any other line
    gives nothing, and file order is kept. *)
Inductive attribution (entity_name : string)
    : list string -> list string -> Prop :=
  | attribution_done :
      attribution entity_name [] []
  | attribution_take line lines text reviews :
      attributed entity_name (strip line) ->
      after_first_period (strip line) text ->
      attribution entity_name lines reviews ->
      attribution entity_name (line :: lines) (strip text :: reviews)
  | attribution_skip line lines reviews :
      ~ attributed entity_name (strip line) ->
      attribution entity_name lines reviews ->
      attribution entity_name (line :: lines) reviews.

(** The two-line corpus of the specification's example. *)
Definition example_corpus : string :=
  "Bob's. Great fries." +:+ String LF ("Bobby's. Bad service." +:+ String LF "").

(** ** Regular expressions: [re.search] for the patterns of [main] *)

(** One-character items: a literal, [\d], and [[^c]]. *)
Inductive atom :=
  | Char (c : ascii)
  | Digit
  | NotChar (c : ascii).

Inductive regex :=
  | Atom (a : atom)
  | Seq (r1 r2 : regex)
  | Alt (r1 r2 : regex)
  | Plus (a : atom)             (* a+, greedy *)
  | Times (n : nat) (a : atom)  (* a{n} *)
  | Group (r : regex).          (* ( r ), capturing *)

(** Lower-casing of a code point below 256. *)
Definition to_lower (c : ascii) : ascii :=
  let n := N_of_ascii c in
  if ((65 <=? n) && (n <=? 90)
      || (192 <=? n) && (n <=? 222) && negb (n =? 215))%N
  then ascii_of_N (n + 32) else c.

Definition isdigit (c : ascii) : bool :=
  let n := N_of_ascii c in ((48 <=? n) && (n <=? 57))%N.

Definition atom_matches (ignorecase : bool) (a : atom) (c : ascii) : bool :=
  match a with
  | Char l =>
      if ignorecase then bool_decide (to_lower c = to_lower l)
      else bool_decide (c = l)
  | Digit => isdigit c
  | NotChar l =>
      if ignorecase then negb (bool_decide (to_lower c = to_lower l))
      else negb (bool_decide (c = l))
  end.

(** Greedy repetition: the longest run first, shorter runs on failure of the
    continuation [k]. *)
Fixpoint greedy_star {R} (p : ascii -> bool) (s : string)
    (k : string -> option R) : option R :=
  match s with
  | String c s' =>
      if p c then
        match greedy_star p s' k with
        | Some r => Some r
        | None => k s
        end
      else k s
  | EmptyString => k s
  end.

Fixpoint exactly {R} (n : nat) (p : ascii -> bool) (s : string)
    (k : string -> option R) : option R :=
  match n with
  | O => k s
  | S n' =>
      match s with
      | String c s' => if p c then exactly n' p s' k else None
      | EmptyString => None
      end
  end.

(** The part of [s] consumed when [rest] is what remains of it. *)
Definition consumed (s rest : string) : string :=
  substring 0 (String.length s - String.length rest) s.

(** Backtracking matcher at the start of [s]; [groups] collects the text of
    the capturing groups in the order they close, which is Python's
    numbering for patterns with no group inside a group or an alternative,
    as those of [main]. *)
Fixpoint regex_match {R} (ignorecase : bool) (r : regex) (s : string)
    (groups : list string) (k : string -> list string -> option R)
    : option R :=
  match r with
  | Atom a =>
      match s with
      | String c s' => if atom_matches ignorecase a c then k s' groups else None
      | EmptyString => None
      end
  | Seq r1 r2 =>
      regex_match ignorecase r1 s groups
        (fun s' groups' => regex_match ignorecase r2 s' groups' k)
  | Alt r1 r2 =>
      match regex_match ignorecase r1 s groups k with
      | Some x => Some x
      | None => regex_match ignorecase r2 s groups k
      end
  | Plus a =>
      match s with
      | String c s' =>
          if atom_matches ignorecase a c
          then greedy_star (atom_matches ignorecase a) s' (fun s'' => k s'' groups)
          else None
      | EmptyString => None
      end
  | Times n a => exactly n (atom_matches ignorecase a) s (fun s' => k s' groups)
  | Group r1 =>
      regex_match ignorecase r1 s groups
        (fun s' groups' => k s' (groups' ++ [consumed s s']))
  end.

(** [re.search(r, s)]: the match at the leftmost position that has one;
    the value is the list of the groups of that match. *)
Fixpoint re_search (ignorecase : bool) (r : regex) (s : string)
    : option (list string) :=
  match regex_match ignorecase r s [] (fun _ groups => Some groups) with
  | Some groups => Some groups
  | None =>
      match s with
      | String _ s' => re_search ignorecase r s'
      | EmptyString => None
      end
  end.

(** The language of a pattern, as the usual reading of the notation:
    [matches ignorecase r s groups] says that all of [s] is matched by [r]
    with [groups] as the texts of its capturing groups. *)
Inductive matches (ignorecase : bool) : regex -> string -> list string -> Prop :=
  | matches_atom a c :
      atom_matches ignorecase a c = true ->
      matches ignorecase (Atom a) (String c EmptyString) []
  | matches_seq r1 r2 s1 s2 groups1 groups2 :
      matches ignorecase r1 s1 groups1 -> matches ignorecase r2 s2 groups2 ->
      matches ignorecase (Seq r1 r2) (s1 +:+ s2) (groups1 ++ groups2)
  | matches_alt_left r1 r2 s groups :
      matches ignorecase r1 s groups -> matches ignorecase (Alt r1 r2) s groups
  | matches_alt_right r1 r2 s groups :
      matches ignorecase r2 s groups -> matches ignorecase (Alt r1 r2) s groups
  | matches_plus_one a c :
      atom_matches ignorecase a c = true ->
      matches ignorecase (Plus a) (String c EmptyString) []
  | matches_plus_more a c s :
      atom_matches ignorecase a c = true ->
      matches ignorecase (Plus a) s [] ->
      matches ignorecase (Plus a) (String c s) []
  | matches_times_zero a :
      matches ignorecase (Times 0 a) EmptyString []
  | matches_times_succ n a c s :
      atom_matches ignorecase a c = true ->
      matches ignorecase (Times n a) s [] ->
      matches ignorecase (Times (S n) a) (String c s) []
  | matches_group r s groups :
      matches ignorecase r s groups ->
      matches ignorecase (Group r) s (groups ++ [s]).

(** Patterns without capturing groups. *)
Fixpoint groupless (r : regex) : bool :=
  match r with
  | Atom _ | Plus _ | Times _ _ => true
  | Seq r1 r2 | Alt r1 r2 => groupless r1 && groupless r2
  | Group _ => false
  end.

(** Some part of [s] is in the language of [r]. *)
Definition contains (ignorecase : bool) (r : regex) (s : string) : Prop :=
  exists before part after groups,
    s = before +:+ part +:+ after /\ matches ignorecase r part groups.

(** [m.group(i)] for [1 <= i]. *)
Definition group (m : list string) (i : Z) : outcome string :=
  if (1 <=? i) && (i <=? len m) then py_getitem m (i - 1) else Raise IndexError.

(** [(\d+\.\d{3})] *)
Definition score_pattern : regex :=
  Group (Seq (Plus Digit) (Seq (Atom (Char ".")) (Times 3 Digit))).

(** [(?:do|da) ([^?]+)\?] *)
Definition restaurant_pattern : regex :=
  Seq (Alt (Seq (Atom (Char "d")) (Atom (Char "o")))
           (Seq (Atom (Char "d")) (Atom (Char "a"))))
      (Seq (Atom (Char " "))
           (Seq (Group (Plus (NotChar "?"))) (Atom (Char "?")))).

(** ** The pipeline of [main] *)

Inductive agent :=
  | entrypoint_agent
  | data_fetch_agent
  | review_analysis_agent
  | score_agent.

Record chat := {
  sender : agent;
  recipient : agent;
  message : string;
  max_turns : Z
}.

Definition chat_sequence (user_query : string) : list chat :=
  [ {| sender := entrypoint_agent;
       recipient := data_fetch_agent;
       message := latin1 "Recupere as avaliações para: " +:+ user_query;
       max_turns := 3 |};
    {| sender := data_fetch_agent;
       recipient := review_analysis_agent;
       message := latin1 "Analise as avaliações e extraia scores de comida e atendimento usando a escala definida.";
       max_turns := 3 |};
    {| sender := review_analysis_agent;
       recipient := score_agent;
       message := latin1 "Calcule a pontuação final do restaurante usando os scores extraídos.";
       max_turns := 3 |} ].

(** One entry of a chat history: [content] is what the entry holds under
    ['content'], [Some text] when that is a [str] and [None] when it is
    anything else (the conversation library stores Python's [None] there for
    a message that only asks for a tool call). *)
Record chat_message := { content : option string }.

(** What [initiate_chats] gives back for one chat; [chat_history] is [None]
    when the attribute is absent. *)
Record ChatResult := { chat_history : option (list chat_message) }.

Definition canonical_sentence (restaurant score : string) : string :=
  latin1 "A avaliação média do " +:+ restaurant +:+ latin1 " é " +:+ score +:+ ".".

Definition could_not_process : string :=
  latin1 "Não foi possível processar a consulta adequadamente.".

(** The statements of [main] after [initiate_chats]: the value is the list
    of the strings handed to [print], in order. [re.search] raises
    [TypeError] when the last message is no [str]. *)
Definition report (result : list ChatResult) (user_query : string)
    : outcome (list string) :=
  if bool_decide (result <> []) && (0 <? len result) then
    final_chat ← py_getitem result (-1);
    match chat_history final_chat with
    | Some ((_ :: _) as history) =>
        last_message ← content <$> py_getitem history (-1);
        match last_message with
        | Some last_message =>
            let score_match := re_search false score_pattern last_message in
            let restaurant_match :=
              re_search true restaurant_pattern user_query in
            match score_match, restaurant_match with
            | Some score_groups, Some restaurant_groups =>
                score ← group score_groups 1;
                restaurant ← strip <$> group restaurant_groups 1;
                Ok [canonical_sentence restaurant score]
            | _, _ => Ok [last_message]
            end
        | None => Raise TypeError
        end
    | _ => Ok [could_not_process]
    end
  else Ok [].

(** The transcripts and the query of the specification's example. *)
Definition example_transcripts : list ChatResult :=
  [ {| chat_history :=
         Some [ {| content := Some "The average rating of Bob's is 7.123." |} ] |} ].

Definition example_query : string := "What is the score of Bob's?".

(** The same question in the language of the source's pattern. *)
Definition example_consulta : string :=
  latin1 "Qual é a avaliação média do Bob's?".

Section Main.

(** The conversation runtime is an external library: [main] is modelled for
    an arbitrary [initiate_chats]. *)
Variable initiate_chats : list chat -> list ChatResult.

Definition main (user_query : string) : outcome (list string) :=
  report (initiate_chats (chat_sequence user_query)) user_query.

End Main.

(** ** The coordinator *)

(** Modelled from the spec: what running one stage leaves, the stage and
    the turns of its exchange, each turn with the messages it added to the
    "ordered sequence of exchanged messages per stage". The stages are run
    by the conversation library, whose code is not under src/. *)
Record stage_run := {
  stage_of : chat;
  turns_of : list (list chat_message)
}.

(** Modelled from the spec: the transcript of a stage, as the library
    hands it to [main]. *)
Definition transcript (run : stage_run) : ChatResult :=
  {| chat_history := Some (concat (turns_of run)) |}.

Section Coordinator.

(** The agents and the inference service behind them are external:
    [turn stage earlier messages] is what one more turn of [stage] adds to
    its transcript [messages] when the stages before it left [earlier], and
    [None] when the exchange is complete. *)
Variable turn :
  chat -> list stage_run -> list chat_message -> option (list chat_message).

(** Modelled from the spec: the exchange of one stage. It is run by the
    conversation library, whose code is not under src/. "Each stage exchange
    is bounded by max_turns: the exchange terminates when either a natural
    completion signal occurs or the turn bound is reached, whichever first." *)
Fixpoint exchange (stage : chat) (earlier : list stage_run) (bound : nat)
    (messages : list chat_message) : list (list chat_message) :=
  match bound with
  | O => []
  | S bound' =>
      match turn stage earlier messages with
      | None => []
      | Some added =>
          added :: exchange stage earlier bound' (messages ++ added)
      end
  end.

(** Modelled from the spec: the coordinator's [run], which is
    [initiate_chats] of the conversation library. It "executes stages
    strictly in order", each stage seeing what the stages before it left,
    and "produces an ordered list of per-stage transcripts, one per stage,
    in execution order". *)
Fixpoint run_stages (earlier : list stage_run) (stages : list chat)
    : list stage_run :=
  match stages with
  | [] => []
  | stage :: rest =>
      let done :=
        {| stage_of := stage;
           turns_of := exchange stage earlier (Z.to_nat (max_turns stage)) [] |} in
      done :: run_stages (earlier ++ [done]) rest
  end.

(** Modelled from the spec: [initiate_chats] as [main] calls it, the
    transcripts of the stages run, in execution order. *)
Definition initiate_chats (chat_queue : list chat) : list ChatResult :=
  transcript <$> run_stages [] chat_queue.

End Coordinator.

(** ** Real values of floats *)

Definition bpow (e : Z) : R := powerRZ 2 e.

(** The real number [m * 2^e]. *)
Definition F2R (m e : Z) : R := (IZR m * bpow e)%R.

(** The real value of a float (0 for NaN and the infinities). *)
Definition B2R (x : float) : R :=
  match Prim2SF x with
  | S754_finite s m e => if s then (- F2R (Z.pos m) e)%R else F2R (Z.pos m) e
  | _ => 0%R
  end.

(** Positive floats with a full 53-bit mantissa. *)
Definition normal (x : float) : Prop :=
  exists (m : positive) (e : Z),
    Prim2SF x = S754_finite false m e
    /\ 2 ^ (prec - 1) <= Z.pos m < 2 ^ prec
    /\ emin <= e <= emax - prec.

(** The relative error of one rounding, [2^-52]. *)
Definition eps : R := bpow (-52).

(** [x] is a normal float within one rounding error of the real [r]. *)
Definition approx (r : R) (x : float) : Prop :=
  normal x /\ (r * (1 - eps) <= B2R x <= r * (1 + eps))%R.

(** Reals far from the ends of the binary64 range. *)
Definition moderate (r : R) : Prop := (bpow (-100) <= r <= bpow 100)%R.

(** A component of the sum: a normal float with value between [a] and [b]. *)
Definition component_in (a b : R) (c : float) : Prop :=
  normal c /\ (a <= B2R c <= b)%R.

(** The float [sqrt 125] of the source and its exact value. *)
Definition root : float := PrimFloat.sqrt 125.
Definition root_value : R := (6293971818901970 / 562949953421312)%R.

(** A normal float with exponent in [-52, 0] whose value is between
    [low * 2^-52] and [high * 2^-52]; decided by computation. *)
Definition dyadic_between (low high : Z) (c : float) : bool :=
  match Prim2SF c with
  | S754_finite false m e =>
      (2 ^ 52 <=? Z.pos m) && (Z.pos m <? 2 ^ 53)
      && (-52 <=? e) && (e <=? 0)
      && (low <=? Z.pos m * 2 ^ (e + 52)) && (Z.pos m * 2 ^ (e + 52) <=? high)
  | _ => false
  end.

(** Scores within the documented range 1 to 5. *)
Definition in_scale (score : Z) : Prop := 1 <= score <= 5.

(** A list longer than any float can count: [2^54] elements. *)
Definition beyond_counting : nat := Z.to_nat (2 ^ 54).

(** [x] is the normal float of the integer [k]: [k = m * 2^(j - 52)] with a
    53-bit mantissa [m]. *)
Definition counts (k : Z) (x : float) : Prop :=
  exists (m : positive) (j : Z),
    Prim2SF x = S754_finite false m (j - 52)
    /\ Zdigits2 (Z.pos m) = prec
    /\ 0 <= j <= 53
    /\ k * 2 ^ 52 = Z.pos m * 2 ^ j.

(** ** Characters of a string *)

(** [c] occurs in [s]. *)
Definition has_char (c : ascii) (s : string) : Prop :=
  exists before after, s = before +:+ String c after.

(** Every character of [s] satisfies [p]. *)
Fixpoint all_chars (p : ascii -> bool) (s : string) : bool :=
  match s with
  | EmptyString => true
  | String c s' => p c && all_chars p s'
  end.

(** The last character of [s], if it has one. *)
Fixpoint last_char (s : string) : option ascii :=
  match s with
  | EmptyString => None
  | String c s' =>
      match s' with
      | EmptyString => Some c
      | String _ _ => last_char s'
      end
  end.

(** [s] starts with [do ] or [da ], in either case. *)
Definition starts_with_preposition (s : string) : bool :=
  match s with
  | String a (String b (String c _)) =>
      bool_decide (to_lower a = "d"%char)
      && (bool_decide (to_lower b = "o"%char)
          || bool_decide (to_lower b = "a"%char))
      && bool_decide (c = " "%char)
  | _ => false
  end.

(** [do ] or [da ] occurs somewhere in [s]. *)
Fixpoint has_preposition (s : string) : bool :=
  starts_with_preposition s
  || match s with
     | String _ s' => has_preposition s'
     | EmptyString => false
     end.

(** * Properties *)

(** ** Sequences *)

Lemma py_getitem_middle {A} (pre post : list A) (x : A) :
  py_getitem (pre ++ x :: post) (len pre) = Ok x.
Proof.
  unfold py_getitem. cbv zeta.
  assert ((len pre <? 0) = false) as Hneg by (apply Z.ltb_ge; unfold len; lia).
  rewrite Hneg. cbv iota. rewrite Hneg.
  assert ((len (pre ++ x :: post) <=? len pre) = false) as ->
    by (apply Z.leb_gt; unfold len; rewrite length_app; cbn [length]; lia).
  unfold len. rewrite Nat2Z.id, list_lookup_middle by reflexivity.
  reflexivity.
Qed.

Lemma py_range_cons (k n : Z) :
  0 < n -> seqZ k n = k :: seqZ (k + 1) (n - 1).
Proof.
  intros Hn. rewrite (seqZ_cons k n) by lia. reflexivity.
Qed.

(** ** The scoring kernel *)

Lemma score_loop_components (food service : list Z) :
  length food = length service ->
  forall (food_done service_done : list Z) (total : float),
    length food_done = length service_done ->
    score_loop (food_done ++ food) (service_done ++ service)
               (seqZ (len food_done) (len food)) total
    = components ← mapM spec_component (zip food service);
      Ok (foldl PrimFloat.add total components).
Proof.
  revert service.
  induction food as [|f food IH]; intros [|s service] Hlen; try discriminate.
  - reflexivity.
  - intros food_done service_done total Hdone.
    rewrite py_range_cons by (unfold len; cbn [length]; lia).
    cbn [score_loop zip zip_with mapM].
    assert (py_getitem (service_done ++ s :: service) (len food_done) = Ok s)
      as Hs.
    { replace (len food_done) with (len service_done) by (unfold len; congruence).
      apply py_getitem_middle. }
    rewrite py_getitem_middle. cbn [mbind outcome_bind].
    rewrite Hs. cbn [mbind outcome_bind].
    change (spec_component (f, s)) with (math_sqrt (f ^ 2 * s)).
    destruct (math_sqrt (f ^ 2 * s)) as [c|e]; [|reflexivity].
    cbn [mbind outcome_bind].
    specialize (IH service ltac:(cbn in Hlen; congruence)
                   (food_done ++ [f]) (service_done ++ [s]) (total + c)%float).
    rewrite <- !app_assoc in IH. cbn [app] in IH.
    replace (len (food_done ++ [f])) with (len food_done + 1) in IH
      by (unfold len; rewrite length_app; cbn [length]; lia).
    replace (len (f :: food) - 1) with (len food)
      by (unfold len; cbn [length]; lia).
    rewrite IH by (rewrite !length_app; cbn [length]; lia).
    destruct (mapM spec_component (zip food service)); reflexivity.
Qed.

Lemma final_score_spec (food service : list Z) :
  length food = length service ->
  final_score food service = spec_score food service.
Proof.
  intros Hlen. unfold final_score, spec_score, py_range, spec_sum.
  pose proof (score_loop_components food service Hlen [] [] 0%float eq_refl) as H.
  cbn [app] in H. change (len []) with 0 in H. rewrite H.
  destruct (mapM spec_component (zip food service)); reflexivity.
Qed.

Lemma calculate_overall_score_guard (name : string) (food service : list Z) :
  food <> [] -> length food = length service ->
  calculate_overall_score name food service
  = score ← final_score food service; Ok {[ name := score ]}.
Proof.
  intros Hne Hlen. unfold calculate_overall_score.
  rewrite (bool_decide_eq_false_2 _ Hne).
  assert (service <> []) as Hs by (intros ->; destruct food; [congruence|discriminate]).
  rewrite (bool_decide_eq_false_2 _ Hs).
  unfold len. rewrite Hlen, Z.eqb_refl. reflexivity.
Qed.

(** C1. For equal-length non-empty lists [calculate_overall_score] stores
    under the entity name the value of the specification's formula: the sum
    over [i] of [sqrt(food[i]^2 * service[i])], times [1 / (N * sqrt 125)],
    times 10, rounded to 3 decimals (an exception of the formula is the
    exception of the function); for [[3]] and [[4]] that value is 5.367. *)
Theorem calculate_overall_score_formula (name : string) (food service : list Z) :
  food <> [] -> length food = length service ->
  calculate_overall_score name food service
  = (score ← spec_score food service; Ok {[ name := score ]})
  /\ calculate_overall_score name [3] [4] = Ok {[ name := 5.367%float ]}.
Proof.
  intros Hne Hlen. split.
  - rewrite calculate_overall_score_guard, final_score_spec by assumption.
    reflexivity.
  - rewrite calculate_overall_score_guard by (discriminate || reflexivity).
    assert (final_score [3] [4] = Ok 5.367%float) as -> by (vm_compute; reflexivity).
    reflexivity.
Qed.

Lemma calculate_overall_score_formula_witness :
  calculate_overall_score "Bob's" [4; 5; 3] [2; 5; 1]
  = (score ← spec_score [4; 5; 3] [2; 5; 1]; Ok {[ "Bob's" := score ]})
  /\ calculate_overall_score "Bob's" [3] [4] = Ok {[ "Bob's" := 5.367%float ]}.
Proof.
  apply (calculate_overall_score_formula "Bob's" [4; 5; 3] [2; 5; 1]).
  - discriminate.
  - reflexivity.
Defined.

(** C2. When either list is empty or the lengths differ,
    [calculate_overall_score] returns the entity name with 0.0 and raises
    nothing. *)
Theorem calculate_overall_score_fallback (name : string) (food service : list Z) :
  food = [] \/ service = [] \/ length food <> length service ->
  calculate_overall_score name food service = Ok {[ name := 0%float ]}.
Proof.
  intros H. unfold calculate_overall_score.
  destruct (decide (food = [])) as [->|Hf]; [reflexivity|].
  rewrite (bool_decide_eq_false_2 _ Hf).
  destruct (decide (service = [])) as [->|Hs]; [reflexivity|].
  rewrite (bool_decide_eq_false_2 _ Hs).
  destruct H as [?|[?|Hlen]]; [congruence..|].
  replace (len food =? len service) with false; [reflexivity|].
  symmetry. apply Z.eqb_neq. unfold len. lia.
Qed.

Lemma calculate_overall_score_fallback_witness :
  calculate_overall_score "Bob's" [1; 2] [1] = Ok {[ "Bob's" := 0%float ]}.
Proof.
  apply (calculate_overall_score_fallback "Bob's" [1; 2] [1]).
  right. right. cbn. lia.
Defined.

(** ** Binary64 rounding *)

Lemma digits2_pos_size (p : positive) : digits2_pos p = Pos.size p.
Proof. induction p; cbn; congruence. Qed.

Lemma Zdigits2_log2 (p : positive) : Zdigits2 (Z.pos p) = Z.log2 (Z.pos p) + 1.
Proof.
  cbn [Zdigits2]. rewrite digits2_pos_size.
  destruct p; cbn [Z.log2 Pos.size]; lia.
Qed.

Lemma Zdigits2_bounds (p : positive) :
  2 ^ (Zdigits2 (Z.pos p) - 1) <= Z.pos p < 2 ^ Zdigits2 (Z.pos p).
Proof.
  rewrite Zdigits2_log2.
  replace (Z.log2 (Z.pos p) + 1 - 1) with (Z.log2 (Z.pos p)) by lia.
  apply Z.log2_spec. lia.
Qed.

Lemma Zdigits2_unique (p : positive) (d : Z) :
  2 ^ (d - 1) <= Z.pos p < 2 ^ d -> Zdigits2 (Z.pos p) = d.
Proof.
  intros [Hlow Hhigh]. rewrite Zdigits2_log2.
  assert (0 < d).
  { destruct (Z.le_gt_cases d 0) as [Hd|]; [|lia].
    assert (2 ^ d <= 2 ^ 0) by (apply Z.pow_le_mono_r; lia). change (2 ^ 0) with 1 in *. lia. }
  rewrite (Z.log2_unique (Z.pos p) (d - 1)); [lia | lia |].
  replace (Z.succ (d - 1)) with d by lia. lia.
Qed.

Lemma shr_1_half (mrs : shr_record) :
  0 <= shr_m mrs -> shr_m (shr_1 mrs) = shr_m mrs / 2.
Proof.
  destruct mrs as [[|[p|p|]|p] r s]; cbn [shr_m shr_1]; intros H; try lia.
  - reflexivity.
  - rewrite Pos2Z.inj_xI. apply (Z.div_unique _ _ _ 1); lia.
  - rewrite Pos2Z.inj_xO. apply (Z.div_unique _ _ _ 0); lia.
  - reflexivity.
Qed.

Lemma shr_1_nonneg (mrs : shr_record) : 0 <= shr_m mrs -> 0 <= shr_m (shr_1 mrs).
Proof. intros H. rewrite shr_1_half by assumption. apply Z.div_pos; lia. Qed.

Lemma iter_shr_1 (n : positive) (mrs : shr_record) :
  0 <= shr_m mrs ->
  shr_m (SpecFloat.iter_pos shr_1 n mrs) = shr_m mrs / 2 ^ Z.pos n.
Proof.
  revert mrs. induction n as [n IH|n IH|]; intros mrs Hm; cbn [SpecFloat.iter_pos].
  - assert (0 <= shr_m (shr_1 mrs)) by (by apply shr_1_nonneg).
    assert (0 <= shr_m (SpecFloat.iter_pos shr_1 n (shr_1 mrs)))
      by (rewrite IH by assumption; apply Z.div_pos; lia).
    rewrite IH, IH, shr_1_half by assumption.
    rewrite !Z.div_div by lia. f_equal.
    replace (Z.pos n~1) with (1 + Z.pos n + Z.pos n) by lia.
    rewrite (Z.pow_add_r 2 (1 + Z.pos n) (Z.pos n)),
      (Z.pow_add_r 2 1 (Z.pos n)) by lia.
    change (2 ^ 1) with 2. ring.
  - assert (0 <= shr_m (SpecFloat.iter_pos shr_1 n mrs))
      by (rewrite IH by assumption; apply Z.div_pos; lia).
    rewrite IH, IH by assumption.
    rewrite !Z.div_div by lia. f_equal.
    replace (Z.pos n~0) with (Z.pos n + Z.pos n) by lia.
    rewrite (Z.pow_add_r 2 (Z.pos n) (Z.pos n)) by lia. ring.
  - rewrite shr_1_half by assumption. reflexivity.
Qed.

Lemma shr_record_of_loc_m (m : Z) (l : location) :
  shr_m (shr_record_of_loc m l) = m.
Proof. destruct l as [|[]]; reflexivity. Qed.

(** Truncation of a mantissa of at least 53 bits, in the normal range. *)
Lemma shr_fexp_normal (m : positive) (e : Z) (l : location) :
  let d := Zdigits2 (Z.pos m) in
  prec <= d -> emin + prec <= d + e ->
  exists mrs,
    shr_fexp prec emax (Z.pos m) e l = (mrs, d + e - prec)
    /\ shr_m mrs = Z.pos m / 2 ^ (d - prec)
    /\ 2 ^ (prec - 1) <= shr_m mrs < 2 ^ prec.
Proof.
  intros d Hd Hrange. unfold shr_fexp, shr. fold d.
  assert (fexp prec emax (d + e) = d + e - prec) as ->
    by (unfold fexp, SpecFloat.emin, emin in *; lia).
  pose proof (Zdigits2_bounds m) as Hm. fold d in Hm.
  replace (d + e - prec - e) with (d - prec) by lia.
  destruct (d - prec) as [|n|n] eqn:Hn; [| |lia].
  - exists (shr_record_of_loc (Z.pos m) l).
    rewrite shr_record_of_loc_m, Z.div_1_r.
    replace d with prec in * by lia.
    split; [f_equal; lia|]. split; [reflexivity | exact Hm].
  - exists (SpecFloat.iter_pos shr_1 n (shr_record_of_loc (Z.pos m) l)).
    rewrite iter_shr_1, shr_record_of_loc_m by (rewrite shr_record_of_loc_m; lia).
    split; [f_equal; lia|]. split; [reflexivity|].
    rewrite <- Hn.
    assert (2 ^ (d - 1) = 2 ^ (prec - 1) * 2 ^ (d - prec)) as Hlow
      by (rewrite <- Z.pow_add_r by (unfold prec in *; lia); f_equal; lia).
    assert (2 ^ d = 2 ^ prec * 2 ^ (d - prec)) as Hhigh
      by (rewrite <- Z.pow_add_r by (unfold prec in *; lia); f_equal; lia).
    assert (0 < 2 ^ (d - prec)) by (apply Z.pow_pos_nonneg; lia).
    split.
    + apply Z.div_le_lower_bound; lia.
    + apply Z.div_lt_upper_bound; lia.
Qed.

Lemma round_nearest_even_range (m : Z) (l : location) :
  m <= round_nearest_even m l <= m + 1.
Proof.
  destruct l as [|[]]; cbn [round_nearest_even]; try lia.
  destruct (Z.even m); lia.
Qed.

(** Rounding of a mantissa of at least 53 bits in the normal range: the
    result has a 53-bit mantissa [m3] and an exponent [e3] such that
    [m3 * 2^e3] is the truncated value or its successor. *)
Lemma binary_round_aux_normal (s : bool) (m : positive) (e : Z) (l : location) :
  let d := Zdigits2 (Z.pos m) in
  prec <= d -> emin + prec <= d + e ->
  exists (m3 : positive) (e3 m2 : Z),
    binary_round_aux prec emax s (Z.pos m) e l
    = (if e3 <=? emax - prec then S754_finite s m3 e3 else S754_infinity s)
    /\ 2 ^ (prec - 1) <= Z.pos m3 < 2 ^ prec
    /\ d + e - prec <= e3 <= d + e - prec + 1
    /\ Z.pos m / 2 ^ (d - prec) <= m2 <= Z.pos m / 2 ^ (d - prec) + 1
    /\ Z.pos m3 * 2 ^ (e3 - (d + e - prec)) = m2.
Proof.
  intros d Hd Hrange. unfold binary_round_aux.
  destruct (shr_fexp_normal m e l Hd Hrange) as (mrs1 & -> & Hm1 & Hm1range).
  fold d in Hm1 |- *.
  pose proof (round_nearest_even_range (shr_m mrs1) (loc_of_shr_record mrs1)) as Hm2.
  set (m2 := round_nearest_even (shr_m mrs1) (loc_of_shr_record mrs1)) in *.
  assert (0 < 2 ^ (prec - 1)) by (apply Z.pow_pos_nonneg; unfold prec; lia).
  destruct m2 as [|p2|p2] eqn:Hp2; try lia.
  assert (2 ^ prec = 2 * 2 ^ (prec - 1)) as Hpow by reflexivity.
  assert (Zdigits2 (Z.pos p2) = prec \/ 
          (Zdigits2 (Z.pos p2) = prec + 1 /\ Z.pos p2 = 2 ^ prec)) as Hd2.
  { destruct (Z.eq_dec (Z.pos p2) (2 ^ prec)) as [Heq|Hne].
    - right. split; [|assumption]. apply Zdigits2_unique.
      replace (prec + 1 - 1) with prec by lia. rewrite Heq.
      change (2 ^ (prec + 1)) with (2 * 2 ^ prec). lia.
    - left. apply Zdigits2_unique. lia. }
  assert (prec <= Zdigits2 (Z.pos p2)) as Hd2low by lia.
  assert (emin + prec <= Zdigits2 (Z.pos p2) + (d + e - prec)) as Hrange2 by lia.
  destruct (shr_fexp_normal p2 (d + e - prec) loc_Exact Hd2low Hrange2)
    as (mrs2 & -> & Hm3 & Hm3range).
  destruct (shr_m mrs2) as [|m3|m3] eqn:Hm3eq; try lia.
  exists m3, (Zdigits2 (Z.pos p2) + (d + e - prec) - prec), (Z.pos p2).
  split; [reflexivity|]. split; [exact Hm3range|].
  split; [lia|]. split; [lia|].
  destruct Hd2 as [Hd2|[Hd2 Hp2pow]]; rewrite Hd2 in Hm3 |- *.
  - replace (prec + (d + e - prec) - prec - (d + e - prec)) with 0 by lia.
    rewrite Z.sub_diag, Z.div_1_r in Hm3. lia.
  - replace (prec + 1 + (d + e - prec) - prec - (d + e - prec)) with 1 by lia.
    replace (prec + 1 - prec) with 1 in Hm3 by lia.
    rewrite Hm3, Hp2pow. reflexivity.
Qed.

Lemma valid_binary_normal (s : bool) (m : positive) (e : Z) :
  2 ^ (prec - 1) <= Z.pos m < 2 ^ prec -> emin <= e <= emax - prec ->
  valid_binary (S754_finite s m e) = true.
Proof.
  intros Hm He. cbn [SpecFloat.valid_binary]. unfold SpecFloat.bounded, SpecFloat.canonical_mantissa.
  change (Z.pos (digits2_pos m)) with (Zdigits2 (Z.pos m)).
  rewrite (Zdigits2_unique m prec Hm).
  apply andb_true_iff. split; [apply Z.eqb_eq | apply Z.leb_le; lia].
  unfold fexp, SpecFloat.emin, emin, prec, emax in *. lia.
Qed.

Lemma Prim2SF_normal (s : bool) (m : positive) (e : Z) :
  2 ^ (prec - 1) <= Z.pos m < 2 ^ prec -> emin <= e <= emax - prec ->
  Prim2SF (SF2Prim (S754_finite s m e)) = S754_finite s m e.
Proof. intros Hm He. by apply Prim2SF_SF2Prim, valid_binary_normal. Qed.

Lemma pos_iter_xO (k p : positive) :
  Z.pos (Pos.iter xO p k) = Z.pos p * 2 ^ Z.pos k.
Proof.
  induction k as [|k IH] using Pos.peano_ind.
  - cbn [Pos.iter]. lia.
  - rewrite Pos.iter_succ, Pos2Z.inj_xO, IH, Pos2Z.inj_succ, Z.pow_succ_r by lia.
    ring.
Qed.

(** A positive [int] below [2^1023] converts to a finite float with a 53-bit
    mantissa. *)
Lemma binary_normalize_pos (z : positive) :
  Z.pos z < 2 ^ (emax - 1) ->
  exists (m : positive) (e : Z),
    binary_normalize prec emax (Z.pos z) 0 false = S754_finite false m e
    /\ 2 ^ (prec - 1) <= Z.pos m < 2 ^ prec
    /\ Zdigits2 (Z.pos z) - prec <= e <= Zdigits2 (Z.pos z) - prec + 1.
Proof.
  intros Hz. cbn [binary_normalize]. unfold binary_round.
  pose proof (Zdigits2_bounds z) as Hdz.
  set (dz := Zdigits2 (Z.pos z)) in *.
  assert (0 < dz <= emax - 1) as Hdzrange.
  { split.
    - destruct (Z.le_gt_cases dz 0) as [Hle|]; [|assumption].
      assert (2 ^ dz <= 2 ^ 0) by (apply Z.pow_le_mono_r; lia).
      change (2 ^ 0) with 1 in *. lia.
    - destruct (Z.le_gt_cases dz (emax - 1)) as [|Hgt]; [assumption|].
      assert (2 ^ (emax - 1) <= 2 ^ (dz - 1)) by (apply Z.pow_le_mono_r; lia).
      lia. }
  change (Z.pos (digits2_pos z)) with dz.
  assert (fexp prec emax (dz + 0) = dz - prec) as ->
    by (unfold fexp, SpecFloat.emin, emin, prec, emax in *; lia).
  assert (exists mz ez,
            shl_align z 0 (dz - prec) = (mz, ez)
            /\ prec <= Zdigits2 (Z.pos mz)
            /\ Zdigits2 (Z.pos mz) + ez = dz) as (mz & ez & -> & Hmz & Hsum).
  { unfold shl_align. destruct (dz - prec - 0) as [|k|k] eqn:Hk.
    - exists z, 0. fold dz. repeat split; lia.
    - exists z, 0. fold dz. repeat split; lia.
    - exists (Pos.iter xO z k), (dz - prec).
      assert (Zdigits2 (Z.pos (Pos.iter xO z k)) = prec) as ->.
      { apply Zdigits2_unique. rewrite pos_iter_xO.
        replace (Z.pos k) with (prec - dz) by lia.
        assert (0 < 2 ^ (prec - dz)) by (apply Z.pow_pos_nonneg; lia).
        assert (2 ^ (prec - 1) = 2 ^ (dz - 1) * 2 ^ (prec - dz)) as ->
          by (rewrite <- Z.pow_add_r by lia; f_equal; lia).
        assert (2 ^ prec = 2 ^ dz * 2 ^ (prec - dz)) as ->
          by (rewrite <- Z.pow_add_r by lia; f_equal; lia).
        nia. }
      repeat split; lia. }
  destruct (binary_round_aux_normal false mz ez loc_Exact Hmz)
    as (m3 & e3 & m2 & -> & Hm3 & He3 & _).
  { unfold emin, prec, emax in *. lia. }
  exists m3, e3.
  replace (e3 <=? emax - prec) with true
    by (symmetry; apply Z.leb_le; unfold prec, emax in *; lia).
  repeat split; lia.
Qed.

Lemma shr_nonneg (mrs : shr_record) (e n : Z) :
  0 <= shr_m mrs -> 0 <= shr_m (shr mrs e n).1.
Proof.
  intros Hm. destruct n as [|n|n]; cbn [shr fst]; try assumption.
  rewrite iter_shr_1 by assumption. apply Z.div_pos; lia.
Qed.

Lemma binary_round_aux_not_nan (s : bool) (m e : Z) (l : location) :
  0 <= m -> binary_round_aux prec emax s m e l <> S754_nan.
Proof.
  intros Hm. unfold binary_round_aux, shr_fexp.
  pose proof (shr_nonneg (shr_record_of_loc m l) e
                (fexp prec emax (Zdigits2 m + e) - e)) as H1.
  rewrite shr_record_of_loc_m in H1. specialize (H1 Hm).
  destruct (shr (shr_record_of_loc m l) e _) as [mrs1 e1]. cbn [fst] in H1.
  pose proof (round_nearest_even_range (shr_m mrs1) (loc_of_shr_record mrs1)) as H2.
  set (m2 := round_nearest_even (shr_m mrs1) (loc_of_shr_record mrs1)) in *.
  pose proof (shr_nonneg (shr_record_of_loc m2 loc_Exact) e1
                (fexp prec emax (Zdigits2 m2 + e1) - e1)) as H3.
  rewrite shr_record_of_loc_m in H3. specialize (H3 ltac:(lia)).
  destruct (shr (shr_record_of_loc m2 loc_Exact) e1 _) as [mrs2 e2].
  cbn [fst] in H3.
  destruct (shr_m mrs2); [discriminate | by destruct (_ <=? _) | lia].
Qed.

Lemma SFeqb_refl (x : spec_float) : x <> S754_nan -> SFeqb x x = true.
Proof.
  destruct x as [[]|[]| |[] m e]; intros H; try reflexivity; try congruence.
  all: unfold SFeqb; cbn [SFcompare].
  all: rewrite Z.compare_refl, (Pos.compare_cont_refl m Eq); reflexivity.
Qed.

Lemma is_nan_false (x : float) : Prim2SF x <> S754_nan -> is_nan x = false.
Proof.
  intros H. unfold is_nan. rewrite FloatAxioms.eqb_spec, SFeqb_refl by assumption.
  reflexivity.
Qed.

Lemma sqrt_not_nan (x : float) (m : positive) (e : Z) :
  Prim2SF x = S754_finite false m e -> is_nan (PrimFloat.sqrt x) = false.
Proof.
  intros Hx. apply is_nan_false. rewrite sqrt_spec, Hx.
  unfold SF64sqrt, SFsqrt.
  destruct (SFsqrt_core_binary prec emax (Z.pos m) e) as [[mz ez] lz] eqn:Hcore.
  apply binary_round_aux_not_nan.
  unfold SFsqrt_core_binary in Hcore.
  set (shifted := match e - 2 * _ with
                  | 0 => Z.pos m | Z.pos _ => _ | Z.neg _ => 0 end) in Hcore.
  assert (0 <= shifted) as Hshifted.
  { subst shifted. destruct (e - 2 * _); [lia | | lia].
    apply Z.shiftl_nonneg. lia. }
  pose proof (Z.sqrtrem_spec shifted Hshifted) as Hsqrt.
  destruct (Z.sqrtrem shifted) as [q r]. injection Hcore as <- _ _. lia.
Qed.

(** [math.sqrt] returns on every non-negative [int] below [2^1023]. *)
Lemma math_sqrt_returns (z : Z) :
  0 <= z < 2 ^ (emax - 1) -> returns (math_sqrt z).
Proof.
  intros [Hlow Hhigh]. destruct z as [|p|p]; [by eexists | | lia].
  destruct (binary_normalize_pos p Hhigh) as (m & e & Hnorm & Hm & He).
  unfold math_sqrt, float_of_int. rewrite Hnorm.
  cbn [mbind outcome_bind].
  assert (Prim2SF (SF2Prim (S754_finite false m e)) = S754_finite false m e) as Hx.
  { apply Prim2SF_normal; [assumption|].
    pose proof (Zdigits2_bounds p) as Hd.
    assert (0 < Zdigits2 (Z.pos p) <= emax - 1).
    { split.
      - destruct (Z.le_gt_cases (Zdigits2 (Z.pos p)) 0) as [Hle|]; [|assumption].
        assert (2 ^ Zdigits2 (Z.pos p) <= 2 ^ 0) by (apply Z.pow_le_mono_r; lia).
        change (2 ^ 0) with 1 in *. lia.
      - destruct (Z.le_gt_cases (Zdigits2 (Z.pos p)) (emax - 1)) as [|Hgt];
          [assumption|].
        assert (2 ^ (emax - 1) <= 2 ^ (Zdigits2 (Z.pos p) - 1))
          by (apply Z.pow_le_mono_r; lia).
        lia. }
    unfold emin, prec, emax in *. lia. }
  rewrite (sqrt_not_nan _ _ _ Hx). by eexists.
Qed.

Lemma Zdigits2_range (p : positive) (k : Z) :
  Z.pos p < 2 ^ k -> 0 < Zdigits2 (Z.pos p) <= k.
Proof.
  intros Hp. pose proof (Zdigits2_bounds p) as Hd. split.
  - destruct (Z.le_gt_cases (Zdigits2 (Z.pos p)) 0) as [Hle|]; [|assumption].
    assert (2 ^ Zdigits2 (Z.pos p) <= 2 ^ 0) by (apply Z.pow_le_mono_r; lia).
    change (2 ^ 0) with 1 in *. lia.
  - destruct (Z.le_gt_cases (Zdigits2 (Z.pos p)) k) as [|Hgt]; [assumption|].
    assert (2 ^ k <= 2 ^ (Zdigits2 (Z.pos p) - 1))
      by (apply Z.pow_le_mono_r; lia).
    lia.
Qed.

Lemma Zdigits2_lower (p : positive) (k : Z) :
  2 ^ k <= Z.pos p -> k + 1 <= Zdigits2 (Z.pos p).
Proof.
  intros Hp. pose proof (Zdigits2_bounds p) as Hd.
  destruct (Z.le_gt_cases (k + 1) (Zdigits2 (Z.pos p))) as [|Hgt]; [assumption|].
  assert (2 ^ Zdigits2 (Z.pos p) <= 2 ^ k) by (apply Z.pow_le_mono_r; lia).
  lia.
Qed.

(** A positive [int] below [2^1023] converts to a normal positive float. *)
Lemma float_of_int_pos (z : Z) :
  0 < z < 2 ^ (emax - 1) ->
  exists (x : float) (m : positive) (e : Z),
    float_of_int z = Ok x
    /\ Prim2SF x = S754_finite false m e
    /\ 2 ^ (prec - 1) <= Z.pos m < 2 ^ prec
    /\ 1 - prec <= e <= emax - prec.
Proof.
  intros [Hlow Hhigh]. destruct z as [|p|p]; try lia.
  destruct (binary_normalize_pos p Hhigh) as (m & e & Hnorm & Hm & He).
  pose proof (Zdigits2_range p _ Hhigh) as Hd.
  assert (1 - prec <= e <= emax - prec) as Hrange by lia.
  exists (SF2Prim (S754_finite false m e)), m, e.
  unfold float_of_int. rewrite Hnorm.
  repeat split; try lia.
  apply Prim2SF_normal; [assumption|]. unfold emin, prec, emax in *. lia.
Qed.

(** The product of two normal positive floats is not zero unless it
    underflows. *)
Lemma mul_not_zero (x y : float) (mx my : positive) (ex ey : Z) :
  Prim2SF x = S754_finite false mx ex ->
  Prim2SF y = S754_finite false my ey ->
  2 ^ (prec - 1) <= Z.pos mx -> 2 ^ (prec - 1) <= Z.pos my ->
  emin <= ex + ey ->
  is_zero (x * y) = false.
Proof.
  intros Hx Hy Hmx Hmy Hrange.
  unfold is_zero. rewrite FloatAxioms.eqb_spec, mul_spec, Hx, Hy.
  unfold SF64mul. cbn [SFmul xorb].
  assert (2 ^ (2 * prec - 2) <= Z.pos (mx * my)) as Hprod.
  { rewrite Pos2Z.inj_mul.
    replace (2 * prec - 2) with ((prec - 1) + (prec - 1)) by lia.
    rewrite Z.pow_add_r by (unfold prec; lia).
    apply Z.mul_le_mono_nonneg; try assumption;
      apply Z.pow_nonneg; lia. }
  apply Zdigits2_lower in Hprod.
  destruct (binary_round_aux_normal false (mx * my) (ex + ey) loc_Exact)
    as (m3 & e3 & m2 & -> & _);
    [unfold SpecFloat.emin, prec, emax in *; lia.. |].
  by destruct (e3 <=? emax - prec).
Qed.

Lemma mapM_returns {A B} (f : A -> outcome B) (l : list A) :
  Forall (fun a => returns (f a)) l -> returns (mapM f l).
Proof.
  induction 1 as [|a l [b Hb] _ [bs Hbs]]; cbn [mapM].
  - by eexists.
  - rewrite Hb. cbn [mbind outcome_bind]. rewrite Hbs. by eexists.
Qed.

Lemma spec_score_returns (food service : list Z) :
  0 < len food < 2 ^ 63 ->
  Forall (fun pair => 0 <= pair.1 ^ 2 * pair.2 < 2 ^ 1023) (zip food service) ->
  returns (spec_score food service).
Proof.
  intros Hlen Hpairs. unfold spec_score.
  destruct (mapM_returns spec_component (zip food service)) as [components ->].
  { eapply Forall_impl; [exact Hpairs|].
    intros pair Hpair. by apply math_sqrt_returns. }
  cbn [mbind outcome_bind].
  assert (math_sqrt 125 = Ok (PrimFloat.sqrt 125)) as -> by (vm_compute; reflexivity).
  cbn [mbind outcome_bind].
  destruct (float_of_int_pos (len food)) as (fn & m & e & -> & Hfn & Hm & He).
  { split; [lia|]. apply Z.lt_trans with (2 ^ 63); [lia | reflexivity]. }
  cbn [mbind outcome_bind]. unfold py_truediv.
  assert (float_of_int 1 = Ok 1%float) as -> by (vm_compute; reflexivity).
  cbn [mbind outcome_bind].
  rewrite (mul_not_zero fn (PrimFloat.sqrt 125) m 6293971818901970 e (-49)).
  - unfold py_mul_int.
    assert (float_of_int 10 = Ok 10%float) as -> by (vm_compute; reflexivity).
    by eexists.
  - exact Hfn.
  - vm_compute. reflexivity.
  - lia.
  - vm_compute. discriminate.
  - unfold SpecFloat.emin, prec, emax in *. lia.
Qed.


(** ** Real values of floats *)

Lemma bpow_pos (e : Z) : (0 < bpow e)%R.
Proof. apply powerRZ_lt. lra. Qed.

Lemma bpow_add (a b : Z) : bpow (a + b) = (bpow a * bpow b)%R.
Proof. apply powerRZ_add. lra. Qed.

Lemma bpow_succ (a : Z) : bpow (a + 1) = (2 * bpow a)%R.
Proof.
  rewrite bpow_add. replace (bpow 1) with 2%R; [ring|].
  unfold bpow, powerRZ. simpl. lra.
Qed.

Lemma bpow_IZR (k : Z) : 0 <= k -> bpow k = IZR (2 ^ k).
Proof.
  intros Hk. unfold bpow.
  rewrite <- (Z2Nat.id k Hk) at 2. rewrite <- pow_IZR, pow_powerRZ.
  by rewrite Z2Nat.id.
Qed.

Lemma bpow_le (a b : Z) : a <= b -> (bpow a <= bpow b)%R.
Proof.
  intros Hab. replace b with (a + (b - a)) by lia.
  rewrite bpow_add, (bpow_IZR (b - a)) by lia.
  assert (0 < 2 ^ (b - a)) as Hpos by (apply Z.pow_pos_nonneg; lia).
  assert (1 <= 2 ^ (b - a)) as H%IZR_le by lia.
  pose proof (bpow_pos a). nra.
Qed.

Lemma bpow_lt_inv (a b : Z) : (bpow a < bpow b)%R -> a < b.
Proof.
  intros H. destruct (Z.lt_ge_cases a b) as [|Hge]; [assumption|].
  apply bpow_le in Hge. lra.
Qed.

Lemma F2R_shift (m e k : Z) : 0 <= k -> F2R (m * 2 ^ k) e = F2R m (e + k).
Proof.
  intros Hk. unfold F2R.
  rewrite mult_IZR, <- bpow_IZR, (Z.add_comm e k), bpow_add by assumption.
  ring.
Qed.

Lemma F2R_le (m m' e : Z) : m <= m' -> (F2R m e <= F2R m' e)%R.
Proof.
  intros H%IZR_le. unfold F2R. pose proof (bpow_pos e). nra.
Qed.

Lemma F2R_lt (m m' e : Z) : m < m' -> (F2R m e < F2R m' e)%R.
Proof.
  intros H%IZR_lt. unfold F2R. pose proof (bpow_pos e). nra.
Qed.

Lemma F2R_add (m m' e : Z) : F2R (m + m') e = (F2R m e + F2R m' e)%R.
Proof. unfold F2R. rewrite plus_IZR. ring. Qed.

(** A mantissa of [d] digits at exponent [e] lies in [[2^(d+e-1), 2^(d+e))]. *)
Lemma F2R_digits (m : positive) (e : Z) :
  (bpow (Zdigits2 (Z.pos m) + e - 1) <= F2R (Z.pos m) e
   < bpow (Zdigits2 (Z.pos m) + e))%R.
Proof.
  pose proof (Zdigits2_bounds m) as [Hlow Hhigh].
  pose proof (Zdigits2_range m _ Hhigh) as [Hd _].
  set (d := Zdigits2 (Z.pos m)) in *.
  replace (d + e - 1) with ((d - 1) + e) by lia.
  rewrite (bpow_add (d - 1) e), (bpow_add d e),
    (bpow_IZR (d - 1)), (bpow_IZR d) by lia.
  apply IZR_le in Hlow. apply IZR_lt in Hhigh.
  unfold F2R. pose proof (bpow_pos e). nra.
Qed.

(** Rounding in the normal range, without overflow: the result and the
    value rounded both lie in an interval [[lo, lo + w]] with
    [w <= eps * lo]. The value rounded is [m * 2^e] or, for an inexact
    location, anything up to [(m + 1) * 2^e]. *)
Lemma binary_round_aux_bracket (s : bool) (m : positive) (e : Z) (l : location) :
  let d := Zdigits2 (Z.pos m) in
  prec <= d -> emin + prec <= d + e -> d + e <= emax - 1 ->
  exists (m3 : positive) (e3 : Z) (lo w : R),
    binary_round_aux prec emax s (Z.pos m) e l = S754_finite s m3 e3
    /\ 2 ^ (prec - 1) <= Z.pos m3 < 2 ^ prec
    /\ emin <= e3 <= emax - prec
    /\ (0 < w <= lo * eps)%R
    /\ (lo <= F2R (Z.pos m3) e3 <= lo + w)%R
    /\ (lo <= F2R (Z.pos m) e)%R
    /\ (F2R (Z.pos m + 1) e <= lo + w)%R.
Proof.
  intros d Hd Hlow Hhigh.
  destruct (binary_round_aux_normal s m e l Hd Hlow)
    as (m3 & e3 & m2 & Heq & Hm3 & He3 & Hm2 & Hval).
  fold d in He3, Hm2, Hval.
  exists m3, e3, (F2R (Z.pos m / 2 ^ (d - prec)) (e + (d - prec))),
    (bpow (e + (d - prec))).
  assert ((e3 <=? emax - prec) = true) as Hfinite by (apply Z.leb_le; lia).
  rewrite Hfinite in Heq.
  assert (0 < 2 ^ (d - prec)) as Hpow by (apply Z.pow_pos_nonneg; lia).
  pose proof (Z.div_mod (Z.pos m) (2 ^ (d - prec)) ltac:(lia)) as Hdiv.
  pose proof (Z.mod_pos_bound (Z.pos m) (2 ^ (d - prec)) Hpow) as Hmod.
  set (m1 := Z.pos m / 2 ^ (d - prec)) in *.
  assert (2 ^ (prec - 1) <= m1) as Hm1.
  { pose proof (Zdigits2_bounds m) as [Hdl _]. fold d in Hdl.
    apply Z.div_le_lower_bound; [assumption|].
    rewrite <- Z.pow_add_r by (unfold prec in *; lia).
    replace (d - prec + (prec - 1)) with (d - 1) by lia. assumption. }
  pose proof (bpow_pos (e + (d - prec))) as Hw.
  split; [exact Heq|]. split; [exact Hm3|].
  split; [unfold SpecFloat.emin, prec, emax in *; lia|].
  split; [|split; [|split]].
  - split; [assumption|]. unfold F2R, eps.
    apply IZR_le in Hm1.
    change (IZR (2 ^ (prec - 1))) with (IZR (2 ^ 52)) in Hm1.
    rewrite <- (bpow_IZR 52) in Hm1 by lia.
    assert (bpow 52 * bpow (-52) = 1)%R as Hone
      by (rewrite <- bpow_add; reflexivity).
    pose proof (bpow_pos (-52)).
    assert (1 <= IZR m1 * bpow (-52))%R by nra.
    nra.
  - replace (F2R (Z.pos m3) e3) with (F2R m2 (e + (d - prec))).
    + unfold F2R in *. destruct Hm2 as [H1%IZR_le H2%IZR_le].
      rewrite plus_IZR in H2. nra.
    + rewrite <- Hval, F2R_shift by lia. f_equal. lia.
  - replace (F2R m1 (e + (d - prec))) with (F2R (m1 * 2 ^ (d - prec)) e)
      by (apply F2R_shift; lia).
    apply F2R_le. lia.
  - replace (F2R m1 (e + (d - prec)) + bpow (e + (d - prec)))%R
      with (F2R ((m1 + 1) * 2 ^ (d - prec)) e).
    + apply F2R_le. lia.
    + rewrite F2R_shift by lia. unfold F2R. rewrite plus_IZR. ring.
Qed.

Lemma bracket_approx (lo w exact rounded : R) :
  (0 < w <= lo * eps)%R ->
  (lo <= rounded <= lo + w)%R -> (lo <= exact <= lo + w)%R ->
  (exact * (1 - eps) <= rounded <= exact * (1 + eps))%R.
Proof.
  intros Hw Hrounded Hexact.
  assert (0 < eps)%R by apply bpow_pos. nra.
Qed.

Lemma B2R_finite (x : float) (m : positive) (e : Z) :
  Prim2SF x = S754_finite false m e -> B2R x = F2R (Z.pos m) e.
Proof. intros H. unfold B2R. by rewrite H. Qed.

Lemma F2R_pos (m : positive) (e : Z) : (0 < F2R (Z.pos m) e)%R.
Proof.
  unfold F2R. pose proof (bpow_pos e).
  assert (0 < IZR (Z.pos m))%R by (apply IZR_lt; lia). nra.
Qed.

(** Exponent of a normal float from bounds on its value. *)
Lemma normal_exponent (m : positive) (e a b : Z) :
  2 ^ (prec - 1) <= Z.pos m < 2 ^ prec ->
  (bpow a <= F2R (Z.pos m) e <= bpow b)%R ->
  a - prec < e <= b - prec + 1.
Proof.
  intros Hm [Hlow Hhigh].
  pose proof (F2R_digits m e) as [Hdl Hdh].
  rewrite (Zdigits2_unique m prec Hm) in Hdl, Hdh.
  assert (bpow a < bpow (prec + e))%R as H1%bpow_lt_inv by lra.
  destruct (Z.le_gt_cases e (b - prec + 1)) as [|Hgt]; [lia|].
  assert (bpow (b + 1) <= bpow (prec + e - 1))%R by (apply bpow_le; lia).
  assert (bpow b < bpow (b + 1))%R.
  { rewrite bpow_succ. pose proof (bpow_pos b). lra. }
  lra.
Qed.

Lemma shl_align_down (m : positive) (e e' : Z) :
  e' <= e ->
  exists m', shl_align m e e' = (m', e')
             /\ Z.pos m' = Z.pos m * 2 ^ (e - e').
Proof.
  intros He. unfold shl_align.
  destruct (e' - e) as [|d|d] eqn:Hd; try lia.
  - exists m. replace e' with e by lia. rewrite Z.sub_diag.
    split; [reflexivity | lia].
  - exists (Pos.iter xO m d). rewrite pos_iter_xO.
    split; [reflexivity|]. do 2 f_equal. lia.
Qed.

Lemma shl_align_up (m : positive) (e e' : Z) :
  e <= e' -> shl_align m e e' = (m, e).
Proof.
  intros He. unfold shl_align. destruct (e' - e) eqn:Hd; try reflexivity. lia.
Qed.

Lemma digits_shift (m m' : positive) (k : Z) :
  0 <= k -> Z.pos m' = Z.pos m * 2 ^ k ->
  Zdigits2 (Z.pos m') = Zdigits2 (Z.pos m) + k.
Proof.
  intros Hk Hm'. apply Zdigits2_unique. rewrite Hm'.
  pose proof (Zdigits2_bounds m) as [Hlow Hhigh].
  pose proof (Zdigits2_range m _ Hhigh) as [Hd _].
  assert (0 < 2 ^ k) by (apply Z.pow_pos_nonneg; lia).
  replace (Zdigits2 (Z.pos m) + k - 1) with (Zdigits2 (Z.pos m) - 1 + k) by lia.
  rewrite !Z.pow_add_r by lia. nia.
Qed.

(** Rounding of an exact positive value [m * 2^e] in the normal range. *)
Lemma binary_round_approx (m : positive) (e : Z) :
  emin + prec <= Zdigits2 (Z.pos m) + e ->
  (F2R (Z.pos m) e <= bpow (emax - 2))%R ->
  exists (m3 : positive) (e3 : Z),
    binary_round prec emax false m e = S754_finite false m3 e3
    /\ 2 ^ (prec - 1) <= Z.pos m3 < 2 ^ prec
    /\ emin <= e3 <= emax - prec
    /\ (F2R (Z.pos m) e * (1 - eps) <= F2R (Z.pos m3) e3
        <= F2R (Z.pos m) e * (1 + eps))%R.
Proof.
  intros Hrange Hvalue. unfold binary_round.
  change (Z.pos (digits2_pos m)) with (Zdigits2 (Z.pos m)).
  set (d := Zdigits2 (Z.pos m)) in *.
  assert (fexp prec emax (d + e) = d + e - prec) as ->
    by (unfold fexp, SpecFloat.emin, prec, emax in *; lia).
  assert (exists mz ez,
            shl_align m e (d + e - prec) = (mz, ez)
            /\ prec <= Zdigits2 (Z.pos mz)
            /\ Zdigits2 (Z.pos mz) + ez = d + e
            /\ F2R (Z.pos mz) ez = F2R (Z.pos m) e)
    as (mz & ez & -> & Hdz & Hsum & Hsame).
  { destruct (Z.le_gt_cases d prec) as [Hle|Hgt].
    - destruct (shl_align_down m e (d + e - prec)) as (mz & -> & Hmz); [lia|].
      exists mz, (d + e - prec).
      rewrite (digits_shift m mz (e - (d + e - prec))) by (assumption || lia).
      fold d. repeat split; try lia.
      rewrite Hmz, F2R_shift by lia. f_equal. lia.
    - exists m, e. rewrite shl_align_up by lia. fold d.
      repeat split; lia. }
  pose proof (F2R_digits mz ez) as [Hdl _]. rewrite Hsame in Hdl.
  assert (Zdigits2 (Z.pos mz) + ez <= emax - 1) as Hhigh.
  { assert (bpow (Zdigits2 (Z.pos mz) + ez - 1) < bpow (emax - 1))%R
      as H%bpow_lt_inv; [|lia].
    eapply Rle_lt_trans; [exact Hdl|]. eapply Rle_lt_trans; [exact Hvalue|].
    replace (emax - 1) with (emax - 2 + 1) by lia.
    rewrite bpow_succ. pose proof (bpow_pos (emax - 2)). lra. }
  destruct (binary_round_aux_bracket false mz ez loc_Exact Hdz)
    as (m3 & e3 & lo & w & -> & Hm3 & He3 & Hw & Hres & Hlo & Hup);
    [lia | assumption |].
  rewrite Hsame in Hlo.
  assert (F2R (Z.pos m) e <= lo + w)%R as Hup'.
  { rewrite <- Hsame. etransitivity; [|exact Hup]. apply F2R_le. lia. }
  exists m3, e3. repeat split; try lia.
  - exact (proj1 (bracket_approx lo w _ _ Hw Hres (conj Hlo Hup'))).
  - exact (proj2 (bracket_approx lo w _ _ Hw Hres (conj Hlo Hup'))).
Qed.

Lemma normal_intro (x : float) (m : positive) (e : Z) :
  Prim2SF x = S754_finite false m e ->
  2 ^ (prec - 1) <= Z.pos m < 2 ^ prec -> emin <= e <= emax - prec ->
  normal x.
Proof. intros. exists m, e. auto. Qed.

(** Conversion of a positive [int] below [2^63]. *)
Lemma float_of_int_approx (n : Z) :
  0 < n < 2 ^ 63 ->
  exists x, float_of_int n = Ok x /\ approx (IZR n) x.
Proof.
  intros [Hlow Hhigh]. destruct n as [|p|p]; try lia.
  unfold float_of_int. cbn [binary_normalize].
  pose proof (Zdigits2_range p _ Hhigh) as Hd.
  destruct (binary_round_approx p 0) as (m & e & -> & Hm & He & Hval).
  { unfold SpecFloat.emin, prec, emax. lia. }
  { unfold F2R. change (bpow 0) with 1%R. rewrite Rmult_1_r.
    rewrite (bpow_IZR (emax - 2)) by (unfold emax; lia).
    apply IZR_le. apply Z.le_trans with (2 ^ 63); [lia|].
    apply Z.pow_le_mono_r; unfold emax; lia. }
  exists (SF2Prim (S754_finite false m e)).
  assert (Prim2SF (SF2Prim (S754_finite false m e)) = S754_finite false m e)
    as Hx by (by apply Prim2SF_normal).
  split; [reflexivity|]. split; [by eapply normal_intro|].
  rewrite (B2R_finite _ _ _ Hx).
  assert (F2R (Z.pos p) 0 = IZR (Z.pos p)) as Hp
    by (unfold F2R; change (bpow 0) with 1%R; ring).
  rewrite Hp in Hval. exact Hval.
Qed.

Lemma moderate_exponent (x : float) (m : positive) (e : Z) :
  Prim2SF x = S754_finite false m e ->
  2 ^ (prec - 1) <= Z.pos m < 2 ^ prec ->
  moderate (B2R x) ->
  -153 < e <= 48.
Proof.
  intros Hx Hm Hmod. rewrite (B2R_finite _ _ _ Hx) in Hmod.
  pose proof (normal_exponent m e (-100) 100 Hm Hmod). unfold prec in *. lia.
Qed.

Lemma bpow_small_range (k : Z) : k <= 201 -> (bpow k <= bpow (emax - 2))%R.
Proof. intros Hk. apply bpow_le. unfold emax. lia. Qed.

(** Floating-point addition of two moderate normal floats. *)
Lemma add_approx (x y : float) :
  normal x -> normal y -> moderate (B2R x) -> moderate (B2R y) ->
  approx (B2R x + B2R y) (x + y).
Proof.
  intros (mx & ex & Hx & Hmx & Hex) (my & ey & Hy & Hmy & Hey) Hxmod Hymod.
  pose proof (moderate_exponent x mx ex Hx Hmx Hxmod) as Hex'.
  pose proof (moderate_exponent y my ey Hy Hmy Hymod) as Hey'.
  rewrite (B2R_finite _ _ _ Hx) in *. rewrite (B2R_finite _ _ _ Hy) in *.
  assert (exists m3 e3,
            Prim2SF (x + y) = S754_finite false m3 e3
            /\ 2 ^ (prec - 1) <= Z.pos m3 < 2 ^ prec
            /\ emin <= e3 <= emax - prec
            /\ ((F2R (Z.pos mx) ex + F2R (Z.pos my) ey) * (1 - eps)
                <= F2R (Z.pos m3) e3
                <= (F2R (Z.pos mx) ex + F2R (Z.pos my) ey) * (1 + eps))%R)
    as (m3 & e3 & Hsum & Hm3 & He3 & Hval).
  { rewrite add_spec, Hx, Hy. unfold SF64add, SFadd. cbv zeta.
    destruct (shl_align_down mx ex (Z.min ex ey)) as (mx' & -> & Hmx'); [lia|].
    destruct (shl_align_down my ey (Z.min ex ey)) as (my' & -> & Hmy'); [lia|].
    cbn [fst cond_Zopp]. change (Z.pos mx' + Z.pos my') with (Z.pos (mx' + my')).
    cbn [binary_normalize].
    assert (F2R (Z.pos (mx' + my')) (Z.min ex ey)
            = F2R (Z.pos mx) ex + F2R (Z.pos my) ey)%R as Hexact.
    { rewrite Pos2Z.inj_add, F2R_add, Hmx', Hmy', !F2R_shift by lia.
      f_equal; f_equal; lia. }
    assert (2 ^ (prec - 1) <= Z.pos (mx' + my')) as Hbig.
    { assert (0 < 2 ^ (ex - Z.min ex ey)) by (apply Z.pow_pos_nonneg; lia).
      rewrite Pos2Z.inj_add. nia. }
    apply Zdigits2_lower in Hbig.
    destruct (binary_round_approx (mx' + my') (Z.min ex ey))
      as (m3 & e3 & -> & Hm3 & He3 & Hval).
    - unfold SpecFloat.emin, prec, emax in *. lia.
    - rewrite Hexact.
      etransitivity; [|apply (bpow_small_range (100 + 1)); lia].
      rewrite bpow_succ. destruct Hxmod, Hymod. lra.
    - exists m3, e3. rewrite Hexact in Hval. auto. }
  split; [by eapply normal_intro|].
  rewrite (B2R_finite _ _ _ Hsum). exact Hval.
Qed.

(** Floating-point multiplication of two moderate normal floats. *)
Lemma mul_approx (x y : float) :
  normal x -> normal y -> moderate (B2R x) -> moderate (B2R y) ->
  approx (B2R x * B2R y) (x * y).
Proof.
  intros (mx & ex & Hx & Hmx & Hex) (my & ey & Hy & Hmy & Hey) Hxmod Hymod.
  pose proof (moderate_exponent x mx ex Hx Hmx Hxmod) as Hex'.
  pose proof (moderate_exponent y my ey Hy Hmy Hymod) as Hey'.
  rewrite (B2R_finite _ _ _ Hx) in *. rewrite (B2R_finite _ _ _ Hy) in *.
  assert (F2R (Z.pos (mx * my)) (ex + ey)
          = F2R (Z.pos mx) ex * F2R (Z.pos my) ey)%R as Hexact.
  { unfold F2R. rewrite Pos2Z.inj_mul, mult_IZR, bpow_add. ring. }
  assert (2 ^ (2 * prec - 2) <= Z.pos (mx * my)) as Hprod.
  { rewrite Pos2Z.inj_mul.
    replace (2 * prec - 2) with ((prec - 1) + (prec - 1)) by lia.
    rewrite Z.pow_add_r by (unfold prec; lia).
    apply Z.mul_le_mono_nonneg; try lia; apply Z.pow_nonneg; lia. }
  apply Zdigits2_lower in Hprod.
  pose proof (Zdigits2_bounds (mx * my)) as [_ Hupper].
  assert (Zdigits2 (Z.pos (mx * my)) <= 2 * prec) as Hdigits.
  { apply Zdigits2_range. rewrite Pos2Z.inj_mul.
    replace (2 * prec) with (prec + prec) by lia.
    rewrite Z.pow_add_r by (unfold prec; lia). nia. }
  destruct (binary_round_aux_bracket false (mx * my) (ex + ey) loc_Exact)
    as (m3 & e3 & lo & w & Hround & Hm3 & He3 & Hw & Hres & Hlo & Hup);
    [unfold SpecFloat.emin, prec, emax in *; lia..|].
  assert (Prim2SF (x * y) = S754_finite false m3 e3) as Hmul
    by (rewrite mul_spec, Hx, Hy; exact Hround).
  split; [by eapply normal_intro|].
  rewrite (B2R_finite _ _ _ Hmul), <- Hexact.
  apply (bracket_approx lo w); try assumption.
  split; [assumption|]. etransitivity; [|exact Hup]. apply F2R_le. lia.
Qed.

(** Floating-point division of two moderate normal floats. *)
Lemma div_approx (x y : float) :
  normal x -> normal y -> moderate (B2R x) -> moderate (B2R y) ->
  approx (B2R x / B2R y) (x / y).
Proof.
  intros (mx & ex & Hx & Hmx & Hex) (my & ey & Hy & Hmy & Hey) Hxmod Hymod.
  pose proof (moderate_exponent x mx ex Hx Hmx Hxmod) as Hex'.
  pose proof (moderate_exponent y my ey Hy Hmy Hymod) as Hey'.
  rewrite (B2R_finite _ _ _ Hx) in *. rewrite (B2R_finite _ _ _ Hy) in *.
  assert (exists (q : positive) (l : location),
            SFdiv_core_binary prec emax (Z.pos mx) ex (Z.pos my) ey
            = (Z.pos q, ex - ey - prec, l)
            /\ 2 ^ (prec - 1) <= Z.pos q < 2 ^ (prec + 1)
            /\ (F2R (Z.pos q) (ex - ey - prec)
                <= F2R (Z.pos mx) ex / F2R (Z.pos my) ey
                <= F2R (Z.pos q + 1) (ex - ey - prec))%R)
    as (q & l & Hcore & Hq & Hquot).
  { unfold SFdiv_core_binary.
    rewrite (Zdigits2_unique mx prec Hmx), (Zdigits2_unique my prec Hmy).
    assert (fexp prec emax (prec + ex - (prec + ey)) = ex - ey - prec) as ->
      by (unfold fexp, SpecFloat.emin, prec, emax in *; lia).
    rewrite Z.min_l by (unfold prec; lia).
    replace (ex - ey - (ex - ey - prec)) with prec by lia.
    change (match prec with 0 => Z.pos mx | Z.pos _ => Z.shiftl (Z.pos mx) prec
                       | Z.neg _ => 0 end) with (Z.shiftl (Z.pos mx) prec).
    rewrite Z.shiftl_mul_pow2 by (unfold prec; lia).
    pose proof (Z_div_mod (Z.pos mx * 2 ^ prec) (Z.pos my) ltac:(lia)) as Hdiv.
    destruct (Z.div_eucl (Z.pos mx * 2 ^ prec) (Z.pos my)) as [q r].
    destruct Hdiv as [Hdiv Hr].
    change (2 ^ (prec + 1)) with (2 * 2 ^ prec).
    change (2 ^ prec) with (2 * 2 ^ (prec - 1)) in *.
    assert (0 < 2 ^ (prec - 1)) by (apply Z.pow_pos_nonneg; unfold prec; lia).
    assert (2 ^ (prec - 1) <= q < 2 * (2 * 2 ^ (prec - 1))) as Hq by nia.
    destruct q as [|q|q]; try lia.
    exists q, (new_location (Z.pos my) r). split; [reflexivity|].
    split; [exact Hq|].
    assert (F2R (Z.pos mx) ex / F2R (Z.pos my) ey
            = (IZR (Z.pos mx * (2 * 2 ^ (prec - 1))) / IZR (Z.pos my))
              * bpow (ex - ey - prec))%R as ->.
    { unfold F2R. rewrite mult_IZR.
      change (IZR (2 * 2 ^ (prec - 1))) with (IZR (2 ^ 53)).
      rewrite <- (bpow_IZR 53) by lia.
      replace ex with ((ex - ey - prec) + 53 + ey) at 1 by (unfold prec; lia).
      rewrite !bpow_add.
      pose proof (bpow_pos ey). pose proof (bpow_pos 53).
      assert (0 < IZR (Z.pos my))%R by (apply IZR_lt; lia).
      field. split; lra. }
    rewrite Hdiv. unfold F2R.
    pose proof (bpow_pos (ex - ey - prec)).
    assert (0 < IZR (Z.pos my))%R as Hmypos by (apply IZR_lt; lia).
    rewrite !plus_IZR, mult_IZR.
    destruct Hr as [Hr1%IZR_le Hr2%IZR_lt].
    assert (IZR (Z.pos q) <= (IZR (Z.pos my) * IZR (Z.pos q) + IZR r)
                              / IZR (Z.pos my) <= IZR (Z.pos q) + 1)%R.
    { split.
      - apply Rmult_le_reg_r with (IZR (Z.pos my)); [assumption|].
        unfold Rdiv. rewrite Rmult_assoc, Rinv_l by lra. lra.
      - apply Rmult_le_reg_r with (IZR (Z.pos my)); [assumption|].
        unfold Rdiv. rewrite Rmult_assoc, Rinv_l by lra. lra. }
    nra. }
  assert (prec <= Zdigits2 (Z.pos q) <= prec + 1) as Hdq.
  { split; [apply (Zdigits2_lower q (prec - 1)); lia|].
    apply Zdigits2_range. lia. }
  destruct (binary_round_aux_bracket false q (ex - ey - prec) l)
    as (m3 & e3 & lo & w & Hround & Hm3 & He3 & Hw & Hres & Hlo & Hup);
    [unfold SpecFloat.emin, prec, emax in *; lia..|].
  assert (Prim2SF (x / y) = S754_finite false m3 e3) as Hdiv.
  { rewrite div_spec, Hx, Hy. unfold SF64div, SFdiv. rewrite Hcore.
    exact Hround. }
  split; [by eapply normal_intro|].
  rewrite (B2R_finite _ _ _ Hdiv).
  apply (bracket_approx lo w); try assumption. lra.
Qed.

(** ** Error analysis of the scoring formula *)

Lemma eps_value : eps = (/ 4503599627370496)%R.
Proof.
  unfold eps. change (-52) with (- (52)).
  unfold bpow. rewrite powerRZ_neg'. f_equal.
  change (powerRZ 2 52) with (bpow 52). rewrite bpow_IZR by lia. reflexivity.
Qed.

Lemma sum_step_lower (a K T c rounded : R) :
  (1 <= a)%R -> (1 <= K)%R -> (K * eps <= 1)%R ->
  (K * a * (1 - K * eps) <= T)%R -> (a <= c)%R ->
  ((T + c) * (1 - eps) <= rounded)%R ->
  ((K + 1) * a * (1 - (K + 1) * eps) <= rounded)%R.
Proof.
  intros Ha HK HKe HT Hc Hr.
  assert (0 < eps < 1)%R as He by (rewrite eps_value; lra).
  assert (a * (K + 1 - K * K * eps) <= T + c)%R as Hsum by nra.
  assert (0 <= K + 1 - K * K * eps)%R by nra.
  assert (a * (K + 1 - K * K * eps) * (1 - eps) <= rounded)%R as Hr'.
  { etransitivity; [|exact Hr]. apply Rmult_le_compat_r; lra. }
  etransitivity; [|exact Hr'].
  assert ((K + 1) * (1 - (K + 1) * eps)
          <= (K + 1 - K * K * eps) * (1 - eps))%R by nra.
  nra.
Qed.

Lemma sum_step_upper (b K T c rounded : R) :
  (1 <= b)%R -> (1 <= K)%R -> (K * eps <= 1)%R ->
  (0 <= T <= K * b * (1 + 2 * K * eps))%R -> (0 <= c <= b)%R ->
  (rounded <= (T + c) * (1 + eps))%R ->
  (rounded <= (K + 1) * b * (1 + 2 * (K + 1) * eps))%R.
Proof.
  intros Hb HK HKe HT Hc Hr.
  assert (0 < eps < 1)%R as He by (rewrite eps_value; lra).
  assert (T + c <= b * (K + 1 + 2 * K * K * eps))%R as Hsum by nra.
  assert (rounded <= b * (K + 1 + 2 * K * K * eps) * (1 + eps))%R as Hr'.
  { etransitivity; [exact Hr|]. apply Rmult_le_compat_r; lra. }
  etransitivity; [exact Hr'|].
  assert (K * K * eps <= K)%R as HKK by nra.
  assert (0 <= eps * (3 * K + 1 - 2 * (K * K * eps)))%R as Hslack
    by (apply Rmult_le_pos; lra).
  assert ((K + 1 + 2 * K * K * eps) * (1 + eps)
          <= (K + 1) * (1 + 2 * (K + 1) * eps))%R by lra.
  nra.
Qed.

Lemma moderate_intro (r : R) :
  (/ 1152921504606846976 <= r <= 1152921504606846976)%R -> moderate r.
Proof.
  intros [Hlow Hhigh]. split.
  - etransitivity; [apply (bpow_le (-100) (-60)); lia|].
    replace (bpow (-60)) with (/ 1152921504606846976)%R; [assumption|].
    change (-60) with (- (60)). unfold bpow. rewrite powerRZ_neg'. f_equal.
    change (powerRZ 2 60) with (bpow 60). rewrite bpow_IZR by lia. reflexivity.
  - etransitivity; [|apply (bpow_le 60 100); lia].
    rewrite bpow_IZR by lia. exact Hhigh.
Qed.

Lemma count_eps (k : Z) :
  1 <= k <= 2 ^ 32 ->
  (1 <= IZR k <= 4294967296 /\ IZR k * eps <= / 1048576)%R.
Proof.
  intros [Hlow%IZR_le Hhigh%IZR_le]. rewrite eps_value.
  change (IZR (2 ^ 32)) with 4294967296%R in Hhigh. repeat split; lra.
Qed.

Lemma partial_sum_moderate (a b K T : R) :
  (1 <= a)%R -> (a <= b)%R -> (b <= 12)%R ->
  (1 <= K <= 4294967296)%R -> (K * eps <= / 1048576)%R ->
  (K * a * (1 - K * eps) <= T <= K * b * (1 + 2 * K * eps))%R ->
  (/ 2 <= T <= 1099511627776)%R.
Proof.
  intros Ha Hab Hb HK HKe [Hlow Hhigh].
  assert (0 < eps)%R by (rewrite eps_value; lra).
  assert (1 <= K * a)%R by nra.
  assert (K * b <= 4294967296 * 12)%R by nra.
  assert (0 <= K * eps)%R by nra.
  split.
  - etransitivity; [|exact Hlow].
    assert (/ 2 <= 1 - K * eps)%R by lra. nra.
  - etransitivity; [exact Hhigh|].
    assert (1 + 2 * K * eps <= 2)%R by lra. nra.
Qed.

(** Sum of [n] components between [a] and [b], accumulated in floats. *)
Lemma sum_bounds (a b : R) (components : list float) :
  (1 <= a)%R -> (a <= b)%R -> (b <= 12)%R ->
  Forall (component_in a b) components ->
  forall (total : float) (k : Z),
    normal total -> 1 <= k -> k + len components <= 2 ^ 32 ->
    (IZR k * a * (1 - IZR k * eps) <= B2R total
     <= IZR k * b * (1 + 2 * IZR k * eps))%R ->
    let n := IZR (k + len components) in
    normal (foldl PrimFloat.add total components)
    /\ (n * a * (1 - n * eps) <= B2R (foldl PrimFloat.add total components)
        <= n * b * (1 + 2 * n * eps))%R.
Proof.
  intros Ha Hab Hb. induction 1 as [|c cs [Hc Hcval] _ IH];
    intros total k Htotal Hk Hlen Hbounds; cbn [foldl].
  - change (len []) with 0. rewrite Z.add_0_r. auto.
  - assert (len (c :: cs) = 1 + len cs) as Hcons
      by (unfold len; cbn [length]; lia).
    rewrite Hcons in *.
    replace (k + (1 + len cs)) with ((k + 1) + len cs) by lia.
    assert (0 <= len cs) by (unfold len; lia).
    destruct (count_eps k ltac:(lia)) as [HK HKe].
    pose proof (partial_sum_moderate a b _ _ Ha Hab Hb HK HKe Hbounds) as HT.
    assert (moderate (B2R total)) as Hmt by (apply moderate_intro; lra).
    assert (moderate (B2R c)) as Hmc by (apply moderate_intro; lra).
    destruct (add_approx total c Htotal Hc Hmt Hmc) as [Hnormal [Hlo Hhi]].
    apply IH; [assumption | lia | lia |].
    rewrite plus_IZR. split.
    + apply (sum_step_lower a (IZR k) (B2R total) (B2R c)); try lra.
    + apply (sum_step_upper b (IZR k) (B2R total) (B2R c)); lra.
Qed.

Lemma add_zero_l (c : float) : normal c -> (0 + c)%float = c.
Proof.
  intros (m & e & Hc & _). apply Prim2SF_inj.
  rewrite add_spec, Hc. reflexivity.
Qed.

(** The sum as the loop computes it, from [0.0]. *)
Lemma spec_sum_bounds (a b : R) (components : list float) :
  (1 <= a)%R -> (a <= b)%R -> (b <= 12)%R ->
  Forall (component_in a b) components ->
  1 <= len components <= 2 ^ 32 ->
  let n := IZR (len components) in
  normal (spec_sum components)
  /\ (n * a * (1 - n * eps) <= B2R (spec_sum components)
      <= n * b * (1 + 2 * n * eps))%R.
Proof.
  intros Ha Hab Hb Hall Hlen. destruct Hall as [|c cs [Hc Hcval] Hcs].
  { unfold len in Hlen. cbn in Hlen. lia. }
  unfold spec_sum. cbn [foldl]. rewrite add_zero_l by assumption.
  assert (len (c :: cs) = 1 + len cs) as ->
    by (unfold len; cbn [length]; lia).
  assert (len (c :: cs) = 1 + len cs) as Hcons
    by (unfold len; cbn [length]; lia).
  rewrite Hcons in Hlen.
  apply (sum_bounds a b cs Ha Hab Hb Hcs c 1); [assumption | lia | lia |].
  assert (0 < eps < / 1048576)%R by (rewrite eps_value; lra).
  split; nra.
Qed.

Lemma normal_value (x : float) (m : positive) (e : Z) :
  Prim2SF x = S754_finite false m e ->
  2 ^ (prec - 1) <= Z.pos m < 2 ^ prec -> emin <= e <= emax - prec ->
  normal x /\ B2R x = F2R (Z.pos m) e.
Proof.
  intros Hx Hm He. split; [by eapply normal_intro | by apply B2R_finite].
Qed.

Lemma bpow_neg (p : positive) : bpow (Z.neg p) = (/ IZR (2 ^ Z.pos p))%R.
Proof.
  change (Z.neg p) with (- Z.pos p). unfold bpow. rewrite powerRZ_neg'.
  f_equal. change (powerRZ 2 (Z.pos p)) with (bpow (Z.pos p)).
  apply bpow_IZR. lia.
Qed.

Lemma root_normal : normal root /\ B2R root = root_value.
Proof.
  destruct (normal_value root 6293971818901970 (-49)) as [Hn Hv].
  - vm_compute. reflexivity.
  - vm_compute. split; [discriminate | reflexivity].
  - vm_compute. split; discriminate.
  - split; [assumption|]. rewrite Hv. unfold F2R, root_value.
    rewrite (bpow_neg 49). reflexivity.
Qed.

Lemma one_normal : normal 1%float /\ B2R 1%float = 1%R.
Proof.
  destruct (normal_value 1%float 4503599627370496 (-52)) as [Hn Hv].
  - vm_compute. reflexivity.
  - vm_compute. split; [discriminate | reflexivity].
  - vm_compute. split; discriminate.
  - split; [assumption|]. rewrite Hv. unfold F2R.
    rewrite (bpow_neg 52).
    change (IZR (2 ^ 52)) with 4503599627370496%R. field.
Qed.

Lemma ten_normal : normal 10%float /\ B2R 10%float = 10%R.
Proof.
  destruct (normal_value 10%float 5629499534213120 (-49)) as [Hn Hv].
  - vm_compute. reflexivity.
  - vm_compute. split; [discriminate | reflexivity].
  - vm_compute. split; discriminate.
  - split; [assumption|]. rewrite Hv. unfold F2R.
    rewrite (bpow_neg 49).
    change (IZR (2 ^ 49)) with 562949953421312%R. field.
Qed.

Lemma normal_not_zero (x : float) : normal x -> is_zero x = false.
Proof.
  intros (m & e & Hx & _). unfold is_zero.
  rewrite FloatAxioms.eqb_spec, Hx. reflexivity.
Qed.

(** The precise bounds on the scaled score, from the bounds of each
    rounding; [v] stands for the value of [sqrt 125]. *)
Lemma scaled_real_bounds (a b n v T fn p inv t1 t2 : R) :
  (1 <= a)%R -> (a <= b)%R -> (b <= 12)%R -> (11 <= v <= 12)%R ->
  (1 <= n)%R -> (n * eps <= / 1048576)%R ->
  (n * a * (1 - n * eps) <= T <= n * b * (1 + 2 * n * eps))%R ->
  (n * (1 - eps) <= fn <= n * (1 + eps))%R ->
  (fn * v * (1 - eps) <= p <= fn * v * (1 + eps))%R ->
  (1 / p * (1 - eps) <= inv <= 1 / p * (1 + eps))%R ->
  (T * inv * (1 - eps) <= t1 <= T * inv * (1 + eps))%R ->
  (t1 * 10 * (1 - eps) <= t2 <= t1 * 10 * (1 + eps))%R ->
  (10 * a * (1 - / 262144) <= t2 * v <= 10 * b * (1 + / 262144))%R.
Proof.
  intros Ha Hab Hb Hv Hn Hne HT Hfn Hp Hinv Ht1 Ht2.
  assert (eps = / 4503599627370496)%R as He by apply eps_value.
  assert (0 < eps <= / 4503599627370496)%R as Heps by lra.
  set (x := (n * eps)%R) in *.
  assert (0 <= x)%R as Hx by (unfold x; nra).
  assert (0 < n * (1 - eps))%R as Hfnpos by nra.
  assert (0 < fn)%R by lra.
  assert (0 < fn * v * (1 - eps))%R by (apply Rmult_lt_0_compat; nra).
  assert (0 < p)%R as Hppos by lra.
  assert (0 < T)%R as HTpos.
  { assert (0 < n * a * (1 - x))%R by (apply Rmult_lt_0_compat; nra). lra. }
  assert (1 - eps <= inv * p <= 1 + eps)%R as Hip.
  { destruct Hinv as [Hi1 Hi2].
    apply (Rmult_le_compat_r p) in Hi1; [|lra].
    apply (Rmult_le_compat_r p) in Hi2; [|lra].
    unfold Rdiv in *. rewrite Rmult_1_l in *.
    replace (/ p * (1 - eps) * p)%R with (1 - eps)%R in Hi1 by (field; lra).
    replace (/ p * (1 + eps) * p)%R with (1 + eps)%R in Hi2 by (field; lra).
    lra. }
  assert (0 < inv)%R as Hinvpos.
  { assert (0 < 1 / p * (1 - eps))%R; [|lra].
    apply Rmult_lt_0_compat; [|lra]. apply Rdiv_lt_0_compat; lra. }
  assert (0 < t1)%R as Ht1pos.
  { assert (0 < T * inv * (1 - eps))%R; [|lra].
    apply Rmult_lt_0_compat; [|lra]. apply Rmult_lt_0_compat; lra. }
  (* t1 * p is within (1 +- eps)^2 of T *)
  assert (T * ((1 - eps) * (1 - eps)) <= t1 * p
          <= T * ((1 + eps) * (1 + eps)))%R as Ht1p.
  { assert (T * inv * (1 - eps) * p <= t1 * p)%R
      by (apply Rmult_le_compat_r; lra).
    assert (t1 * p <= T * inv * (1 + eps) * p)%R
      by (apply Rmult_le_compat_r; lra).
    assert (T * (1 - eps) * (1 - eps) <= T * (1 - eps) * (inv * p))%R
      by (apply Rmult_le_compat_l; [nra | lra]).
    assert (T * (1 + eps) * (inv * p) <= T * (1 + eps) * (1 + eps))%R
      by (apply Rmult_le_compat_l; [nra | lra]).
    split; lra. }
  (* p is within (1 +- eps)^2 of n * v *)
  assert (n * v * ((1 - eps) * (1 - eps)) <= p
          <= n * v * ((1 + eps) * (1 + eps)))%R as Hpn.
  { assert (n * (1 - eps) * (v * (1 - eps)) <= fn * (v * (1 - eps)))%R
      by (apply Rmult_le_compat_r; [nra | lra]).
    assert (fn * (v * (1 + eps)) <= n * (1 + eps) * (v * (1 + eps)))%R
      by (apply Rmult_le_compat_r; [nra | lra]).
    split; lra. }
  (* cancel n *)
  assert (a * (1 - x) * ((1 - eps) * (1 - eps))
          <= t1 * v * ((1 + eps) * (1 + eps)))%R as Hlow.
  { apply Rmult_le_reg_l with n; [lra|].
    assert (n * a * (1 - x) * ((1 - eps) * (1 - eps))
            <= T * ((1 - eps) * (1 - eps)))%R
      by (apply Rmult_le_compat_r; [nra | lra]).
    assert (t1 * p <= t1 * (n * v * ((1 + eps) * (1 + eps))))%R
      by (apply Rmult_le_compat_l; lra).
    lra. }
  assert (t1 * v * ((1 - eps) * (1 - eps))
          <= b * (1 + 2 * x) * ((1 + eps) * (1 + eps)))%R as Hhigh.
  { apply Rmult_le_reg_l with n; [lra|].
    assert (t1 * (n * v * ((1 - eps) * (1 - eps))) <= t1 * p)%R
      by (apply Rmult_le_compat_l; lra).
    assert (T * ((1 + eps) * (1 + eps))
            <= n * b * (1 + 2 * n * eps) * ((1 + eps) * (1 + eps)))%R
      by (apply Rmult_le_compat_r; [nra | lra]).
    unfold x. lra. }
  assert (0 < t1 * v)%R as Htv by (apply Rmult_lt_0_compat; lra).
  set (y := (t1 * v)%R) in *.
  assert (t1 * 10 * (1 - eps) * v <= t2 * v <= t1 * 10 * (1 + eps) * v)%R
    as Ht2v by (split; apply Rmult_le_compat_r; lra).
  replace (t1 * 10 * (1 - eps) * v)%R with (10 * (1 - eps) * y)%R in Ht2v
    by (unfold y; ring).
  replace (t1 * 10 * (1 + eps) * v)%R with (10 * (1 + eps) * y)%R in Ht2v
    by (unfold y; ring).
  clear Ht2 Ht1 Hinv Hp Hfn HT Hip Ht1p Hpn.
  assert (1 - 3 * eps <= (1 - eps) * (1 - eps) * (1 - eps))%R as Hc3 by nra.
  assert ((1 + eps) * (1 + eps) * (1 + eps) <= 1 + 4 * eps)%R as Hd3 by nra.
  assert ((1 + eps) * (1 + eps) <= 1 + 3 * eps)%R as Hd2 by nra.
  assert (1 - 2 * eps <= (1 - eps) * (1 - eps))%R as Hc2 by nra.
  split.
  - (* y * (1+eps)^2 >= a (1-x)(1-eps)^2, so y >= a (1-x)(1-2eps)/(1+3eps) *)
    assert (a * (1 - x) * (1 - 2 * eps) <= y * (1 + 3 * eps))%R as H1.
    { apply Rle_trans with (a * (1 - x) * ((1 - eps) * (1 - eps)))%R.
      - apply Rmult_le_compat_l; [nra | lra].
      - apply Rle_trans with (y * ((1 + eps) * (1 + eps)))%R; [lra|].
        apply Rmult_le_compat_l; lra. }
    assert (a * (1 - / 524288) <= y * (1 + 3 * eps))%R as H2.
    { etransitivity; [|exact H1].
      rewrite Rmult_assoc. apply Rmult_le_compat_l; [lra|]. nra. }
    assert (a * (1 - / 262144) <= y * (1 - eps))%R as H3.
    { assert (a * (1 - / 524288) * (1 - 5 * eps)
              <= y * (1 + 3 * eps) * (1 - 5 * eps))%R
        by (apply Rmult_le_compat_r; lra).
      assert (y * (1 + 3 * eps) * (1 - 5 * eps) <= y * (1 - eps))%R
        by (rewrite Rmult_assoc; apply Rmult_le_compat_l; nra).
      assert (a * (1 - / 262144) <= a * (1 - / 524288) * (1 - 5 * eps))%R
        by (rewrite Rmult_assoc; apply Rmult_le_compat_l; nra).
      lra. }
    lra.
  - assert (y * (1 - 2 * eps) <= b * (1 + 2 * x) * (1 + 3 * eps))%R as H1.
    { apply Rle_trans with (y * ((1 - eps) * (1 - eps)))%R.
      - apply Rmult_le_compat_l; lra.
      - apply Rle_trans with (b * (1 + 2 * x) * ((1 + eps) * (1 + eps)))%R;
          [lra|].
        apply Rmult_le_compat_l; [nra | lra]. }
    assert (y * (1 - 2 * eps) <= b * (1 + / 393216))%R as H2.
    { etransitivity; [exact H1|].
      rewrite Rmult_assoc. apply Rmult_le_compat_l; [lra|]. nra. }
    assert (y * (1 + eps) <= b * (1 + / 262144))%R as H3.
    { assert (y * (1 - 2 * eps) * (1 + 4 * eps)
              <= b * (1 + / 393216) * (1 + 4 * eps))%R
        by (apply Rmult_le_compat_r; lra).
      assert (y * (1 + eps) <= y * (1 - 2 * eps) * (1 + 4 * eps))%R
        by (rewrite Rmult_assoc; apply Rmult_le_compat_l; nra).
      assert (b * (1 + / 393216) * (1 + 4 * eps) <= b * (1 + / 262144))%R
        by (rewrite Rmult_assoc; apply Rmult_le_compat_l; nra).
      lra. }
    lra.
Qed.

Lemma approx_bounds (r lo hi : R) (x : float) :
  approx r x -> (0 <= lo)%R -> (lo * 2 <= r)%R -> (r * 2 <= hi)%R ->
  (lo <= B2R x <= hi)%R.
Proof.
  intros [_ [Hlow Hhigh]] Hlo Hr1 Hr2.
  assert (0 < eps < / 2)%R by (rewrite eps_value; lra).
  split; nra.
Qed.

Lemma inverse_bounds (p lo hi : R) :
  (0 < lo)%R -> (lo <= p <= hi)%R -> (/ hi <= 1 / p <= / lo)%R.
Proof.
  intros Hlo [Hp1 Hp2]. unfold Rdiv. rewrite Rmult_1_l.
  split; apply Rinv_le_contravar; lra.
Qed.

(** The last four floating-point operations of the formula. *)
Lemma scaled_bounds (a b : R) (total fn : float) (n : Z) :
  (1 <= a)%R -> (a <= b)%R -> (b <= 12)%R -> 1 <= n <= 2 ^ 32 ->
  normal total ->
  (IZR n * a * (1 - IZR n * eps) <= B2R total
   <= IZR n * b * (1 + 2 * IZR n * eps))%R ->
  approx (IZR n) fn ->
  normal (total * (1 / (fn * root)) * 10)%float
  /\ (10 * a * (1 - / 262144)
      <= B2R (total * (1 / (fn * root)) * 10)%float * root_value
      <= 10 * b * (1 + / 262144))%R.
Proof.
  intros Ha Hab Hb Hn Htotal HT Hfn.
  destruct (count_eps n Hn) as [HN HNe].
  destruct root_normal as [Hroot Hrv].
  destruct one_normal as [Hone Hov]. destruct ten_normal as [Hten Htv].
  assert (11 <= root_value <= 12)%R as Hv by (unfold root_value; lra).
  pose proof (partial_sum_moderate a b _ _ Ha Hab Hb HN HNe HT) as HTrange.
  (* fn *)
  pose proof (approx_bounds _ (/ 2) 8589934592 _ Hfn) as Hfnrange.
  specialize (Hfnrange ltac:(lra) ltac:(lra) ltac:(lra)).
  (* p = fn * root *)
  destruct (mul_approx fn root) as [Hp Hpval];
    [apply Hfn | assumption | apply moderate_intro; lra
    | apply moderate_intro; lra |].
  rewrite Hrv in Hpval.
  assert (5 <= B2R (fn * root)%float <= 137438953472)%R as Hprange.
  { assert (0 < eps < / 16)%R by (rewrite eps_value; lra).
    assert (/ 2 * 11 <= B2R fn * root_value)%R by nra.
    assert (B2R fn * root_value <= 8589934592 * 12)%R by nra.
    split; nra. }
  (* inv = 1 / p *)
  destruct (div_approx 1 (fn * root)) as [Hinv Hinvval];
    [assumption | assumption | apply moderate_intro; lra
    | apply moderate_intro; lra |].
  rewrite Hov in Hinvval.
  pose proof (inverse_bounds _ 5 137438953472 ltac:(lra) Hprange) as Hrecip.
  assert (/ 274877906944 <= B2R (1 / (fn * root))%float <= 1)%R as Hinvrange.
  { assert (0 < eps < / 16)%R by (rewrite eps_value; lra).
    split; nra. }
  (* t1 = total * inv *)
  destruct (mul_approx total (1 / (fn * root))) as [Ht1 Ht1val];
    [assumption | assumption | apply moderate_intro; lra
    | apply moderate_intro; lra |].
  assert (/ 1099511627776 <= B2R (total * (1 / (fn * root)))%float
          <= 2199023255552)%R as Ht1range.
  { assert (0 < eps < / 16)%R by (rewrite eps_value; lra).
    assert (/ 2 * / 274877906944
            <= B2R total * B2R (1 / (fn * root))%float)%R
      by (apply Rmult_le_compat; lra).
    assert (B2R total * B2R (1 / (fn * root))%float <= 1099511627776 * 1)%R
      by (apply Rmult_le_compat; lra).
    split; nra. }
  (* t2 = t1 * 10 *)
  destruct (mul_approx (total * (1 / (fn * root))) 10) as [Ht2 Ht2val];
    [assumption | assumption | apply moderate_intro; lra
    | apply moderate_intro; lra |].
  rewrite Htv in Ht2val.
  split; [assumption|].
  apply (scaled_real_bounds a b (IZR n) root_value (B2R total) (B2R fn)
           (B2R (fn * root)%float) (B2R (1 / (fn * root))%float)
           (B2R (total * (1 / (fn * root)))%float)); try assumption; try lra.
  apply Hfn.
Qed.

(** ** Rounding to three decimals *)

Lemma round_half_even_div_bounds (a b low high : Z) :
  0 < b -> (2 * low - 1) * b < 2 * a -> 2 * a < (2 * high + 1) * b ->
  low <= round_half_even_div a b <= high.
Proof.
  intros Hb Hlow Hhigh. unfold round_half_even_div.
  pose proof (Z.div_mod a b ltac:(lia)) as Hdiv.
  pose proof (Z.mod_pos_bound a b Hb) as Hmod.
  set (q := a / b) in *. set (r := a mod b) in *.
  destruct (Z.compare_spec (2 * r) b) as [Heq|Hlt|Hgt];
    [destruct (Z.even q)|..]; nia.
Qed.

Lemma py_round_range (t : float) (low high : Z) :
  normal t -> 0 < low ->
  (IZR (2 * low - 1) / 2000 < B2R t < IZR (2 * high + 1) / 2000)%R ->
  exists q, low <= Z.pos q <= high /\ py_round t 3 = decimal_to_float false q 3.
Proof.
  intros (m & e & Ht & Hm & He) Hlow [Hbelow Habove].
  rewrite (B2R_finite _ _ _ Ht) in Hbelow, Habove.
  unfold py_round. rewrite Ht. cbv zeta.
  set (num := Z.pos m * 10 ^ 3 * 2 ^ Z.max e 0).
  set (den := 2 ^ Z.max (- e) 0).
  assert (0 < den) as Hden by (apply Z.pow_pos_nonneg; lia).
  assert (IZR num = 1000 * F2R (Z.pos m) e * IZR den)%R as Hnum.
  { unfold num, den, F2R. rewrite !mult_IZR.
    change (IZR (10 ^ 3)) with 1000%R.
    destruct (Z.le_gt_cases 0 e) as [Hpos|Hneg].
    - rewrite Z.max_l, Z.max_r by lia. rewrite <- (bpow_IZR e) by lia.
      change (IZR (2 ^ 0)) with 1%R. ring.
    - rewrite Z.max_r, Z.max_l by lia. rewrite <- (bpow_IZR (- e)) by lia.
      change (IZR (2 ^ 0)) with 1%R.
      assert (bpow e * bpow (- e) = 1)%R as Hone.
      { rewrite <- bpow_add. replace (e + - e) with 0 by lia. reflexivity. }
      rewrite !Rmult_assoc, Hone. ring. }
  apply IZR_lt in Hden as Hden'.
  destruct (round_half_even_div_bounds num den low high Hden) as [Hq1 Hq2].
  - apply lt_IZR. rewrite !mult_IZR, Hnum.
    assert (IZR (2 * low - 1) < 2000 * F2R (Z.pos m) e)%R by lra. nra.
  - apply lt_IZR. rewrite !mult_IZR, Hnum.
    assert (2000 * F2R (Z.pos m) e < IZR (2 * high + 1))%R by lra. nra.
  - destruct (round_half_even_div num den) as [|q|q]; try lia.
    exists q. auto.
Qed.

(** Every decimal from 0.894 to 10.000 converts to a float between the
    floats 0.894 and 10. *)
Lemma decimal_to_float_range (q : positive) :
  894 <= Z.pos q <= 10000 ->
  (0.894 <=? decimal_to_float false q 3)%float = true
  /\ (decimal_to_float false q 3 <=? 10)%float = true.
Proof.
  intros Hq.
  assert (forallb (fun k => (0.894 <=? decimal_to_float false (Z.to_pos k) 3)%float
                            && (decimal_to_float false (Z.to_pos k) 3 <=? 10)%float)
                  (seqZ 894 9107) = true) as Hall by (vm_compute; reflexivity).
  rewrite forallb_forall in Hall.
  specialize (Hall (Z.pos q)). cbn [Z.to_pos] in Hall.
  apply andb_true_iff, Hall, list_elem_of_In, elem_of_seqZ. lia.
Qed.

(** ** Range of the overall score *)

Lemma dyadic_between_spec (low high : Z) (c : float) :
  dyadic_between low high c = true ->
  normal c /\ (F2R low (-52) <= B2R c <= F2R high (-52))%R.
Proof.
  unfold dyadic_between. destruct (Prim2SF c) as [| | |[] m e] eqn:Hc;
    try discriminate.
  rewrite !andb_true_iff, !Z.leb_le, Z.ltb_lt.
  intros [[[[[Hm1 Hm2] He1] He2] Hlow] Hhigh].
  split.
  - eapply normal_intro; [exact Hc | unfold prec; lia
                         | unfold SpecFloat.emin, prec, emax; lia].
  - rewrite (B2R_finite _ _ _ Hc).
    replace (F2R (Z.pos m) e) with (F2R (Z.pos m * 2 ^ (e + 52)) (-52)).
    + split; by apply F2R_le.
    + rewrite F2R_shift by lia. f_equal. lia.
Qed.

Lemma one_dyadic : F2R (2 ^ 52) (-52) = 1%R.
Proof.
  unfold F2R. rewrite (bpow_neg 52).
  change (IZR (2 ^ 52)) with 4503599627370496%R.
  change (IZR (2 ^ 52)) with 4503599627370496%R. field.
Qed.

Lemma root_dyadic : F2R (6293971818901970 * 8) (-52) = root_value.
Proof.
  unfold F2R, root_value. rewrite (bpow_neg 52), mult_IZR.
  change (IZR (2 ^ 52)) with 4503599627370496%R. field.
Qed.

Lemma component_in_scale (f s : Z) :
  in_scale f -> in_scale s ->
  exists c, spec_component (f, s) = Ok c /\ component_in 1 root_value c.
Proof.
  unfold in_scale. intros Hf Hs.
  assert (exists c, spec_component (f, s) = Ok c
                    /\ dyadic_between (2 ^ 52) (6293971818901970 * 8) c = true)
    as (c & Hc & Hok).
  { assert (f = 1 \/ f = 2 \/ f = 3 \/ f = 4 \/ f = 5) as Hfs by lia.
    assert (s = 1 \/ s = 2 \/ s = 3 \/ s = 4 \/ s = 5) as Hss by lia.
    destruct Hfs as [->|[->|[->|[->| ->]]]];
      destruct Hss as [->|[->|[->|[->| ->]]]];
      eexists; (split; [vm_compute; reflexivity | vm_compute; reflexivity]). }
  exists c. split; [assumption|].
  apply dyadic_between_spec in Hok as [Hn Hv].
  rewrite one_dyadic, root_dyadic in Hv. split; assumption.
Qed.

Lemma component_ones :
  spec_component (1, 1) = Ok 1%float /\ component_in 1 1 1%float.
Proof.
  split; [vm_compute; reflexivity|].
  destruct one_normal as [Hn Hv]. split; [assumption | lra].
Qed.

Lemma component_fives :
  spec_component (5, 5) = Ok root
  /\ component_in root_value root_value root.
Proof.
  split; [vm_compute; reflexivity|].
  destruct root_normal as [Hn Hv]. split; [assumption | lra].
Qed.

Lemma mapM_components (P : Z * Z -> Prop) (a b : R) (pairs : list (Z * Z)) :
  (forall pair, P pair ->
     exists c, spec_component pair = Ok c /\ component_in a b c) ->
  Forall P pairs ->
  exists components,
    mapM spec_component pairs = Ok components
    /\ length components = length pairs
    /\ Forall (component_in a b) components.
Proof.
  intros HP. induction 1 as [|pair pairs Hpair _ (cs & Hcs & Hlen & Hall)].
  - exists []. repeat split. constructor.
  - destruct (HP pair Hpair) as (c & Hc & Hin).
    exists (c :: cs). cbn [mapM]. rewrite Hc. cbn [mbind outcome_bind].
    rewrite Hcs. cbn [length]. repeat split; [lia | by constructor].
Qed.

(** The score of lists whose pairs all satisfy [P], when the components of
    such pairs lie between [a] and [b]: the decimal returned is between
    [low] and [high] thousandths. *)
Lemma spec_score_decimal (P : Z * Z -> Prop) (a b : R) (low high : Z)
    (food service : list Z) :
  (forall pair, P pair ->
     exists c, spec_component pair = Ok c /\ component_in a b c) ->
  (1 <= a)%R -> (a <= b)%R -> (b <= 12)%R -> 0 < low ->
  (IZR (2 * low - 1) / 2000 * root_value < 10 * a * (1 - / 262144))%R ->
  (10 * b * (1 + / 262144) < IZR (2 * high + 1) / 2000 * root_value)%R ->
  food <> [] -> length food = length service -> len food <= 2 ^ 32 ->
  Forall P (zip food service) ->
  exists q,
    low <= Z.pos q <= high
    /\ spec_score food service = Ok (decimal_to_float false q 3).
Proof.
  intros HP Ha Hab Hb Hlow Hbelow Habove Hne Hlen Hsize Hpairs.
  destruct (mapM_components P a b _ HP Hpairs) as (cs & Hcs & Hcslen & Hall).
  assert (len cs = len food) as Hlencs.
  { unfold len. rewrite Hcslen, length_zip_with. lia. }
  assert (1 <= len food) as Hpos.
  { destruct food; [congruence|]. unfold len. cbn [length]. lia. }
  destruct (spec_sum_bounds a b cs Ha Hab Hb Hall) as [Hsum Hsumval];
    [lia|]. rewrite Hlencs in Hsumval.
  destruct (float_of_int_approx (len food)) as (fn & Hfn & Hfnval).
  { split; [lia|]. apply Z.le_lt_trans with (2 ^ 32); [lia | reflexivity]. }
  destruct (scaled_bounds a b (spec_sum cs) fn (len food))
    as [Hscaled Hscaledval]; try assumption; [lia|].
  destruct root_normal as [Hroot Hrv].
  assert (11 <= root_value <= 12)%R as Hv by (unfold root_value; lra).
  destruct (py_round_range (spec_sum cs * (1 / (fn * root)) * 10)%float
              low high Hscaled Hlow) as (q & Hq & Hround).
  { set (t := B2R _) in *. split.
    - apply Rmult_lt_reg_r with root_value; [lra|]. lra.
    - apply Rmult_lt_reg_r with root_value; [lra|]. lra. }
  exists q. split; [assumption|].
  unfold spec_score. rewrite Hcs. cbn [mbind outcome_bind].
  assert (math_sqrt 125 = Ok root) as -> by (vm_compute; reflexivity).
  cbn [mbind outcome_bind]. rewrite Hfn. cbn [mbind outcome_bind].
  unfold py_truediv.
  assert (float_of_int 1 = Ok 1%float) as -> by (vm_compute; reflexivity).
  cbn [mbind outcome_bind].
  assert (is_zero (fn * root) = false) as ->.
  { apply normal_not_zero.
    apply mul_approx; [apply Hfnval | assumption | |].
    - apply moderate_intro.
      destruct (count_eps (len food) ltac:(lia)) as [HN HNe].
      pose proof (approx_bounds _ (/ 2) 8589934592 _ Hfnval) as Hr.
      specialize (Hr ltac:(lra) ltac:(lra) ltac:(lra)). lra.
    - apply moderate_intro. rewrite Hrv. lra. }
  unfold py_mul_int.
  assert (float_of_int 10 = Ok 10%float) as -> by (vm_compute; reflexivity).
  cbn [mbind outcome_bind]. rewrite Hround. reflexivity.
Qed.

(** ** The error analysis for longer lists *)

Lemma sum_step_tight (b K T c rounded : R) :
  (1 <= b)%R -> (1 <= K)%R -> (K * eps <= 1)%R ->
  (0 <= T <= K * b * (1 + K * eps))%R -> (0 <= c <= b)%R ->
  (rounded <= (T + c) * (1 + eps))%R ->
  (rounded <= (K + 1) * b * (1 + (K + 1) * eps))%R.
Proof.
  intros Hb HK HKe HT Hc Hr.
  assert (0 < eps < 1)%R as He by (rewrite eps_value; lra).
  assert (T + c <= b * (K + 1 + K * K * eps))%R as Hsum by nra.
  assert (rounded <= b * (K + 1 + K * K * eps) * (1 + eps))%R as Hr'.
  { etransitivity; [exact Hr|]. apply Rmult_le_compat_r; lra. }
  etransitivity; [exact Hr'|].
  assert (K * K * eps <= K)%R as HKK by nra.
  assert (0 <= eps * (K - K * K * eps))%R as Hslack
    by (apply Rmult_le_pos; lra).
  assert ((K + 1 + K * K * eps) * (1 + eps)
          <= (K + 1) * (1 + (K + 1) * eps))%R by lra.
  nra.
Qed.

Lemma count_eps_wide (k : Z) :
  1 <= k <= 2 ^ 37 ->
  (1 <= IZR k <= 137438953472 /\ IZR k * eps <= / 32768)%R.
Proof.
  intros [Hlow%IZR_le Hhigh%IZR_le]. rewrite eps_value.
  change (IZR (2 ^ 37)) with 137438953472%R in Hhigh. repeat split; lra.
Qed.

Lemma partial_sum_moderate_wide (a b K T : R) :
  (1 <= a)%R -> (a <= b)%R -> (b <= 12)%R ->
  (1 <= K <= 137438953472)%R -> (K * eps <= / 32768)%R ->
  (K * a * (1 - K * eps) <= T <= K * b * (1 + K * eps))%R ->
  (/ 2 <= T <= 4398046511104)%R.
Proof.
  intros Ha Hab Hb HK HKe [Hlow Hhigh].
  assert (0 < eps)%R by (rewrite eps_value; lra).
  assert (1 <= K * a)%R by nra.
  assert (K * b <= 137438953472 * 12)%R by nra.
  assert (0 <= K * eps)%R by nra.
  split.
  - etransitivity; [|exact Hlow].
    assert (/ 2 <= 1 - K * eps)%R by lra. nra.
  - etransitivity; [exact Hhigh|].
    assert (1 + K * eps <= 2)%R by lra. nra.
Qed.

Lemma sum_bounds_wide (a b : R) (components : list float) :
  (1 <= a)%R -> (a <= b)%R -> (b <= 12)%R ->
  Forall (component_in a b) components ->
  forall (total : float) (k : Z),
    normal total -> 1 <= k -> k + len components <= 2 ^ 37 ->
    (IZR k * a * (1 - IZR k * eps) <= B2R total
     <= IZR k * b * (1 + IZR k * eps))%R ->
    let n := IZR (k + len components) in
    normal (foldl PrimFloat.add total components)
    /\ (n * a * (1 - n * eps) <= B2R (foldl PrimFloat.add total components)
        <= n * b * (1 + n * eps))%R.
Proof.
  intros Ha Hab Hb. induction 1 as [|c cs [Hc Hcval] _ IH];
    intros total k Htotal Hk Hlen Hbounds; cbn [foldl].
  - change (len []) with 0. rewrite Z.add_0_r. auto.
  - assert (len (c :: cs) = 1 + len cs) as Hcons
      by (unfold len; cbn [length]; lia).
    rewrite Hcons in *.
    replace (k + (1 + len cs)) with ((k + 1) + len cs) by lia.
    assert (0 <= len cs) by (unfold len; lia).
    destruct (count_eps_wide k ltac:(lia)) as [HK HKe].
    pose proof (partial_sum_moderate_wide a b _ _ Ha Hab Hb HK HKe Hbounds)
      as HT.
    assert (moderate (B2R total)) as Hmt by (apply moderate_intro; lra).
    assert (moderate (B2R c)) as Hmc by (apply moderate_intro; lra).
    destruct (add_approx total c Htotal Hc Hmt Hmc) as [Hnormal [Hlo Hhi]].
    apply IH; [assumption | lia | lia |].
    rewrite plus_IZR. split.
    + apply (sum_step_lower a (IZR k) (B2R total) (B2R c)); try lra.
    + apply (sum_step_tight b (IZR k) (B2R total) (B2R c)); lra.
Qed.

Lemma spec_sum_bounds_wide (a b : R) (components : list float) :
  (1 <= a)%R -> (a <= b)%R -> (b <= 12)%R ->
  Forall (component_in a b) components ->
  1 <= len components <= 2 ^ 37 ->
  let n := IZR (len components) in
  normal (spec_sum components)
  /\ (n * a * (1 - n * eps) <= B2R (spec_sum components)
      <= n * b * (1 + n * eps))%R.
Proof.
  intros Ha Hab Hb Hall Hlen. destruct Hall as [|c cs [Hc Hcval] Hcs].
  { unfold len in Hlen. cbn in Hlen. lia. }
  unfold spec_sum. cbn [foldl]. rewrite add_zero_l by assumption.
  assert (len (c :: cs) = 1 + len cs) as ->
    by (unfold len; cbn [length]; lia).
  assert (len (c :: cs) = 1 + len cs) as Hcons
    by (unfold len; cbn [length]; lia).
  rewrite Hcons in Hlen.
  apply (sum_bounds_wide a b cs Ha Hab Hb Hcs c 1); [assumption | lia | lia |].
  assert (0 < eps < / 1048576)%R by (rewrite eps_value; lra).
  split; nra.
Qed.

Lemma scaled_real_bounds_wide (a b n v T fn p inv t1 t2 : R) :
  (1 <= a)%R -> (a <= b)%R -> (b <= 12)%R -> (11 <= v <= 12)%R ->
  (1 <= n)%R -> (n * eps <= / 32768)%R ->
  (n * a * (1 - n * eps) <= T <= n * b * (1 + n * eps))%R ->
  (n * (1 - eps) <= fn <= n * (1 + eps))%R ->
  (fn * v * (1 - eps) <= p <= fn * v * (1 + eps))%R ->
  (1 / p * (1 - eps) <= inv <= 1 / p * (1 + eps))%R ->
  (T * inv * (1 - eps) <= t1 <= T * inv * (1 + eps))%R ->
  (t1 * 10 * (1 - eps) <= t2 <= t1 * 10 * (1 + eps))%R ->
  (10 * a * (1 - / 32000) <= t2 * v <= 10 * b * (1 + / 32000))%R.
Proof.
  intros Ha Hab Hb Hv Hn Hne HT Hfn Hp Hinv Ht1 Ht2.
  assert (eps = / 4503599627370496)%R as He by apply eps_value.
  assert (0 < eps <= / 4503599627370496)%R as Heps by lra.
  set (x := (n * eps)%R) in *.
  assert (0 <= x)%R as Hx by (unfold x; nra).
  assert (0 < n * (1 - eps))%R as Hfnpos by nra.
  assert (0 < fn)%R by lra.
  assert (0 < fn * v * (1 - eps))%R by (apply Rmult_lt_0_compat; nra).
  assert (0 < p)%R as Hppos by lra.
  assert (0 < T)%R as HTpos.
  { assert (0 < n * a * (1 - x))%R by (apply Rmult_lt_0_compat; nra). lra. }
  assert (1 - eps <= inv * p <= 1 + eps)%R as Hip.
  { destruct Hinv as [Hi1 Hi2].
    apply (Rmult_le_compat_r p) in Hi1; [|lra].
    apply (Rmult_le_compat_r p) in Hi2; [|lra].
    unfold Rdiv in *. rewrite Rmult_1_l in *.
    replace (/ p * (1 - eps) * p)%R with (1 - eps)%R in Hi1 by (field; lra).
    replace (/ p * (1 + eps) * p)%R with (1 + eps)%R in Hi2 by (field; lra).
    lra. }
  assert (0 < inv)%R as Hinvpos.
  { assert (0 < 1 / p * (1 - eps))%R; [|lra].
    apply Rmult_lt_0_compat; [|lra]. apply Rdiv_lt_0_compat; lra. }
  assert (0 < t1)%R as Ht1pos.
  { assert (0 < T * inv * (1 - eps))%R; [|lra].
    apply Rmult_lt_0_compat; [|lra]. apply Rmult_lt_0_compat; lra. }
  (* t1 * p is within (1 +- eps)^2 of T *)
  assert (T * ((1 - eps) * (1 - eps)) <= t1 * p
          <= T * ((1 + eps) * (1 + eps)))%R as Ht1p.
  { assert (T * inv * (1 - eps) * p <= t1 * p)%R
      by (apply Rmult_le_compat_r; lra).
    assert (t1 * p <= T * inv * (1 + eps) * p)%R
      by (apply Rmult_le_compat_r; lra).
    assert (T * (1 - eps) * (1 - eps) <= T * (1 - eps) * (inv * p))%R
      by (apply Rmult_le_compat_l; [nra | lra]).
    assert (T * (1 + eps) * (inv * p) <= T * (1 + eps) * (1 + eps))%R
      by (apply Rmult_le_compat_l; [nra | lra]).
    split; lra. }
  (* p is within (1 +- eps)^2 of n * v *)
  assert (n * v * ((1 - eps) * (1 - eps)) <= p
          <= n * v * ((1 + eps) * (1 + eps)))%R as Hpn.
  { assert (n * (1 - eps) * (v * (1 - eps)) <= fn * (v * (1 - eps)))%R
      by (apply Rmult_le_compat_r; [nra | lra]).
    assert (fn * (v * (1 + eps)) <= n * (1 + eps) * (v * (1 + eps)))%R
      by (apply Rmult_le_compat_r; [nra | lra]).
    split; lra. }
  (* cancel n *)
  assert (a * (1 - x) * ((1 - eps) * (1 - eps))
          <= t1 * v * ((1 + eps) * (1 + eps)))%R as Hlow.
  { apply Rmult_le_reg_l with n; [lra|].
    assert (n * a * (1 - x) * ((1 - eps) * (1 - eps))
            <= T * ((1 - eps) * (1 - eps)))%R
      by (apply Rmult_le_compat_r; [nra | lra]).
    assert (t1 * p <= t1 * (n * v * ((1 + eps) * (1 + eps))))%R
      by (apply Rmult_le_compat_l; lra).
    lra. }
  assert (t1 * v * ((1 - eps) * (1 - eps))
          <= b * (1 + x) * ((1 + eps) * (1 + eps)))%R as Hhigh.
  { apply Rmult_le_reg_l with n; [lra|].
    assert (t1 * (n * v * ((1 - eps) * (1 - eps))) <= t1 * p)%R
      by (apply Rmult_le_compat_l; lra).
    assert (T * ((1 + eps) * (1 + eps))
            <= n * b * (1 + x) * ((1 + eps) * (1 + eps)))%R
      by (apply Rmult_le_compat_r; [nra | lra]).
    lra. }
  assert (0 < t1 * v)%R as Htv by (apply Rmult_lt_0_compat; lra).
  set (y := (t1 * v)%R) in *.
  assert (t1 * 10 * (1 - eps) * v <= t2 * v <= t1 * 10 * (1 + eps) * v)%R
    as Ht2v by (split; apply Rmult_le_compat_r; lra).
  replace (t1 * 10 * (1 - eps) * v)%R with (10 * (1 - eps) * y)%R in Ht2v
    by (unfold y; ring).
  replace (t1 * 10 * (1 + eps) * v)%R with (10 * (1 + eps) * y)%R in Ht2v
    by (unfold y; ring).
  clear Ht2 Ht1 Hinv Hp Hfn HT Hip Ht1p Hpn.
  assert (1 - 3 * eps <= (1 - eps) * (1 - eps) * (1 - eps))%R as Hc3 by nra.
  assert ((1 + eps) * (1 + eps) * (1 + eps) <= 1 + 4 * eps)%R as Hd3 by nra.
  assert ((1 + eps) * (1 + eps) <= 1 + 3 * eps)%R as Hd2 by nra.
  assert (1 - 2 * eps <= (1 - eps) * (1 - eps))%R as Hc2 by nra.
  split.
  - (* y * (1+eps)^2 >= a (1-x)(1-eps)^2, so y >= a (1-x)(1-2eps)/(1+3eps) *)
    assert (a * (1 - x) * (1 - 2 * eps) <= y * (1 + 3 * eps))%R as H1.
    { apply Rle_trans with (a * (1 - x) * ((1 - eps) * (1 - eps)))%R.
      - apply Rmult_le_compat_l; [nra | lra].
      - apply Rle_trans with (y * ((1 + eps) * (1 + eps)))%R; [lra|].
        apply Rmult_le_compat_l; lra. }
    assert (a * (1 - / 32500) <= y * (1 + 3 * eps))%R as H2.
    { etransitivity; [|exact H1].
      rewrite Rmult_assoc. apply Rmult_le_compat_l; [lra|]. nra. }
    assert (a * (1 - / 32000) <= y * (1 - eps))%R as H3.
    { assert (a * (1 - / 32500) * (1 - 5 * eps)
              <= y * (1 + 3 * eps) * (1 - 5 * eps))%R
        by (apply Rmult_le_compat_r; lra).
      assert (y * (1 + 3 * eps) * (1 - 5 * eps) <= y * (1 - eps))%R
        by (rewrite Rmult_assoc; apply Rmult_le_compat_l; nra).
      assert (a * (1 - / 32000) <= a * (1 - / 32500) * (1 - 5 * eps))%R
        by (rewrite Rmult_assoc; apply Rmult_le_compat_l; nra).
      lra. }
    lra.
  - assert (y * (1 - 2 * eps) <= b * (1 + x) * (1 + 3 * eps))%R as H1.
    { apply Rle_trans with (y * ((1 - eps) * (1 - eps)))%R.
      - apply Rmult_le_compat_l; lra.
      - apply Rle_trans with (b * (1 + x) * ((1 + eps) * (1 + eps)))%R;
          [lra|].
        apply Rmult_le_compat_l; [nra | lra]. }
    assert (y * (1 - 2 * eps) <= b * (1 + / 32500))%R as H2.
    { etransitivity; [exact H1|].
      rewrite Rmult_assoc. apply Rmult_le_compat_l; [lra|]. nra. }
    assert (y * (1 + eps) <= b * (1 + / 32000))%R as H3.
    { assert (y * (1 - 2 * eps) * (1 + 4 * eps)
              <= b * (1 + / 32500) * (1 + 4 * eps))%R
        by (apply Rmult_le_compat_r; lra).
      assert (y * (1 + eps) <= y * (1 - 2 * eps) * (1 + 4 * eps))%R
        by (rewrite Rmult_assoc; apply Rmult_le_compat_l; nra).
      assert (b * (1 + / 32500) * (1 + 4 * eps) <= b * (1 + / 32000))%R
        by (rewrite Rmult_assoc; apply Rmult_le_compat_l; nra).
      lra. }
    lra.
Qed.

Lemma scaled_bounds_wide (a b : R) (total fn : float) (n : Z) :
  (1 <= a)%R -> (a <= b)%R -> (b <= 12)%R -> 1 <= n <= 2 ^ 37 ->
  normal total ->
  (IZR n * a * (1 - IZR n * eps) <= B2R total
   <= IZR n * b * (1 + IZR n * eps))%R ->
  approx (IZR n) fn ->
  normal (total * (1 / (fn * root)) * 10)%float
  /\ (10 * a * (1 - / 32000)
      <= B2R (total * (1 / (fn * root)) * 10)%float * root_value
      <= 10 * b * (1 + / 32000))%R.
Proof.
  intros Ha Hab Hb Hn Htotal HT Hfn.
  destruct (count_eps_wide n Hn) as [HN HNe].
  destruct root_normal as [Hroot Hrv].
  destruct one_normal as [Hone Hov]. destruct ten_normal as [Hten Htv].
  assert (11 <= root_value <= 12)%R as Hv by (unfold root_value; lra).
  pose proof (partial_sum_moderate_wide a b _ _ Ha Hab Hb HN HNe HT) as HTrange.
  (* fn *)
  pose proof (approx_bounds _ (/ 2) 274877906944 _ Hfn) as Hfnrange.
  specialize (Hfnrange ltac:(lra) ltac:(lra) ltac:(lra)).
  (* p = fn * root *)
  destruct (mul_approx fn root) as [Hp Hpval];
    [apply Hfn | assumption | apply moderate_intro; lra
    | apply moderate_intro; lra |].
  rewrite Hrv in Hpval.
  assert (5 <= B2R (fn * root)%float <= 4398046511104)%R as Hprange.
  { assert (0 < eps < / 16)%R by (rewrite eps_value; lra).
    assert (/ 2 * 11 <= B2R fn * root_value)%R by nra.
    assert (B2R fn * root_value <= 274877906944 * 12)%R by nra.
    split; nra. }
  (* inv = 1 / p *)
  destruct (div_approx 1 (fn * root)) as [Hinv Hinvval];
    [assumption | assumption | apply moderate_intro; lra
    | apply moderate_intro; lra |].
  rewrite Hov in Hinvval.
  pose proof (inverse_bounds _ 5 4398046511104 ltac:(lra) Hprange) as Hrecip.
  assert (/ 8796093022208 <= B2R (1 / (fn * root))%float <= 1)%R as Hinvrange.
  { assert (0 < eps < / 16)%R by (rewrite eps_value; lra).
    split; nra. }
  (* t1 = total * inv *)
  destruct (mul_approx total (1 / (fn * root))) as [Ht1 Ht1val];
    [assumption | assumption | apply moderate_intro; lra
    | apply moderate_intro; lra |].
  assert (/ 35184372088832 <= B2R (total * (1 / (fn * root)))%float
          <= 8796093022208)%R as Ht1range.
  { assert (0 < eps < / 16)%R by (rewrite eps_value; lra).
    assert (/ 2 * / 8796093022208
            <= B2R total * B2R (1 / (fn * root))%float)%R
      by (apply Rmult_le_compat; lra).
    assert (B2R total * B2R (1 / (fn * root))%float <= 4398046511104 * 1)%R
      by (apply Rmult_le_compat; lra).
    split; nra. }
  (* t2 = t1 * 10 *)
  destruct (mul_approx (total * (1 / (fn * root))) 10) as [Ht2 Ht2val];
    [assumption | assumption | apply moderate_intro; lra
    | apply moderate_intro; lra |].
  rewrite Htv in Ht2val.
  split; [assumption|].
  apply (scaled_real_bounds_wide a b (IZR n) root_value (B2R total) (B2R fn)
           (B2R (fn * root)%float) (B2R (1 / (fn * root))%float)
           (B2R (total * (1 / (fn * root)))%float)); try assumption; try lra.
  apply Hfn.
Qed.

Lemma spec_score_decimal_wide (P : Z * Z -> Prop) (a b : R) (low high : Z)
    (food service : list Z) :
  (forall pair, P pair ->
     exists c, spec_component pair = Ok c /\ component_in a b c) ->
  (1 <= a)%R -> (a <= b)%R -> (b <= 12)%R -> 0 < low ->
  (IZR (2 * low - 1) / 2000 * root_value < 10 * a * (1 - / 32000))%R ->
  (10 * b * (1 + / 32000) < IZR (2 * high + 1) / 2000 * root_value)%R ->
  food <> [] -> length food = length service -> len food <= 2 ^ 37 ->
  Forall P (zip food service) ->
  exists q,
    low <= Z.pos q <= high
    /\ spec_score food service = Ok (decimal_to_float false q 3).
Proof.
  intros HP Ha Hab Hb Hlow Hbelow Habove Hne Hlen Hsize Hpairs.
  destruct (mapM_components P a b _ HP Hpairs) as (cs & Hcs & Hcslen & Hall).
  assert (len cs = len food) as Hlencs.
  { unfold len. rewrite Hcslen, length_zip_with. lia. }
  assert (1 <= len food) as Hpos.
  { destruct food; [congruence|]. unfold len. cbn [length]. lia. }
  destruct (spec_sum_bounds_wide a b cs Ha Hab Hb Hall) as [Hsum Hsumval];
    [lia|]. rewrite Hlencs in Hsumval.
  destruct (float_of_int_approx (len food)) as (fn & Hfn & Hfnval).
  { split; [lia|]. apply Z.le_lt_trans with (2 ^ 37); [lia | reflexivity]. }
  destruct (scaled_bounds_wide a b (spec_sum cs) fn (len food))
    as [Hscaled Hscaledval]; try assumption; [lia|].
  destruct root_normal as [Hroot Hrv].
  assert (11 <= root_value <= 12)%R as Hv by (unfold root_value; lra).
  destruct (py_round_range (spec_sum cs * (1 / (fn * root)) * 10)%float
              low high Hscaled Hlow) as (q & Hq & Hround).
  { set (t := B2R _) in *. split.
    - apply Rmult_lt_reg_r with root_value; [lra|]. lra.
    - apply Rmult_lt_reg_r with root_value; [lra|]. lra. }
  exists q. split; [assumption|].
  unfold spec_score. rewrite Hcs. cbn [mbind outcome_bind].
  assert (math_sqrt 125 = Ok root) as -> by (vm_compute; reflexivity).
  cbn [mbind outcome_bind]. rewrite Hfn. cbn [mbind outcome_bind].
  unfold py_truediv.
  assert (float_of_int 1 = Ok 1%float) as -> by (vm_compute; reflexivity).
  cbn [mbind outcome_bind].
  assert (is_zero (fn * root) = false) as ->.
  { apply normal_not_zero.
    apply mul_approx; [apply Hfnval | assumption | |].
    - apply moderate_intro.
      destruct (count_eps_wide (len food) ltac:(lia)) as [HN HNe].
      pose proof (approx_bounds _ (/ 2) 274877906944 _ Hfnval) as Hr.
      specialize (Hr ltac:(lra) ltac:(lra) ltac:(lra)). lra.
    - apply moderate_intro. rewrite Hrv. lra. }
  unfold py_mul_int.
  assert (float_of_int 10 = Ok 10%float) as -> by (vm_compute; reflexivity).
  cbn [mbind outcome_bind]. rewrite Hround. reflexivity.
Qed.

Lemma Forall_zip_scale (P : Z -> Prop) (food service : list Z) :
  Forall P food -> Forall P service ->
  Forall (fun pair => P pair.1 /\ P pair.2) (zip food service).
Proof.
  intros Hfood. revert service.
  induction Hfood as [|f food Hf _ IH]; intros service Hservice; [constructor|].
  destruct Hservice as [|s service Hs Hservice]; [constructor|].
  cbn [zip zip_with]. constructor; [auto | by apply IH].
Qed.

(** C7. For equal-length non-empty lists of scores from 1 to 5, of up to
    [2^37] scores each, [calculate_overall_score] returns a float between
    0.894 and 10.0 (both included); it is 0.894 when every score is 1 and
    10.0 when every score is 5. *)
Theorem calculate_overall_score_range (name : string)
    (food_scores service_scores : list Z) :
  food_scores <> [] ->
  length food_scores = length service_scores ->
  len food_scores <= 2 ^ 37 ->
  Forall in_scale food_scores -> Forall in_scale service_scores ->
  exists score,
    calculate_overall_score name food_scores service_scores
    = Ok {[ name := score ]}
    /\ (0.894 <=? score)%float = true /\ (score <=? 10)%float = true
    /\ (Forall (eq 1) food_scores -> Forall (eq 1) service_scores ->
        score = 0.894%float)
    /\ (Forall (eq 5) food_scores -> Forall (eq 5) service_scores ->
        score = 10%float).
Proof.
  intros Hne Hlen Hsize Hfood Hservice.
  rewrite calculate_overall_score_guard, final_score_spec by assumption.
  assert (11 <= root_value <= 12)%R as Hv by (unfold root_value; lra).
  assert (IZR (2 * 894 - 1) / 2000 * root_value < 10 * 1 * (1 - / 32000))%R
    as Hlow1 by (change (2 * 894 - 1) with 1787; unfold root_value; lra).
  assert (10 * 1 * (1 + / 32000) < IZR (2 * 894 + 1) / 2000 * root_value)%R
    as Hhigh1 by (change (2 * 894 + 1) with 1789; unfold root_value; lra).
  assert (IZR (2 * 10000 - 1) / 2000 * root_value
          < 10 * root_value * (1 - / 32000))%R
    as Hlow5 by (change (2 * 10000 - 1) with 19999; unfold root_value; lra).
  assert (10 * root_value * (1 + / 32000)
          < IZR (2 * 10000 + 1) / 2000 * root_value)%R
    as Hhigh5 by (change (2 * 10000 + 1) with 20001; unfold root_value; lra).
  destruct (spec_score_decimal_wide
              (fun pair => in_scale pair.1 /\ in_scale pair.2)
              1 root_value 894 10000 food_scores service_scores)
    as (q & Hq & Hscore);
    [intros [f s] [Hf Hs]; by apply component_in_scale
    | lra | lra | lra | lia | assumption.. | by apply Forall_zip_scale |].
  exists (decimal_to_float false q 3). rewrite Hscore.
  destruct (decimal_to_float_range q Hq) as [Hlow Hhigh].
  split; [reflexivity|]. split; [assumption|]. split; [assumption|].
  split.
  - intros Hones1 Hones2.
    destruct (spec_score_decimal_wide (fun pair => pair = (1, 1))
                1 1 894 894 food_scores service_scores)
      as (q' & Hq' & Hscore');
      [intros pair ->; exists 1%float; apply component_ones
      | lra | lra | lra | lia | assumption.. | |].
    { eapply Forall_impl; [apply (Forall_zip_scale (eq 1)); eassumption|].
      intros [f s] [Hf Hs]. cbn in Hf, Hs. by subst. }
    rewrite Hscore in Hscore'. injection Hscore' as ->.
    replace q' with 894%positive by lia. vm_compute. reflexivity.
  - intros Hfives1 Hfives2.
    destruct (spec_score_decimal_wide (fun pair => pair = (5, 5))
                root_value root_value 10000 10000 food_scores service_scores)
      as (q' & Hq' & Hscore');
      [intros pair ->; exists root; apply component_fives
      | lra | lra | lra | lia | assumption.. | |].
    { eapply Forall_impl; [apply (Forall_zip_scale (eq 5)); eassumption|].
      intros [f s] [Hf Hs]. cbn in Hf, Hs. by subst. }
    rewrite Hscore in Hscore'. injection Hscore' as ->.
    replace q' with 10000%positive by lia. vm_compute. reflexivity.
Qed.

Lemma calculate_overall_score_range_witness :
  exists score,
    calculate_overall_score "Bob's" [4; 5; 3] [2; 5; 1]
    = Ok {[ "Bob's" := score ]}
    /\ (0.894 <=? score)%float = true /\ (score <=? 10)%float = true
    /\ (Forall (eq 1) [4; 5; 3] -> Forall (eq 1) [2; 5; 1] ->
        score = 0.894%float)
    /\ (Forall (eq 5) [4; 5; 3] -> Forall (eq 5) [2; 5; 1] ->
        score = 10%float).
Proof.
  apply (calculate_overall_score_range "Bob's" [4; 5; 3] [2; 5; 1]).
  - discriminate.
  - reflexivity.
  - vm_compute. discriminate.
  - repeat constructor; unfold in_scale; lia.
  - repeat constructor; unfold in_scale; lia.
Defined.

(** ** Exact counting and its saturation *)

Lemma shr_1_double (m : Z) :
  0 <= m ->
  shr_1 {| shr_m := 2 * m; shr_r := false; shr_s := false |}
  = {| shr_m := m; shr_r := false; shr_s := false |}.
Proof. destruct m as [|p|p]; [reflexivity | reflexivity | lia]. Qed.

Lemma iter_shr_1_exact (n : positive) (m : Z) :
  0 <= m ->
  SpecFloat.iter_pos shr_1 n
    {| shr_m := m * 2 ^ Z.pos n; shr_r := false; shr_s := false |}
  = {| shr_m := m; shr_r := false; shr_s := false |}.
Proof.
  revert m. induction n as [n IH|n IH|]; intros m Hm; cbn [SpecFloat.iter_pos].
  - replace (m * 2 ^ Z.pos n~1) with (2 * (m * 2 ^ Z.pos n * 2 ^ Z.pos n)).
    + assert (0 < 2 ^ Z.pos n) by (apply Z.pow_pos_nonneg; lia).
      rewrite shr_1_double, IH, IH by nia. reflexivity.
    + replace (Z.pos n~1) with (1 + Z.pos n + Z.pos n) by lia.
      rewrite (Z.pow_add_r 2 (1 + Z.pos n) (Z.pos n)),
        (Z.pow_add_r 2 1 (Z.pos n)) by lia.
      change (2 ^ 1) with 2. ring.
  - replace (m * 2 ^ Z.pos n~0) with (m * 2 ^ Z.pos n * 2 ^ Z.pos n).
    + assert (0 < 2 ^ Z.pos n) by (apply Z.pow_pos_nonneg; lia).
      rewrite IH, IH by nia. reflexivity.
    + replace (Z.pos n~0) with (Z.pos n + Z.pos n) by lia.
      rewrite (Z.pow_add_r 2 (Z.pos n) (Z.pos n)) by lia. ring.
  - replace (m * 2 ^ 1) with (2 * m) by lia. by apply shr_1_double.
Qed.

(** Rounding is exact on a 53-bit mantissa followed by [j] zero bits. *)
Lemma binary_round_aux_exact (s : bool) (m big : positive) (e j : Z) :
  Zdigits2 (Z.pos m) = prec -> 0 <= j ->
  Z.pos big = Z.pos m * 2 ^ j ->
  emin <= e + j <= emax - prec ->
  binary_round_aux prec emax s (Z.pos big) e loc_Exact
  = S754_finite s m (e + j).
Proof.
  intros Hd Hj Hbig Hrange.
  pose proof (digits_shift m big j Hj Hbig) as Hdbig. rewrite Hd in Hdbig.
  unfold binary_round_aux, shr_fexp. rewrite Hdbig.
  assert (fexp prec emax (prec + j + e) = e + j) as ->
    by (unfold fexp, SpecFloat.emin, prec, emax in *; lia).
  replace (e + j - e) with j by lia.
  cbn [shr_record_of_loc].
  assert (shr {| shr_m := Z.pos big; shr_r := false; shr_s := false |} e j
          = ({| shr_m := Z.pos m; shr_r := false; shr_s := false |}, e + j))
    as ->.
  { unfold shr. destruct j as [|n|n]; [| |lia].
    - rewrite Z.add_0_r. do 2 f_equal. rewrite Hbig. lia.
    - rewrite Hbig, iter_shr_1_exact by lia. reflexivity. }
  cbn [shr_m loc_of_shr_record round_nearest_even]. rewrite Hd.
  assert (fexp prec emax (prec + (e + j)) = e + j) as ->
    by (unfold fexp, SpecFloat.emin, prec, emax in *; lia).
  rewrite Z.sub_diag. cbn [shr_record_of_loc shr shr_m].
  replace (e + j <=? emax - prec) with true
    by (symmetry; apply Z.leb_le; lia).
  reflexivity.
Qed.

(** Every integer from 1 to [2^53] is a float. *)
Lemma counts_exists (k : Z) :
  1 <= k <= 2 ^ 53 ->
  exists (m : positive) (j : Z),
    Zdigits2 (Z.pos m) = prec /\ 0 <= j <= 53
    /\ k * 2 ^ 52 = Z.pos m * 2 ^ j.
Proof.
  intros Hk. destruct (Z.eq_dec k (2 ^ 53)) as [->|Hne].
  - exists (4503599627370496)%positive, 53. repeat split; try lia.
  - destruct k as [|p|p]; try lia.
    pose proof (Zdigits2_range p 53 ltac:(lia)) as Hd.
    set (d := Zdigits2 (Z.pos p)) in *.
    assert (0 < 2 ^ (53 - d)) as Hpow by (apply Z.pow_pos_nonneg; lia).
    assert (exists m, Z.pos m = Z.pos p * 2 ^ (53 - d)) as [m Hm].
    { exists (Z.to_pos (Z.pos p * 2 ^ (53 - d))). rewrite Z2Pos.id; lia. }
    exists m, (d - 1). split; [|split; [lia|]].
    + rewrite (digits_shift p m (53 - d)) by (assumption || lia).
      fold d. unfold prec. lia.
    + rewrite Hm, <- Z.mul_assoc, <- Z.pow_add_r by lia.
      do 2 f_equal. lia.
Qed.

Lemma counts_one : counts 1 1%float.
Proof.
  exists 4503599627370496%positive, 0.
  repeat split; try lia; vm_compute; reflexivity.
Qed.

(** Adding 1.0 to the float of [k] gives the float of [k + 1], up to
    [2^53]. *)
Lemma counts_succ (k : Z) (x : float) :
  1 <= k < 2 ^ 53 -> counts k x -> counts (k + 1) (x + 1)%float.
Proof.
  intros Hk (m & j & Hx & Hd & Hj & Hval).
  destruct (counts_exists (k + 1) ltac:(lia)) as (m' & j' & Hd' & Hj' & Hval').
  exists m', j'. split; [|auto].
  rewrite add_spec, Hx.
  assert (Prim2SF 1 = S754_finite false 4503599627370496 (-52)) as ->
    by (vm_compute; reflexivity).
  unfold SF64add, SFadd. cbv zeta.
  rewrite Z.min_r by lia.
  destruct (shl_align_down m (j - 52) (-52)) as (mk & -> & Hmk); [lia|].
  rewrite shl_align_up by lia. cbn [fst cond_Zopp].
  change (Z.pos mk + 4503599627370496) with (Z.pos (mk + 4503599627370496)).
  cbn [binary_normalize]. unfold binary_round.
  assert (Z.pos (mk + 4503599627370496) = Z.pos m' * 2 ^ j') as Hsum.
  { rewrite Pos2Z.inj_add, Hmk. replace (j - 52 - -52) with j by lia.
    rewrite <- Hval, <- Hval'. change 4503599627370496 with (2 ^ 52). ring. }
  pose proof (digits_shift m' _ j' ltac:(lia) Hsum) as Hdsum.
  change (Z.pos (digits2_pos (mk + 4503599627370496)))
    with (Zdigits2 (Z.pos (mk + 4503599627370496))).
  rewrite Hdsum, Hd'.
  rewrite shl_align_up
    by (unfold fexp, SpecFloat.emin, prec, emax in *; lia).
  rewrite (binary_round_aux_exact false m' _ (-52) j' Hd' ltac:(lia) Hsum)
    by (unfold SpecFloat.emin, prec, emax; lia).
  f_equal. lia.
Qed.

(** From [2^53] on, adding 1.0 changes nothing. *)
Lemma counts_top (x : float) :
  counts (2 ^ 53) x -> x = 9007199254740992%float.
Proof.
  intros (m & j & Hx & Hd & Hj & Hval).
  pose proof (Zdigits2_bounds m) as Hm. rewrite Hd in Hm.
  change (2 ^ prec) with (2 * 2 ^ 52) in Hm.
  change (2 ^ (prec - 1)) with (2 ^ 52) in Hm.
  assert (0 < 2 ^ 52) as H52 by reflexivity.
  assert (j = 53) as ->.
  { destruct (Z.eq_dec j 53) as [|Hne]; [assumption|].
    assert (2 ^ 53 = 2 ^ (53 - j) * 2 ^ j) as Hsplit
      by (rewrite <- Z.pow_add_r by lia; f_equal; lia).
    assert (0 < 2 ^ j) by (apply Z.pow_pos_nonneg; lia).
    assert (2 ^ 1 <= 2 ^ (53 - j)) as Hbig by (apply Z.pow_le_mono_r; lia).
    change (2 ^ 1) with 2 in Hbig.
    rewrite Hsplit in Hval.
    set (P := 2 ^ (53 - j)) in *. set (Q := 2 ^ j) in *.
    set (B := 2 ^ 52) in *.
    assert (P * B = Z.pos m) by nia. nia. }
  assert (Z.pos m = 2 ^ 52) as Hm52.
  { set (B := 2 ^ 52) in *. set (Q := 2 ^ 53) in *.
    assert (0 < Q) by reflexivity. nia. }
  apply Prim2SF_inj. rewrite Hx.
  replace m with 4503599627370496%positive by lia.
  vm_compute. reflexivity.
Qed.

Lemma foldl_counts (j : nat) :
  forall (k : Z) (x : float),
    1 <= k -> k + Z.of_nat j <= 2 ^ 53 -> counts k x ->
    counts (k + Z.of_nat j) (foldl PrimFloat.add x (replicate j 1%float)).
Proof.
  induction j as [|j IH]; intros k x Hk Hj Hx.
  - cbn [replicate foldl]. by rewrite Z.add_0_r.
  - cbn [replicate foldl].
    replace (k + Z.of_nat (S j)) with ((k + 1) + Z.of_nat j) by lia.
    apply IH; [lia | lia |]. apply counts_succ; [lia | assumption].
Qed.

Lemma foldl_saturated (j : nat) :
  foldl PrimFloat.add 9007199254740992%float (replicate j 1%float)
  = 9007199254740992%float.
Proof.
  induction j as [|j IH]; [reflexivity|].
  cbn [replicate foldl].
  change (9007199254740992 + 1)%float with 9007199254740992%float.
  exact IH.
Qed.

Lemma foldl_ones_saturate (c r : nat) :
  Z.of_nat c = 2 ^ 53 - 1 ->
  foldl PrimFloat.add 0%float (replicate (S (c + r)) 1%float)
  = 9007199254740992%float.
Proof.
  intros Hc. cbn [replicate foldl].
  rewrite replicate_add, foldl_app.
  change (0 + 1)%float with 1%float.
  rewrite (counts_top (foldl PrimFloat.add 1%float (replicate c 1%float))).
  - apply foldl_saturated.
  - pose proof (foldl_counts c 1 1%float ltac:(lia) ltac:(lia) counts_one) as H.
    replace (1 + Z.of_nat c) with (2 ^ 53) in H by lia. exact H.
Qed.

(** The sum of [n] components 1.0 stops at [2^53]. *)
Lemma spec_sum_saturates (n : nat) :
  2 ^ 53 <= Z.of_nat n ->
  spec_sum (replicate n 1%float) = 9007199254740992%float.
Proof.
  intros Hn. unfold spec_sum.
  assert (exists c r : nat, Z.of_nat c = 2 ^ 53 - 1 /\ n = S (c + r))
    as (c & r & Hc & ->).
  { exists (Z.to_nat (2 ^ 53 - 1)), (n - 1 - Z.to_nat (2 ^ 53 - 1))%nat.
    split; [rewrite Z2Nat.id; lia | lia]. }
  by apply foldl_ones_saturate.
Qed.

Lemma mapM_ones (n : nat) :
  mapM spec_component (zip (replicate n 1) (replicate n 1))
  = Ok (replicate n 1%float).
Proof.
  induction n as [|n IH]; [reflexivity|].
  cbn [replicate zip zip_with mapM].
  assert (spec_component (1, 1) = Ok 1%float) as -> by (vm_compute; reflexivity).
  cbn [mbind outcome_bind]. rewrite IH. reflexivity.
Qed.

Lemma spec_score_saturates (n : nat) :
  2 ^ 53 <= Z.of_nat n ->
  spec_score (replicate n 1) (replicate n 1)
  = (fn ← float_of_int (Z.of_nat n);
     inverse ← py_truediv 1 (fn * root)%float;
     scaled ← py_mul_int (9007199254740992 * inverse)%float 10;
     Ok (py_round scaled 3)).
Proof.
  intros Hn. unfold spec_score.
  rewrite mapM_ones. cbn [mbind outcome_bind].
  assert (math_sqrt 125 = Ok root) as -> by (vm_compute; reflexivity).
  cbn [mbind outcome_bind].
  rewrite spec_sum_saturates by assumption.
  unfold len. rewrite length_replicate. reflexivity.
Qed.

(** Some bound on the length is needed: a float counts no further than
    [2^53], so with [2^54] pairs (1, 1), more than any machine holds, the sum
    stays at [2^53] and the score is 0.447. *)
Lemma calculate_overall_score_saturates :
  calculate_overall_score "Bob's" (replicate beyond_counting 1)
    (replicate beyond_counting 1)
  = Ok {[ "Bob's" := 0.447%float ]}
  /\ (0.894 <=? 0.447)%float = false.
Proof.
  split; [|reflexivity].
  assert (Z.of_nat beyond_counting = 2 ^ 54) as Hsize
    by (unfold beyond_counting; rewrite Z2Nat.id; lia).
  rewrite calculate_overall_score_guard, final_score_spec.
  - rewrite spec_score_saturates by lia. rewrite Hsize.
    vm_compute. reflexivity.
  - by rewrite !length_replicate.
  - intros Hnil. apply (f_equal length) in Hnil.
    rewrite length_replicate in Hnil. cbn [length] in Hnil. lia.
  - by rewrite !length_replicate.
Qed.

(** ** Strings *)

Lemma append_cons (c : ascii) (s t : string) :
  String c s +:+ t = String c (s +:+ t).
Proof. reflexivity. Qed.

Lemma append_empty (t : string) : EmptyString +:+ t = t.
Proof. reflexivity. Qed.

Lemma append_assoc (s t u : string) : (s +:+ t) +:+ u = s +:+ t +:+ u.
Proof.
  induction s as [|c s IH]; [reflexivity|].
  rewrite !append_cons, IH. reflexivity.
Qed.

Lemma startswith_spec (s prefix : string) :
  startswith s prefix = true <-> exists rest, s = prefix +:+ rest.
Proof.
  revert s. induction prefix as [|p prefix IH]; intros s; cbn [startswith].
  - split; [intros _; exists s; reflexivity | reflexivity].
  - destruct s as [|c s].
    + split; [discriminate | intros [rest Hrest]; discriminate].
    + rewrite andb_true_iff, bool_decide_eq_true, IH. split.
      * intros [-> [rest ->]]. exists rest. reflexivity.
      * intros [rest Hrest]. rewrite append_cons in Hrest.
        injection Hrest as -> ->. split; [reflexivity | exists rest; reflexivity].
Qed.

Lemma str_partition_spec (sep : ascii) (s before after : string) :
  str_partition sep s = Some (before, after)
  <-> s = before +:+ String sep after /\ str_partition sep before = None.
Proof.
  revert before. induction s as [|c s IH]; intros before; cbn [str_partition].
  - split; [discriminate|]. intros [H _]. destruct before; discriminate.
  - case_bool_decide as Hc.
    + subst c. split.
      * intros [= <- <-]. split; reflexivity.
      * intros [H Hnone]. destruct before as [|b before].
        -- rewrite append_empty in H. congruence.
        -- rewrite append_cons in H. injection H as <- _.
           cbn [str_partition] in Hnone.
           rewrite bool_decide_eq_true_2 in Hnone by reflexivity. discriminate.
    + split.
      * remember (str_partition sep s) as found eqn:Hp in |- *.
        symmetry in Hp. destruct found as [[b a]|]; [|discriminate].
        cbn. intros [= <- <-].
        apply IH in Hp as [-> Hnone]. split; [reflexivity|].
        cbn [str_partition]. rewrite bool_decide_eq_false_2 by assumption.
        rewrite Hnone. reflexivity.
      * intros [H Hnone]. destruct before as [|b before].
        -- rewrite append_empty in H. congruence.
        -- rewrite append_cons in H. injection H as -> ->.
           cbn [str_partition] in Hnone.
           rewrite bool_decide_eq_false_2 in Hnone by assumption.
           destruct (str_partition sep before) as [[? ?]|] eqn:Hb; [discriminate|].
           assert (str_partition sep (before +:+ String sep after)
                   = Some (before, after)) as -> by (apply IH; auto).
           reflexivity.
Qed.

Lemma str_partition_found (sep : ascii) (x y : string) :
  exists before after, str_partition sep (x +:+ String sep y) = Some (before, after).
Proof.
  induction x as [|c x IH].
  - rewrite append_empty. cbn [str_partition].
    rewrite bool_decide_eq_true_2 by reflexivity. eauto.
  - rewrite append_cons. cbn [str_partition].
    case_bool_decide; [eauto|].
    destruct IH as (b & a & ->). cbn. eauto.
Qed.

(** ** The corpus reader *)

Lemma attributed_startswith (entity_name line : string) :
  startswith line (entity_name +:+ ".") = true <-> attributed entity_name line.
Proof.
  rewrite startswith_spec. unfold attributed.
  split; intros [rest ->]; exists rest.
  - apply append_assoc.
  - symmetry. apply append_assoc.
Qed.

Lemma attributed_review (entity_name line : string) :
  attributed entity_name line ->
  exists text, after_first_period line text
               /\ py_getitem (py_split1 "." line) 1 = Ok text.
Proof.
  intros [rest ->].
  destruct (str_partition_found "." entity_name rest) as (before & text & Hp).
  exists text. unfold after_first_period, py_split1.
  change ("." +:+ rest) with (String "." rest).
  rewrite Hp. apply str_partition_spec in Hp as [Heq Hnone].
  split; [exists before; split; assumption | reflexivity].
Qed.

Lemma after_first_period_unique (line text text' : string) :
  after_first_period line text -> after_first_period line text' -> text = text'.
Proof.
  intros (b & Hb & Hnone) (b' & Hb' & Hnone').
  assert (str_partition "." line = Some (b, text)) as H
    by (apply str_partition_spec; auto).
  assert (str_partition "." line = Some (b', text')) as H'
    by (apply str_partition_spec; auto).
  congruence.
Qed.

Lemma fetch_loop_attribution (entity_name : string) (lines reviews : list string) :
  exists found,
    fetch_loop entity_name lines reviews = Ok (reviews ++ found)
    /\ attribution entity_name lines found.
Proof.
  revert reviews. induction lines as [|line lines IH]; intros reviews.
  - exists []. cbn. rewrite app_nil_r. split; [reflexivity | constructor].
  - cbn [fetch_loop].
    destruct (startswith (strip line) (entity_name +:+ ".")) eqn:Hstart.
    + apply attributed_startswith in Hstart.
      destruct (attributed_review _ _ Hstart) as (text & Hafter & ->).
      cbn [fmap outcome_fmap mbind outcome_bind].
      destruct (IH (reviews ++ [strip text])) as (found & -> & Hfound).
      exists (strip text :: found). rewrite <- app_assoc.
      split; [reflexivity | by constructor].
    + destruct (IH reviews) as (found & -> & Hfound).
      exists found. split; [reflexivity|].
      apply attribution_skip; [|assumption].
      rewrite <- attributed_startswith, Hstart. discriminate.
Qed.

Lemma attribution_unique (entity_name : string) (lines r1 r2 : list string) :
  attribution entity_name lines r1 -> attribution entity_name lines r2 -> r1 = r2.
Proof.
  intros H1. revert r2.
  induction H1 as [|line lines text reviews Hattr Hafter _ IH
                   |line lines reviews Hnot _ IH]; intros r2 H2.
  - inversion H2. reflexivity.
  - inversion H2 as [|? ? text' reviews' _ Hafter' Hrest|? ? ? Hnot' _]; subst.
    + rewrite (after_first_period_unique _ _ _ Hafter Hafter').
      f_equal. by apply IH.
    + contradiction.
  - inversion H2 as [|? ? ? ? Hattr' _ _|? ? ? _ Hrest]; subst.
    + contradiction.
    + by apply IH.
Qed.

Lemma attribution_none (entity_name : string) (lines : list string) :
  Forall (fun line => ~ attributed entity_name (strip line)) lines ->
  attribution entity_name lines [].
Proof.
  induction 1; constructor; assumption.
Qed.

Lemma fetch_restaurant_data_text (contents entity_name : string) :
  exists reviews,
    fetch_restaurant_data (Text contents) entity_name
    = Ok {[ entity_name := reviews ]}
    /\ attribution entity_name (text_lines contents) reviews.
Proof.
  unfold fetch_restaurant_data. cbn [readlines].
  destruct (fetch_loop_attribution entity_name (text_lines contents) [])
    as (found & -> & Hfound).
  exists found. split; [reflexivity | assumption].
Qed.

(** C3. On a readable corpus [fetch_restaurant_data] keeps exactly the lines
    whose trimmed text starts with the entity name followed by a period,
    compared character by character, and gives for each the trimmed text
    after the first period of the line, in file order. On the corpus
    "Bob's. Great fries." / "Bobby's. Bad service." the query "Bob's" gets
    only "Great fries.", and the query "bob's" gets nothing. *)
Theorem fetch_restaurant_data_attribution (contents entity_name : string) :
  (exists reviews,
     fetch_restaurant_data (Text contents) entity_name
     = Ok {[ entity_name := reviews ]}
     /\ attribution entity_name (text_lines contents) reviews)
  /\ fetch_restaurant_data (Text example_corpus) "Bob's"
     = Ok {[ "Bob's" := ["Great fries."] ]}
  /\ fetch_restaurant_data (Text example_corpus) "bob's"
     = Ok {[ "bob's" := [] ]}.
Proof.
  split; [apply fetch_restaurant_data_text|].
  split; vm_compute; reflexivity.
Qed.

(** C8. When the corpus file is absent, or is readable and none of its
    trimmed lines starts with the entity name followed by a period,
    [fetch_restaurant_data] returns the mapping of the entity name to the
    empty list and raises nothing. *)
Theorem fetch_restaurant_data_empty (file : corpus) (entity_name : string) :
  file = Missing
  \/ (exists contents,
        file = Text contents
        /\ Forall (fun line => ~ attributed entity_name (strip line))
                  (text_lines contents)) ->
  fetch_restaurant_data file entity_name = Ok {[ entity_name := [] ]}.
Proof.
  intros [->|(contents & -> & Hnone)]; [reflexivity|].
  destruct (fetch_restaurant_data_text contents entity_name)
    as (reviews & -> & Hreviews).
  rewrite (attribution_unique _ _ _ _ Hreviews (attribution_none _ _ Hnone)).
  reflexivity.
Qed.

Lemma fetch_restaurant_data_empty_witness :
  fetch_restaurant_data (Text example_corpus) "Unknown"
  = Ok {[ "Unknown" := [] ]}.
Proof.
  apply (fetch_restaurant_data_empty (Text example_corpus) "Unknown").
  right. exists example_corpus. split; [reflexivity|].
  repeat constructor; rewrite <- attributed_startswith; vm_compute; discriminate.
Defined.

(** C10. Whatever the corpus holds and whatever name is queried, a
    dictionary returned by [fetch_restaurant_data] has exactly one key, the
    queried name; the call returns one unless the file exists and cannot be
    read. *)
Theorem fetch_restaurant_data_single_key (file : corpus) (restaurant_name : string) :
  match fetch_restaurant_data file restaurant_name with
  | Ok reviews_by_name =>
      dom reviews_by_name = {[ restaurant_name ]}
      /\ size reviews_by_name = 1%nat
      /\ is_Some (reviews_by_name !! restaurant_name)
  | Raise e => file = Unreadable e /\ e <> FileNotFoundError
  end.
Proof.
  destruct file as [|e|contents].
  - cbn. rewrite dom_singleton_L, map_size_singleton, lookup_singleton_eq. eauto.
  - destruct e; cbn; try (split; [reflexivity | discriminate]).
    rewrite dom_singleton_L, map_size_singleton, lookup_singleton_eq. eauto.
  - destruct (fetch_restaurant_data_text contents restaurant_name)
      as (reviews & -> & _).
    rewrite dom_singleton_L, map_size_singleton, lookup_singleton_eq. eauto.
Qed.

(** ** The matcher *)

Lemma greedy_star_continues {R} (p : ascii -> bool) (s : string)
    (k : string -> option R) :
  is_Some (k s) -> is_Some (greedy_star p s k).
Proof.
  intros Hk. destruct s as [|c s]; cbn [greedy_star]; [assumption|].
  destruct (p c); [|assumption].
  destruct (greedy_star p s k); [eauto | assumption].
Qed.

(** The matcher finds a match whenever the text starts with one. *)
Lemma regex_match_complete {R} (ignorecase : bool) (r : regex)
    (part : string) (found : list string) :
  matches ignorecase r part found ->
  forall (rest : string) (groups : list string)
         (k : string -> list string -> option R),
    (forall groups', is_Some (k rest groups')) ->
    is_Some (regex_match ignorecase r (part +:+ rest) groups k).
Proof.
  induction 1 as [a c Ha | r1 r2 s1 s2 g1 g2 _ IH1 _ IH2
                  | r1 r2 s g _ IH | r1 r2 s g _ IH
                  | a c Ha | a c s Ha Hs IH | a | n a c s Ha _ IH | r s g _ IH];
    intros rest groups k Hk.
  - rewrite append_cons, append_empty. cbn [regex_match]. rewrite Ha. apply Hk.
  - rewrite append_assoc. cbn [regex_match].
    apply IH1. intros groups'. apply IH2, Hk.
  - cbn [regex_match].
    destruct (regex_match ignorecase r1 (s +:+ rest) groups k) eqn:H1; [eauto|].
    specialize (IH rest groups k Hk). rewrite H1 in IH. destruct IH; discriminate.
  - cbn [regex_match].
    destruct (regex_match ignorecase r1 (s +:+ rest) groups k); [eauto|].
    apply IH, Hk.
  - rewrite append_cons, append_empty. cbn [regex_match]. rewrite Ha.
    apply greedy_star_continues, Hk.
  - rewrite append_cons. cbn [regex_match]. rewrite Ha.
    specialize (IH rest groups k Hk).
    destruct s as [|d s]; [inversion Hs|].
    rewrite append_cons in IH |- *. cbn [regex_match] in IH. cbn [greedy_star].
    destruct (atom_matches ignorecase a d); [|destruct IH; discriminate].
    destruct (greedy_star (atom_matches ignorecase a) (s +:+ rest)
                (fun s'' => k s'' groups)); [eauto|].
    destruct IH; discriminate.
  - rewrite append_empty. cbn. apply Hk.
  - rewrite append_cons. cbn [regex_match exactly]. rewrite Ha.
    apply (IH rest groups k Hk).
  - cbn [regex_match]. apply IH. intros groups'. apply Hk.
Qed.

Lemma greedy_star_sound {R} (ignorecase : bool) (a : atom) (s : string)
    (k : string -> option R) (x : R) :
  greedy_star (atom_matches ignorecase a) s k = Some x ->
  forall c, atom_matches ignorecase a c = true ->
    exists run rest,
      s = run +:+ rest
      /\ matches ignorecase (Plus a) (String c run) []
      /\ k rest = Some x.
Proof.
  induction s as [|d s IH]; cbn [greedy_star]; intros Hx c Hc.
  - exists EmptyString, EmptyString. eauto using matches.
  - destruct (atom_matches ignorecase a d) eqn:Hd.
    + destruct (greedy_star (atom_matches ignorecase a) s k) as [y|] eqn:Hy.
      * injection Hx as ->.
        destruct (IH eq_refl d Hd) as (run & rest & -> & Hrun & Hrest).
        exists (String d run), rest. eauto using matches.
      * exists EmptyString, (String d s). eauto using matches.
    + exists EmptyString, (String d s). eauto using matches.
Qed.

Lemma exactly_sound {R} (ignorecase : bool) (a : atom) (n : nat) (s : string)
    (k : string -> option R) (x : R) :
  exactly n (atom_matches ignorecase a) s k = Some x ->
  exists run rest,
    s = run +:+ rest /\ matches ignorecase (Times n a) run [] /\ k rest = Some x.
Proof.
  revert s. induction n as [|n IH]; intros s; cbn [exactly].
  - intros Hx. exists EmptyString, s. eauto using matches.
  - destruct s as [|c s]; [discriminate|].
    destruct (atom_matches ignorecase a c) eqn:Hc; [|discriminate].
    intros (run & rest & -> & Hrun & Hrest)%IH.
    exists (String c run), rest. eauto using matches.
Qed.

Lemma length_append (s t : string) :
  String.length (s +:+ t) = (String.length s + String.length t)%nat.
Proof.
  induction s as [|c s IH]; [reflexivity|].
  rewrite append_cons. cbn [String.length]. by rewrite IH.
Qed.

Lemma consumed_append (part rest : string) :
  consumed (part +:+ rest) rest = part.
Proof.
  unfold consumed. rewrite length_append.
  replace (String.length part + String.length rest - String.length rest)%nat
    with (String.length part) by lia.
  induction part as [|c part IH]; [by destruct rest|].
  rewrite append_cons. cbn [String.length substring]. by rewrite IH.
Qed.

(** What the matcher finds is in the language of the pattern, with the
    groups it hands to its continuation. *)
Lemma regex_match_sound {R} (ignorecase : bool) (r : regex) :
  forall (s : string) (groups : list string)
         (k : string -> list string -> option R) (x : R),
    regex_match ignorecase r s groups k = Some x ->
    exists part rest found,
      s = part +:+ rest
      /\ matches ignorecase r part found
      /\ k rest (groups ++ found) = Some x.
Proof.
  induction r as [a | r1 IH1 r2 IH2 | r1 IH1 r2 IH2 | a | n a | r1 IH1];
    cbn [regex_match]; intros s groups k x Hx.
  - destruct s as [|c s]; [discriminate|].
    destruct (atom_matches ignorecase a c) eqn:Hc; [|discriminate].
    exists (String c EmptyString), s, []. rewrite app_nil_r.
    eauto using matches.
  - apply IH1 in Hx as (p1 & rest1 & f1 & -> & Hp1 & Hx).
    apply IH2 in Hx as (p2 & rest2 & f2 & -> & Hp2 & Hx).
    exists (p1 +:+ p2), rest2, (f1 ++ f2).
    rewrite append_assoc, app_assoc. eauto using matches.
  - destruct (regex_match ignorecase r1 s groups k) as [y|] eqn:Hy.
    + injection Hx as ->.
      apply IH1 in Hy as (p & rest & f & -> & Hp & Hy).
      exists p, rest, f. eauto using matches.
    + apply IH2 in Hx as (p & rest & f & -> & Hp & Hx).
      exists p, rest, f. eauto using matches.
  - destruct s as [|c s]; [discriminate|].
    destruct (atom_matches ignorecase a c) eqn:Hc; [|discriminate].
    destruct (greedy_star_sound _ _ _ _ _ Hx c Hc) as (run & rest & -> & Hrun & Hk).
    exists (String c run), rest, []. rewrite app_nil_r. eauto.
  - apply exactly_sound in Hx as (run & rest & -> & Hrun & Hk).
    exists run, rest, []. rewrite app_nil_r. eauto.
  - apply IH1 in Hx as (p & rest & f & -> & Hp & Hx).
    rewrite consumed_append, <- app_assoc in Hx.
    exists p, rest, (f ++ [p]). eauto using matches.
Qed.

Lemma re_search_unfold (ignorecase : bool) (r : regex) (s : string) :
  re_search ignorecase r s
  = match regex_match ignorecase r s [] (fun _ groups => Some groups) with
    | Some groups => Some groups
    | None =>
        match s with
        | String _ s' => re_search ignorecase r s'
        | EmptyString => None
        end
    end.
Proof. destruct s; reflexivity. Qed.

Lemma re_search_complete (ignorecase : bool) (r : regex) (s : string) :
  contains ignorecase r s -> is_Some (re_search ignorecase r s).
Proof.
  intros (before & part & after & found & -> & Hpart).
  induction before as [|c before IH]; rewrite re_search_unfold.
  - rewrite append_empty.
    destruct (regex_match_complete ignorecase r part found Hpart after []
                (fun _ groups => Some groups)) as [groups ->]; eauto.
  - rewrite append_cons.
    destruct (regex_match _ _ _ _ _); [eauto | exact IH].
Qed.

Lemma re_search_sound (ignorecase : bool) (r : regex) (s : string)
    (groups : list string) :
  re_search ignorecase r s = Some groups ->
  exists before part after,
    s = before +:+ part +:+ after /\ matches ignorecase r part groups.
Proof.
  induction s as [|c s IH]; rewrite re_search_unfold;
    destruct (regex_match _ _ _ _ _) as [found|] eqn:Hfound; try discriminate.
  - intros [= <-].
    apply regex_match_sound in Hfound as (p & rest & f & -> & Hp & [= <-]).
    exists EmptyString, p, rest. eauto.
  - intros [= <-].
    apply regex_match_sound in Hfound as (p & rest & f & Hs & Hp & [= <-]).
    exists EmptyString, p, rest. eauto.
  - intros (before & part & after & -> & Hpart)%IH.
    exists (String c before), part, after. eauto.
Qed.

Lemma re_search_contains (ignorecase : bool) (r : regex) (s : string) :
  is_Some (re_search ignorecase r s) <-> contains ignorecase r s.
Proof.
  split; [|apply re_search_complete].
  intros [groups (before & part & after & Hs & Hpart)%re_search_sound].
  exists before, part, after, groups. auto.
Qed.

Lemma matches_groupless (ignorecase : bool) (r : regex) (s : string)
    (groups : list string) :
  matches ignorecase r s groups -> groupless r = true -> groups = [].
Proof.
  induction 1 as [| ? ? ? ? ? ? _ IH1 _ IH2 | ? ? ? ? _ IH | ? ? ? ? _ IH
                  | | | | |]; cbn [groupless]; try reflexivity.
  - intros [H1 H2]%andb_true_iff. by rewrite IH1, IH2.
  - intros [H1 H2]%andb_true_iff. auto.
  - intros [H1 H2]%andb_true_iff. auto.
  - discriminate.
Qed.

Lemma score_pattern_groups (part : string) (groups : list string) :
  matches false score_pattern part groups -> groups = [part].
Proof.
  unfold score_pattern. inversion 1 as [| | | | | | | |r s inner Hinner]; subst.
  apply matches_groupless in Hinner as ->; reflexivity.
Qed.

Lemma restaurant_pattern_groups (part : string) (groups : list string) :
  matches true restaurant_pattern part groups ->
  exists raw, groups = [raw] /\ matches true (Plus (NotChar "?")) raw [].
Proof.
  unfold restaurant_pattern. intros H.
  inversion H as [|? ? ? ? g1 g234 Hprep H234| | | | | | |]; subst; clear H.
  inversion H234 as [|? ? ? ? g2 g34 Hspace H34| | | | | | |]; subst; clear H234.
  inversion H34 as [|? ? ? ? g3 g4 Hgroup Hmark| | | | | | |]; subst; clear H34.
  inversion Hgroup as [| | | | | | | |? ? inner Hraw]; subst; clear Hgroup.
  apply matches_groupless in Hprep as ->; [|reflexivity].
  apply matches_groupless in Hspace as ->; [|reflexivity].
  apply matches_groupless in Hmark as ->; [|reflexivity].
  pose proof (matches_groupless _ _ _ _ Hraw eq_refl) as ->.
  eexists. split; [reflexivity | eassumption].
Qed.

(** ** The report printed by [main] *)

Lemma py_getitem_last {A} (init : list A) (x : A) :
  py_getitem (init ++ [x]) (-1) = Ok x.
Proof.
  unfold py_getitem. cbv zeta.
  change (-1 <? 0) with true. cbv iota.
  assert (len (init ++ [x]) = len init + 1) as ->
    by (unfold len; rewrite length_app; cbn [length]; lia).
  assert ((-1 + (len init + 1) <? 0) = false) as ->
    by (apply Z.ltb_ge; unfold len; lia).
  assert ((len init + 1 <=? -1 + (len init + 1)) = false) as ->
    by (apply Z.leb_gt; lia).
  cbn [orb].
  replace (Z.to_nat (-1 + (len init + 1))) with (length init)
    by (unfold len; lia).
  rewrite list_lookup_middle by reflexivity. reflexivity.
Qed.

Lemma report_nonempty (earlier : list ChatResult) (final : ChatResult)
    (query : string) :
  report (earlier ++ [final]) query
  = match chat_history final with
    | Some ((_ :: _) as history) =>
        last_message ← content <$> py_getitem history (-1);
        match last_message with
        | Some last_message =>
            match re_search false score_pattern last_message,
                  re_search true restaurant_pattern query with
            | Some score_groups, Some restaurant_groups =>
                score ← group score_groups 1;
                restaurant ← strip <$> group restaurant_groups 1;
                Ok [canonical_sentence restaurant score]
            | _, _ => Ok [last_message]
            end
        | None => Raise TypeError
        end
    | _ => Ok [could_not_process]
    end.
Proof.
  unfold report.
  rewrite bool_decide_eq_true_2 by (intros H; by apply app_eq_nil in H as [_ ?]).
  assert ((0 <? len (earlier ++ [final])) = true) as ->
    by (apply Z.ltb_lt; unfold len; rewrite length_app; cbn [length]; lia).
  cbn [andb]. rewrite py_getitem_last. reflexivity.
Qed.

Lemma report_last_message (earlier : list ChatResult) (final : ChatResult)
    (history : list chat_message) (last : chat_message) (query : string) :
  chat_history final = Some (history ++ [last]) ->
  report (earlier ++ [final]) query
  = match content last with
    | Some text =>
        match re_search false score_pattern text,
              re_search true restaurant_pattern query with
        | Some score_groups, Some restaurant_groups =>
            score ← group score_groups 1;
            restaurant ← strip <$> group restaurant_groups 1;
            Ok [canonical_sentence restaurant score]
        | _, _ => Ok [text]
        end
    | None => Raise TypeError
    end.
Proof.
  intros Hhistory. rewrite report_nonempty, Hhistory.
  pose proof (py_getitem_last history last) as Hlast.
  destruct (history ++ [last]) as [|m ms] eqn:Heq.
  - by apply app_eq_nil in Heq as [_ ?].
  - cbv beta iota. rewrite Hlast. reflexivity.
Qed.

(** The last message is a [str]. *)
Lemma report_text (earlier : list ChatResult) (final : ChatResult)
    (history : list chat_message) (last : chat_message) (text query : string) :
  chat_history final = Some (history ++ [last]) ->
  content last = Some text ->
  report (earlier ++ [final]) query
  = match re_search false score_pattern text,
          re_search true restaurant_pattern query with
    | Some score_groups, Some restaurant_groups =>
        score ← group score_groups 1;
        restaurant ← strip <$> group restaurant_groups 1;
        Ok [canonical_sentence restaurant score]
    | _, _ => Ok [text]
    end.
Proof.
  intros Hhistory Htext.
  by rewrite (report_last_message _ _ _ _ _ Hhistory), Htext.
Qed.

(** C5, as the code has it. When the last message of the final transcript is
    a string in which [\d+\.\d{3}] finds a number, and [(?:do|da) ([^?]+)\?]
    finds a name in the query, what is printed is the sentence
    [A avaliação média do <name> é <number>.] with the number found and the
    name stripped; the question of the specification's example, put in the
    language of the pattern, gives [A avaliação média do Bob's é 7.123.],
    and put as the specification has it gives its final message as it is. *)
Theorem report_canonical_sentence (earlier : list ChatResult)
    (final : ChatResult) (history : list chat_message) (last : chat_message)
    (text query : string) :
  chat_history final = Some (history ++ [last]) ->
  content last = Some text ->
  contains false score_pattern text ->
  contains true restaurant_pattern query ->
  (exists score raw,
     re_search false score_pattern text = Some [score]
     /\ re_search true restaurant_pattern query = Some [raw]
     /\ report (earlier ++ [final]) query
        = Ok [latin1 "A avaliação média do " +:+ strip raw
              +:+ latin1 " é " +:+ score +:+ "."])
  /\ report example_transcripts example_consulta
     = Ok [latin1 "A avaliação média do Bob's é 7.123."]
  /\ report example_transcripts example_query
     = Ok ["The average rating of Bob's is 7.123."].
Proof.
  intros Hhistory Htext Hscore Hname.
  split; [|split; vm_compute; reflexivity].
  apply re_search_contains in Hscore as [score_groups Hscore].
  apply re_search_contains in Hname as [name_groups Hname].
  destruct (re_search_sound _ _ _ _ Hscore) as (? & score & ? & _ & Hs).
  apply score_pattern_groups in Hs as ->.
  destruct (re_search_sound _ _ _ _ Hname) as (? & part & ? & _ & Hn).
  apply restaurant_pattern_groups in Hn as (raw & -> & _).
  exists score, raw. repeat split; [assumption..|].
  rewrite (report_text _ _ _ _ _ _ Hhistory Htext), Hscore, Hname.
  reflexivity.
Qed.

Lemma report_canonical_sentence_witness :
  (exists score raw,
     re_search false score_pattern "Nota final: 7.123" = Some [score]
     /\ re_search true restaurant_pattern example_consulta = Some [raw]
     /\ report ([] ++ [ {| chat_history :=
                             Some ([] ++ [ {| content := Some "Nota final: 7.123" |} ]) |} ])
               example_consulta
        = Ok [latin1 "A avaliação média do " +:+ strip raw
              +:+ latin1 " é " +:+ score +:+ "."])
  /\ report example_transcripts example_consulta
     = Ok [latin1 "A avaliação média do Bob's é 7.123."]
  /\ report example_transcripts example_query
     = Ok ["The average rating of Bob's is 7.123."].
Proof.
  apply (report_canonical_sentence []
           {| chat_history :=
                Some ([] ++ [ {| content := Some "Nota final: 7.123" |} ]) |}
           [] {| content := Some "Nota final: 7.123" |}
           "Nota final: 7.123" example_consulta).
  - reflexivity.
  - reflexivity.
  - apply re_search_contains. vm_compute. eauto.
  - apply re_search_contains. vm_compute. eauto.
Defined.

(** C5, as stated, fails on the query of its own example: the code finds no
    name in [What is the score of Bob's?], so a last message with a number of
    three decimals is printed as it is and no sentence is made from it. *)
Lemma report_example_query_verbatim :
  contains false score_pattern "Score: 7.123"
  /\ re_search true restaurant_pattern example_query = None
  /\ report [ {| chat_history := Some [ {| content := Some "Score: 7.123" |} ] |} ]
            example_query
     = Ok ["Score: 7.123"]
  /\ report [ {| chat_history := Some [ {| content := Some "Score: 7.123" |} ] |} ]
            example_query
     <> Ok ["The average rating of Bob's is 7.123."].
Proof.
  split; [apply re_search_contains; vm_compute; eauto|].
  split; [vm_compute; reflexivity|].
  split; [vm_compute; reflexivity|].
  vm_compute. discriminate.
Qed.







(** ** The stages of the pipeline *)

Lemma exchange_bound (turn : chat -> list stage_run -> list chat_message
                             -> option (list chat_message))
    (stage : chat) (earlier : list stage_run) (bound : nat) :
  forall messages,
    (length (exchange turn stage earlier bound messages) <= bound)%nat.
Proof.
  induction bound as [|bound IH]; intros messages; cbn [exchange length]; [lia|].
  destruct (turn stage earlier messages) as [added|]; cbn [length]; [|lia].
  specialize (IH (messages ++ added)). lia.
Qed.

Lemma run_stages_order (turn : chat -> list stage_run -> list chat_message
                               -> option (list chat_message))
    (stages : list chat) :
  forall earlier,
    stage_of <$> run_stages turn earlier stages = stages
    /\ Forall (fun run =>
                 (length (turns_of run)
                  <= Z.to_nat (max_turns (stage_of run)))%nat)
              (run_stages turn earlier stages).
Proof.
  induction stages as [|stage stages IH]; intros earlier; cbn [run_stages].
  - split; [reflexivity | constructor].
  - destruct (IH (earlier ++
                  [ {| stage_of := stage;
                       turns_of := exchange turn stage earlier
                                     (Z.to_nat (max_turns stage)) [] |} ]))
      as [Horder Hbound].
    split.
    + cbn [fmap list_fmap stage_of]. f_equal. exact Horder.
    + constructor; [|exact Hbound]. cbn [stage_of turns_of].
      apply exchange_bound.
Qed.

(** C9. Whatever the agents answer, the coordinator runs the three stages
    that [main] hands to it and no other, in the order fetch, analyse,
    score; every stage has [max_turns] 3 and its exchange takes at most
    three turns; and [main] reports on the three transcripts, in that
    order. *)
Theorem pipeline_stages
    (turn : chat -> list stage_run -> list chat_message
            -> option (list chat_message))
    (user_query : string) :
  let executed := run_stages turn [] (chat_sequence user_query) in
  stage_of <$> executed = chat_sequence user_query
  /\ length executed = 3%nat
  /\ (fun run => recipient (stage_of run)) <$> executed
     = [data_fetch_agent; review_analysis_agent; score_agent]
  /\ (fun run => sender (stage_of run)) <$> executed
     = [entrypoint_agent; data_fetch_agent; review_analysis_agent]
  /\ Forall (fun run => max_turns (stage_of run) = 3
                        /\ (length (turns_of run) <= 3)%nat) executed
  /\ main (initiate_chats turn) user_query
     = report (transcript <$> executed) user_query.
Proof.
  cbv zeta.
  destruct (run_stages_order turn (chat_sequence user_query) []) as [Horder Hbound].
  split; [exact Horder|].
  split; [apply (f_equal length) in Horder;
          rewrite length_fmap in Horder; exact Horder|].
  split.
  { change (fun run => recipient (stage_of run)) with (recipient ∘ stage_of).
    rewrite list_fmap_compose, Horder. reflexivity. }
  split.
  { change (fun run => sender (stage_of run)) with (sender ∘ stage_of).
    rewrite list_fmap_compose, Horder. reflexivity. }
  split; [|reflexivity].
  assert (Forall (fun stage => max_turns stage = 3)
                 (stage_of <$> run_stages turn [] (chat_sequence user_query)))
    as Hturns by (rewrite Horder; repeat constructor).
  rewrite Forall_fmap in Hturns.
  rewrite Forall_forall in Hturns, Hbound |- *. intros run Hin.
  specialize (Hturns run Hin). specialize (Hbound run Hin).
  cbn beta in *. unfold compose in Hturns. rewrite Hturns in Hbound.
  split; [assumption|]. exact Hbound.
Qed.

(** ** Totality of the two tools *)

(** C4, as the code has it. [calculate_overall_score] returns a value
    whenever no product [food_scores[i]^2 * service_scores[i]] is negative
    (the products below [2^1023], the lists shorter than [2^63], which is all
    a Python list can hold), and [fetch_restaurant_data] returns a value
    whenever the corpus file is absent or can be read. *)
Theorem core_functions_return (restaurant_name : string)
    (food_scores customer_service_scores : list Z) (file : corpus) :
  len food_scores < 2 ^ 63 ->
  Forall (fun pair => 0 <= pair.1 ^ 2 * pair.2 < 2 ^ 1023)
         (zip food_scores customer_service_scores) ->
  openable file ->
  returns (calculate_overall_score restaurant_name food_scores
             customer_service_scores)
  /\ returns (fetch_restaurant_data file restaurant_name).
Proof.
  intros Hlen Hpairs Hfile. split.
  - unfold calculate_overall_score.
    destruct (bool_decide (food_scores = [])
              || bool_decide (customer_service_scores = [])
              || negb (len food_scores =? len customer_service_scores))
      eqn:Hguard; [by eexists|].
    apply orb_false_iff in Hguard as [[Hne _]%orb_false_iff Heq].
    apply bool_decide_eq_false in Hne.
    apply negb_false_iff, Z.eqb_eq in Heq.
    rewrite final_score_spec by (unfold len in Heq; lia).
    destruct (spec_score_returns food_scores customer_service_scores)
      as [score ->]; [|assumption|by eexists].
    split; [|assumption]. destruct food_scores; [congruence|].
    unfold len. cbn [length]. lia.
  - destruct file as [|e|contents].
    + by eexists.
    + cbn in Hfile. subst e. by eexists.
    + destruct (fetch_restaurant_data_text contents restaurant_name)
        as (reviews & -> & _).
      by eexists.
Qed.

Lemma core_functions_return_witness :
  returns (calculate_overall_score "Bob's" [4; 5; 3] [2; 5; 1])
  /\ returns (fetch_restaurant_data (Text example_corpus) "Bob's").
Proof.
  apply (core_functions_return "Bob's" [4; 5; 3] [2; 5; 1] (Text example_corpus)).
  - reflexivity.
  - repeat constructor; cbn; lia.
  - exact I.
Defined.

(** C4, as stated, fails: with a negative service score the square root has
    no value and [calculate_overall_score] raises [ValueError]; and an
    unreadable corpus file makes [fetch_restaurant_data] raise. *)
Lemma calculate_overall_score_negative_raises :
  calculate_overall_score "Bob's" [1] [-1] = Raise ValueError
  /\ ~ returns (calculate_overall_score "Bob's" [1] [-1])
  /\ fetch_restaurant_data (Unreadable PermissionError) "Bob's"
     = Raise PermissionError.
Proof.
  assert (calculate_overall_score "Bob's" [1] [-1] = Raise ValueError) as H
    by (vm_compute; reflexivity).
  split; [exact H|]. split; [|reflexivity].
  rewrite H. intros [? ?]. discriminate.
Qed.

(** ** Scores outside the domain of the square root *)

Lemma binary_round_negative (z : positive) :
  Z.pos z < 2 ^ (emax - 1) ->
  exists (m : positive) (e : Z),
    binary_normalize prec emax (Z.neg z) 0 false = S754_finite true m e
    /\ 2 ^ (prec - 1) <= Z.pos m < 2 ^ prec
    /\ Zdigits2 (Z.pos z) - prec <= e <= Zdigits2 (Z.pos z) - prec + 1.
Proof.
  intros Hz. cbn [binary_normalize]. unfold binary_round.
  pose proof (Zdigits2_bounds z) as Hdz.
  set (dz := Zdigits2 (Z.pos z)) in *.
  assert (0 < dz <= emax - 1) as Hdzrange.
  { split.
    - destruct (Z.le_gt_cases dz 0) as [Hle|]; [|assumption].
      assert (2 ^ dz <= 2 ^ 0) by (apply Z.pow_le_mono_r; lia).
      change (2 ^ 0) with 1 in *. lia.
    - destruct (Z.le_gt_cases dz (emax - 1)) as [|Hgt]; [assumption|].
      assert (2 ^ (emax - 1) <= 2 ^ (dz - 1)) by (apply Z.pow_le_mono_r; lia).
      lia. }
  change (Z.pos (digits2_pos z)) with dz.
  assert (fexp prec emax (dz + 0) = dz - prec) as ->
    by (unfold fexp, SpecFloat.emin, emin, prec, emax in *; lia).
  assert (exists mz ez,
            shl_align z 0 (dz - prec) = (mz, ez)
            /\ prec <= Zdigits2 (Z.pos mz)
            /\ Zdigits2 (Z.pos mz) + ez = dz) as (mz & ez & -> & Hmz & Hsum).
  { unfold shl_align. destruct (dz - prec - 0) as [|k|k] eqn:Hk.
    - exists z, 0. fold dz. repeat split; lia.
    - exists z, 0. fold dz. repeat split; lia.
    - exists (Pos.iter xO z k), (dz - prec).
      assert (Zdigits2 (Z.pos (Pos.iter xO z k)) = prec) as ->.
      { apply Zdigits2_unique. rewrite pos_iter_xO.
        replace (Z.pos k) with (prec - dz) by lia.
        assert (0 < 2 ^ (prec - dz)) by (apply Z.pow_pos_nonneg; lia).
        assert (2 ^ (prec - 1) = 2 ^ (dz - 1) * 2 ^ (prec - dz)) as ->
          by (rewrite <- Z.pow_add_r by lia; f_equal; lia).
        assert (2 ^ prec = 2 ^ dz * 2 ^ (prec - dz)) as ->
          by (rewrite <- Z.pow_add_r by lia; f_equal; lia).
        nia. }
      repeat split; lia. }
  destruct (binary_round_aux_normal true mz ez loc_Exact Hmz)
    as (m3 & e3 & m2 & -> & Hm3 & He3 & _).
  { unfold emin, prec, emax in *. lia. }
  exists m3, e3.
  replace (e3 <=? emax - prec) with true
    by (symmetry; apply Z.leb_le; unfold prec, emax in *; lia).
  repeat split; lia.
Qed.

(** [math.sqrt] of a negative [int] is a "math domain error". *)
Lemma math_sqrt_negative (z : Z) :
  - 2 ^ (emax - 1) < z < 0 -> math_sqrt z = Raise ValueError.
Proof.
  intros [Hlow Hhigh]. destruct z as [|p|p]; try lia.
  assert (Z.pos p < 2 ^ (emax - 1)) as Hp by lia.
  destruct (binary_round_negative p Hp) as (m & e & Hnorm & Hm & He).
  unfold math_sqrt, float_of_int. rewrite Hnorm.
  cbn [mbind outcome_bind].
  assert (Prim2SF (SF2Prim (S754_finite true m e)) = S754_finite true m e) as Hx.
  { apply Prim2SF_normal; [assumption|].
    pose proof (Zdigits2_range p _ Hp) as Hd.
    unfold emin, prec, emax in *. lia. }
  assert (is_nan (PrimFloat.sqrt (SF2Prim (S754_finite true m e))) = true) as ->.
  { unfold is_nan. rewrite FloatAxioms.eqb_spec, sqrt_spec, Hx. reflexivity. }
  rewrite is_nan_false by (rewrite Hx; discriminate).
  reflexivity.
Qed.

Lemma mapM_raises {A B} (f : A -> outcome B) (e : exception) (l : list A) :
  Forall (fun a => returns (f a) \/ f a = Raise e) l ->
  Exists (fun a => f a = Raise e) l ->
  mapM f l = Raise e.
Proof.
  induction 1 as [|a l Ha Hl IH]; intros Hex; [by apply Exists_nil in Hex|].
  cbn [mapM]. destruct Ha as [[b Hb]|Ha].
  - rewrite Hb. cbn [mbind outcome_bind].
    apply Exists_cons in Hex as [Hex|Hex]; [congruence|].
    by rewrite (IH Hex).
  - by rewrite Ha.
Qed.

(** X1. Past its guard [calculate_overall_score] returns exactly when no product
    [food_scores[i]^2 * customer_service_scores[i]] is negative; with a
    negative product [math.sqrt] raises [ValueError], whatever the other
    scores are. *)
Theorem calculate_overall_score_domain (restaurant_name : string)
    (food_scores customer_service_scores : list Z) :
  food_scores <> [] ->
  length food_scores = length customer_service_scores ->
  len food_scores < 2 ^ 63 ->
  Forall (fun pair => Z.abs (pair.1 ^ 2 * pair.2) < 2 ^ 1023)
         (zip food_scores customer_service_scores) ->
  (returns (calculate_overall_score restaurant_name food_scores
              customer_service_scores)
   <-> Forall (fun pair => 0 <= pair.1 ^ 2 * pair.2)
              (zip food_scores customer_service_scores))
  /\ (Exists (fun pair => pair.1 ^ 2 * pair.2 < 0)
             (zip food_scores customer_service_scores) ->
      calculate_overall_score restaurant_name food_scores
        customer_service_scores = Raise ValueError).
Proof.
  intros Hfood Hlen Hsize Hbound.
  rewrite calculate_overall_score_guard, final_score_spec by assumption.
  assert (Exists (fun pair => pair.1 ^ 2 * pair.2 < 0)
                 (zip food_scores customer_service_scores) ->
          spec_score food_scores customer_service_scores = Raise ValueError)
    as Hraise.
  { intros Hneg. unfold spec_score.
    rewrite (mapM_raises spec_component ValueError); [reflexivity| |].
    - eapply Forall_impl; [exact Hbound|]. intros pair Hpair. cbn beta in Hpair.
      unfold spec_component.
      destruct (Z.neg_nonneg_cases (pair.1 ^ 2 * pair.2)) as [Hn|Hp].
      + right. apply math_sqrt_negative. change (emax - 1) with 1023.
        lia.
      + left. apply math_sqrt_returns. change (emax - 1) with 1023. lia.
    - apply Exists_exists in Hneg as (pair & Hin & Hpair).
      apply Exists_exists. exists pair. split; [assumption|].
      rewrite Forall_forall in Hbound. specialize (Hbound pair Hin).
      cbn beta in Hbound. unfold spec_component. apply math_sqrt_negative.
      change (emax - 1) with 1023. lia. }
  split; [split|].
  - intros [scores Hscores].
    destruct (decide (Forall (fun pair => 0 <= pair.1 ^ 2 * pair.2)
                        (zip food_scores customer_service_scores)))
      as [|Hnot]; [assumption|].
    apply not_Forall_Exists in Hnot; [|intros pair; apply _].
    rewrite Hraise in Hscores; [discriminate|].
    eapply Exists_impl; [exact Hnot|]. intros pair Hpair.
    unfold compose in Hpair. cbn beta in Hpair. lia.
  - intros Hnonneg.
    destruct (spec_score_returns food_scores customer_service_scores)
      as [score Hscore].
    + split; [|assumption]. unfold len. destruct food_scores; [done|].
      cbn [length]. lia.
    + rewrite Forall_forall in Hbound, Hnonneg |- *. intros pair Hin.
      specialize (Hbound pair Hin). specialize (Hnonneg pair Hin).
      cbn beta in *. lia.
    + rewrite Hscore. by eexists.
  - intros Hneg. by rewrite Hraise.
Qed.

Lemma calculate_overall_score_domain_witness :
  (returns (calculate_overall_score "Bob's" [4; 5; 3] [2; -5; 1])
   <-> Forall (fun pair => 0 <= pair.1 ^ 2 * pair.2)
              (zip [4; 5; 3] [2; -5; 1]))
  /\ (Exists (fun pair => pair.1 ^ 2 * pair.2 < 0)
             (zip [4; 5; 3] [2; -5; 1]) ->
      calculate_overall_score "Bob's" [4; 5; 3] [2; -5; 1] = Raise ValueError).
Proof.
  apply (calculate_overall_score_domain "Bob's" [4; 5; 3] [2; -5; 1]).
  - discriminate.
  - reflexivity.
  - vm_compute. reflexivity.
  - repeat constructor.
Defined.

(** ** Scores that are all zero *)

Lemma moderate_wide (r : R) :
  (/ 1208925819614629174706176 <= r <= 1208925819614629174706176)%R ->
  moderate r.
Proof.
  intros [Hlow Hhigh]. split.
  - etransitivity; [apply (bpow_le (-100) (-80)); lia|].
    replace (bpow (-80)) with (/ 1208925819614629174706176)%R; [assumption|].
    change (-80) with (- (80)). unfold bpow. rewrite powerRZ_neg'. f_equal.
    change (powerRZ 2 80) with (bpow 80). rewrite bpow_IZR by lia. reflexivity.
  - etransitivity; [|apply (bpow_le 80 100); lia].
    rewrite bpow_IZR by lia. exact Hhigh.
Qed.

(** The factor [1 / (n * math.sqrt(125))] is a positive finite float for
    every length below [2^63]. *)
Lemma inverse_normal (n : Z) :
  0 < n < 2 ^ 63 ->
  exists fn, float_of_int n = Ok fn
             /\ is_zero (fn * root) = false
             /\ normal (1 / (fn * root))%float.
Proof.
  intros Hn. destruct (float_of_int_approx n Hn) as (fn & Hfn & Happrox).
  exists fn. split; [assumption|].
  destruct root_normal as [Hroot Hrv]. destruct one_normal as [Hone Hov].
  assert (11 <= root_value <= 12)%R as Hv by (unfold root_value; lra).
  assert (1 <= IZR n <= 9223372036854775808)%R as HN.
  { split; [apply (IZR_le 1); lia|]. apply (IZR_le n (2 ^ 63)). lia. }
  pose proof (approx_bounds _ (/ 2) 18446744073709551616 _ Happrox) as Hfnrange.
  specialize (Hfnrange ltac:(lra) ltac:(lra) ltac:(lra)).
  destruct (mul_approx fn root) as [Hp Hpval];
    [apply Happrox | assumption | apply moderate_wide; lra
    | apply moderate_wide; lra |].
  rewrite Hrv in Hpval.
  assert (5 <= B2R (fn * root)%float <= 295147905179352825856)%R as Hprange.
  { assert (0 < eps < / 16)%R by (rewrite eps_value; lra).
    assert (/ 2 * 11 <= B2R fn * root_value)%R by nra.
    assert (B2R fn * root_value <= 18446744073709551616 * 12)%R by nra.
    split; nra. }
  split; [by apply normal_not_zero|].
  destruct (div_approx 1 (fn * root)) as [Hinv _];
    [assumption | assumption | apply moderate_wide; lra
    | apply moderate_wide; lra |].
  exact Hinv.
Qed.

Lemma mul_zero_normal (x : float) : normal x -> (0 * x)%float = 0%float.
Proof.
  intros (m & e & Hx & _).
  rewrite <- (SF2Prim_Prim2SF (0 * x)), mul_spec, Hx. reflexivity.
Qed.

Lemma mapM_zero_components (pairs : list (Z * Z)) :
  Forall (fun pair => pair.1 ^ 2 * pair.2 = 0) pairs ->
  exists components,
    mapM spec_component pairs = Ok components
    /\ spec_sum components = 0%float.
Proof.
  unfold spec_sum.
  induction 1 as [|pair pairs Hpair _ (components & Hmap & Hsum)].
  - by exists [].
  - exists (0%float :: components). cbn [mapM].
    assert (spec_component pair = Ok 0%float) as ->.
    { unfold spec_component. cbn beta in Hpair. rewrite Hpair.
      vm_compute. reflexivity. }
    cbn [mbind outcome_bind]. rewrite Hmap. split; [reflexivity|].
    cbn [foldl]. change (0 + 0)%float with 0%float. exact Hsum.
Qed.

(** X2. When every product [food_scores[i]^2 * customer_service_scores[i]] is
    zero the score is 0.0: the value the guard gives for empty or unequal
    lists is also the score of a restaurant rated zero throughout. *)
Theorem calculate_overall_score_zero (restaurant_name : string)
    (food_scores customer_service_scores : list Z) :
  food_scores <> [] ->
  length food_scores = length customer_service_scores ->
  len food_scores < 2 ^ 63 ->
  Forall (fun pair => pair.1 ^ 2 * pair.2 = 0)
         (zip food_scores customer_service_scores) ->
  calculate_overall_score restaurant_name food_scores customer_service_scores
  = Ok {[ restaurant_name := 0%float ]}
  /\ calculate_overall_score restaurant_name food_scores customer_service_scores
     = calculate_overall_score restaurant_name [] [].
Proof.
  intros Hfood Hlen Hsize Hzero.
  assert (calculate_overall_score restaurant_name food_scores
            customer_service_scores = Ok {[ restaurant_name := 0%float ]})
    as Hscore; [|by rewrite Hscore].
  rewrite calculate_overall_score_guard, final_score_spec by assumption.
  unfold spec_score.
  destruct (mapM_zero_components _ Hzero) as (components & Hmap & Hsum).
  rewrite Hmap. cbn [mbind outcome_bind]. rewrite Hsum.
  assert (math_sqrt 125 = Ok root) as -> by (vm_compute; reflexivity).
  cbn [mbind outcome_bind].
  destruct (inverse_normal (len food_scores)) as (fn & -> & Hp & Hinv).
  { split; [|assumption]. unfold len. destruct food_scores; [done|].
    cbn [length]. lia. }
  cbn [mbind outcome_bind]. unfold py_truediv, py_mul_int.
  assert (float_of_int 1 = Ok 1%float) as -> by (vm_compute; reflexivity).
  assert (float_of_int 10 = Ok 10%float) as -> by (vm_compute; reflexivity).
  cbn [mbind outcome_bind]. rewrite Hp. cbn [mbind outcome_bind].
  rewrite (mul_zero_normal _ Hinv).
  vm_compute. reflexivity.
Qed.

Lemma calculate_overall_score_zero_witness :
  calculate_overall_score "Bob's" [0; 3] [4; 0]
  = Ok {[ "Bob's" := 0%float ]}
  /\ calculate_overall_score "Bob's" [0; 3] [4; 0]
     = calculate_overall_score "Bob's" [] [].
Proof.
  apply (calculate_overall_score_zero "Bob's" [0; 3] [4; 0]).
  - discriminate.
  - reflexivity.
  - vm_compute. reflexivity.
  - repeat constructor.
Defined.

(** ** Scores of three decimals *)

Lemma Prim2SF_inj (x y : float) : Prim2SF x = Prim2SF y -> x = y.
Proof.
  intros H. rewrite <- (SF2Prim_Prim2SF x), <- (SF2Prim_Prim2SF y). by rewrite H.
Qed.

Lemma py_round_decimal (q : positive) :
  894 <= Z.pos q <= 10000 ->
  py_round (decimal_to_float false q 3) 3 = decimal_to_float false q 3.
Proof.
  intros Hq.
  assert (forallb (fun k =>
                     let x := decimal_to_float false (Z.to_pos k) 3 in
                     match Prim2SF (py_round x 3), Prim2SF x with
                     | S754_finite s m e, S754_finite s' m' e' =>
                         Bool.eqb s s' && (m =? m')%positive && (e =? e')
                     | _, _ => false
                     end)
                  (seqZ 894 9107) = true) as Hall by (vm_compute; reflexivity).
  rewrite forallb_forall in Hall.
  specialize (Hall (Z.pos q)). cbn [Z.to_pos] in Hall. cbn zeta in Hall.
  apply Prim2SF_inj.
  destruct (Prim2SF (py_round _ 3)) as [| | |s m e];
    destruct (Prim2SF (decimal_to_float false q 3)) as [| | |s' m' e'];
    try (discriminate Hall; apply list_elem_of_In, elem_of_seqZ; lia).
  assert (Bool.eqb s s' && (m =? m')%positive && (e =? e') = true) as Heq
    by (apply Hall, list_elem_of_In, elem_of_seqZ; lia).
  apply andb_true_iff in Heq as [Heq He].
  apply andb_true_iff in Heq as [Hs Hm].
  apply Bool.eqb_prop in Hs. apply Pos.eqb_eq in Hm. apply Z.eqb_eq in He.
  by subst.
Qed.

(** X3. For up to [2^32] reviews scored 1 to 5 the score is a number of
    thousandths: the float nearest to [q / 1000] for an integer [q] from 894
    to 10000, which [round(score, 3)] leaves as it is. *)
Theorem calculate_overall_score_thousandths (restaurant_name : string)
    (food_scores customer_service_scores : list Z) :
  food_scores <> [] ->
  length food_scores = length customer_service_scores ->
  len food_scores <= 2 ^ 32 ->
  Forall in_scale food_scores -> Forall in_scale customer_service_scores ->
  exists q : positive,
    894 <= Z.pos q <= 10000
    /\ calculate_overall_score restaurant_name food_scores
         customer_service_scores
       = Ok {[ restaurant_name := decimal_to_float false q 3 ]}
    /\ py_round (decimal_to_float false q 3) 3 = decimal_to_float false q 3.
Proof.
  intros Hne Hlen Hsize Hfood Hservice.
  rewrite calculate_overall_score_guard, final_score_spec by assumption.
  assert (11 <= root_value <= 12)%R as Hv by (unfold root_value; lra).
  assert (IZR (2 * 894 - 1) / 2000 * root_value < 10 * 1 * (1 - / 262144))%R
    as Hlow1 by (change (2 * 894 - 1) with 1787; unfold root_value; lra).
  assert (10 * root_value * (1 + / 262144)
          < IZR (2 * 10000 + 1) / 2000 * root_value)%R
    as Hhigh5 by (change (2 * 10000 + 1) with 20001; unfold root_value; lra).
  destruct (spec_score_decimal
              (fun pair => in_scale pair.1 /\ in_scale pair.2)
              1 root_value 894 10000 food_scores customer_service_scores)
    as (q & Hq & Hscore);
    [intros [f s] [Hf Hs]; by apply component_in_scale
    | lra | lra | lra | lia | assumption.. | by apply Forall_zip_scale |].
  exists q. rewrite Hscore. split; [assumption|]. split; [reflexivity|].
  by apply py_round_decimal.
Qed.

Lemma calculate_overall_score_thousandths_witness :
  exists q : positive,
    894 <= Z.pos q <= 10000
    /\ calculate_overall_score "Bob's" [4; 5; 3] [2; 5; 1]
       = Ok {[ "Bob's" := decimal_to_float false q 3 ]}
    /\ py_round (decimal_to_float false q 3) 3 = decimal_to_float false q 3.
Proof.
  apply (calculate_overall_score_thousandths "Bob's" [4; 5; 3] [2; 5; 1]).
  - discriminate.
  - reflexivity.
  - vm_compute. discriminate.
  - repeat constructor; unfold in_scale; lia.
  - repeat constructor; unfold in_scale; lia.
Defined.

(** ** Reviews that all carry the same scores *)

Lemma zip_replicate {A B} (n : nat) (a : A) (b : B) :
  zip (replicate n a) (replicate n b) = replicate n (a, b).
Proof. induction n as [|n IH]; [reflexivity|]. cbn. by rewrite IH. Qed.

(** A component with mantissa [m] at exponent [-52], and the number [q] of
    thousandths its scaled value rounds to with room to spare. *)
Lemma spec_score_uniform (f s m : Z) (q : positive) (c : float) (n : nat) :
  spec_component (f, s) = Ok c ->
  dyadic_between m m c = true ->
  2 ^ 52 <= m <= 12 * 2 ^ 52 ->
  (2 * Z.pos q - 1) * (6293971818901970 * 2 ^ 21) < m * (20000 * (2 ^ 18 - 1)) ->
  m * (20000 * (2 ^ 18 + 1)) < (2 * Z.pos q + 1) * (6293971818901970 * 2 ^ 21) ->
  1 <= Z.of_nat n <= 2 ^ 32 ->
  spec_score (replicate n f) (replicate n s)
  = Ok (decimal_to_float false q 3).
Proof.
  intros Hc Hdyadic [Hm1 Hm2] Hlow Hhigh Hn.
  apply dyadic_between_spec in Hdyadic as [Hnormal Hvalue].
  assert (B2R c = F2R m (-52)) as Hexact by lra.
  assert (F2R m (-52) = IZR m / 4503599627370496)%R as Hf2r.
  { unfold F2R. rewrite (bpow_neg 52). reflexivity. }
  apply IZR_le in Hm1, Hm2. apply IZR_lt in Hlow, Hhigh.
  rewrite (mult_IZR (2 * Z.pos q - 1)), (mult_IZR m) in Hlow.
  rewrite (mult_IZR (2 * Z.pos q + 1)), (mult_IZR m) in Hhigh.
  change (IZR (2 ^ 52)) with 4503599627370496%R in Hm1.
  change (IZR (12 * 2 ^ 52)) with 54043195528445952%R in Hm2.
  change (IZR (6293971818901970 * 2 ^ 21))
    with 13199415587953904189440%R in Hlow, Hhigh.
  change (IZR (20000 * (2 ^ 18 - 1))) with 5242860000%R in Hlow.
  change (IZR (20000 * (2 ^ 18 + 1))) with 5242900000%R in Hhigh.
  destruct (spec_score_decimal (fun pair => pair = (f, s))
              (F2R m (-52)) (F2R m (-52)) (Z.pos q) (Z.pos q)
              (replicate n f) (replicate n s))
    as (q' & Hq' & Hscore).
  - intros pair ->. exists c. split; [assumption|]. split; [assumption | lra].
  - rewrite Hf2r. lra.
  - lra.
  - rewrite Hf2r. lra.
  - lia.
  - rewrite Hf2r. unfold root_value. lra.
  - rewrite Hf2r. unfold root_value. lra.
  - destruct n; [lia | discriminate].
  - by rewrite !length_replicate.
  - unfold len. rewrite length_replicate. lia.
  - rewrite zip_replicate. by apply Forall_replicate.
  - rewrite Hscore. do 2 f_equal. lia.
Qed.

(** X4. A restaurant whose reviews all carry the same scores [(f, s)], both from
    1 to 5, gets the score of a single such review, however many reviews
    there are (up to [2^32]). *)
Theorem calculate_overall_score_uniform (restaurant_name : string)
    (f s : Z) (n : nat) :
  in_scale f -> in_scale s -> 1 <= Z.of_nat n <= 2 ^ 32 ->
  calculate_overall_score restaurant_name (replicate n f) (replicate n s)
  = calculate_overall_score restaurant_name [f] [s].
Proof.
  unfold in_scale. intros Hf Hs Hn.
  assert (exists q : positive,
            forall k : nat, 1 <= Z.of_nat k <= 2 ^ 32 ->
              spec_score (replicate k f) (replicate k s)
              = Ok (decimal_to_float false q 3)) as (q & Hq).
  { assert (f = 1 \/ f = 2 \/ f = 3 \/ f = 4 \/ f = 5) as Hfs by lia.
    assert (s = 1 \/ s = 2 \/ s = 3 \/ s = 4 \/ s = 5) as Hss by lia.
    destruct Hfs as [->|[->|[->|[->| ->]]]];
      destruct Hss as [->|[->|[->|[->| ->]]]];
      match goal with
      | |- context [replicate _ ?f] =>
          match goal with
          | |- context [spec_score _ (replicate _ ?s)] =>
              let c := eval vm_compute in
                (match spec_component (f, s) with
                 | Ok c => c | Raise _ => 0%float end) in
              let m := eval vm_compute in
                (match Prim2SF c with
                 | S754_finite false m e => Z.pos m * 2 ^ (e + 52)
                 | _ => 0
                 end) in
              let q := eval vm_compute in
                (Z.to_pos (round_half_even_div (m * 20000 * 2 ^ 18)
                             (6293971818901970 * 2 ^ 21 * 2))) in
              exists q; intros k Hk;
              apply (spec_score_uniform f s m q c k);
              [vm_compute; reflexivity | vm_compute; reflexivity
              | vm_compute; split; discriminate
              | vm_compute; reflexivity | vm_compute; reflexivity
              | exact Hk]
          end
      end. }
  assert (forall k : nat, 1 <= Z.of_nat k <= 2 ^ 32 ->
            calculate_overall_score restaurant_name (replicate k f)
              (replicate k s)
            = Ok {[ restaurant_name := decimal_to_float false q 3 ]}) as Hall.
  { intros k Hk.
    rewrite calculate_overall_score_guard, final_score_spec.
    - by rewrite (Hq k Hk).
    - by rewrite !length_replicate.
    - destruct k; [lia | discriminate].
    - by rewrite !length_replicate. }
  rewrite (Hall n Hn). symmetry. apply (Hall 1%nat). lia.
Qed.

Lemma calculate_overall_score_uniform_witness :
  calculate_overall_score "Bob's" (replicate 4 3) (replicate 4 2)
  = calculate_overall_score "Bob's" [3] [2].
Proof.
  apply (calculate_overall_score_uniform "Bob's" 3 2 4);
    unfold in_scale; lia.
Defined.

(** ** Stripped strings *)

Lemma append_empty_r (s : string) : s +:+ EmptyString = s.
Proof.
  induction s as [|c s IH]; [reflexivity|]. by rewrite append_cons, IH.
Qed.

Lemma rev_app_append (s t : string) : String.rev_app s t = String.rev s +:+ t.
Proof.
  unfold String.rev. revert t.
  induction s as [|c s IH]; intros t; [reflexivity|].
  cbn [String.rev_app]. rewrite (IH (String c t)), (IH (String c EmptyString)).
  by rewrite append_assoc.
Qed.

Lemma rev_cons (c : ascii) (s : string) :
  String.rev (String c s) = String.rev s +:+ String c EmptyString.
Proof. unfold String.rev at 1. cbn [String.rev_app]. apply rev_app_append. Qed.

Lemma rev_append (s t : string) :
  String.rev (s +:+ t) = String.rev t +:+ String.rev s.
Proof.
  induction s as [|c s IH].
  - by rewrite append_empty, append_empty_r.
  - rewrite append_cons, !rev_cons, IH. apply append_assoc.
Qed.

Lemma rev_involutive (s : string) : String.rev (String.rev s) = s.
Proof.
  induction s as [|c s IH]; [reflexivity|].
  rewrite rev_cons, rev_append, IH. reflexivity.
Qed.

Lemma lstrip_append_char (s : string) (c : ascii) :
  lstrip (s +:+ String c EmptyString)
  = match lstrip s with
    | EmptyString => if isspace c then EmptyString else String c EmptyString
    | String _ _ => lstrip s +:+ String c EmptyString
    end.
Proof.
  induction s as [|d s IH]; [reflexivity|].
  rewrite append_cons. cbn [lstrip]. destruct (isspace d); [exact IH|reflexivity].
Qed.

(** [rstrip] read from the left. *)
Lemma rstrip_cons (c : ascii) (s : string) :
  rstrip (String c s)
  = match rstrip s with
    | EmptyString => if isspace c then EmptyString else String c EmptyString
    | String _ _ => String c (rstrip s)
    end.
Proof.
  unfold rstrip. rewrite rev_cons, lstrip_append_char.
  destruct (lstrip (String.rev s)) as [|d l] eqn:Hl.
  - cbn. destruct (isspace c); reflexivity.
  - rewrite rev_append. change (String.rev (String c "")) with (String c "").
    rewrite append_cons, append_empty.
    destruct (String.rev (String d l)) eqn:Hrev; [|reflexivity].
    apply (f_equal String.rev) in Hrev. rewrite rev_involutive in Hrev.
    discriminate.
Qed.

Lemma rstrip_idempotent (s : string) : rstrip (rstrip s) = rstrip s.
Proof.
  induction s as [|c s IH]; [reflexivity|].
  rewrite rstrip_cons. destruct (rstrip s) as [|d r] eqn:Hr.
  - destruct (isspace c) eqn:Hc; [reflexivity|].
    rewrite rstrip_cons. change (rstrip "") with EmptyString. by rewrite Hc.
  - rewrite rstrip_cons, IH. reflexivity.
Qed.

(** [lstrip] leaves nothing or a string that starts with no whitespace. *)
Lemma lstrip_head (s : string) :
  match lstrip s with
  | EmptyString => True
  | String c _ => isspace c = false
  end.
Proof.
  induction s as [|c s IH]; [exact I|].
  cbn [lstrip]. destruct (isspace c) eqn:Hc; [exact IH | exact Hc].
Qed.

Lemma rstrip_head (c : ascii) (s : string) :
  isspace c = false -> exists r, rstrip (String c s) = String c r.
Proof.
  intros Hc. rewrite rstrip_cons, Hc. destruct (rstrip s); eauto.
Qed.

(** A stripped string is empty or starts with no whitespace. *)
Lemma strip_head (s : string) :
  match strip s with
  | EmptyString => True
  | String c _ => isspace c = false
  end.
Proof.
  unfold strip. pose proof (lstrip_head s) as Hhead.
  destruct (lstrip s) as [|c t]; [exact I|].
  destruct (rstrip_head c t Hhead) as [r ->]. exact Hhead.
Qed.

Lemma lstrip_fixed (s : string) :
  match s with EmptyString => True | String c _ => isspace c = false end ->
  lstrip s = s.
Proof. destruct s as [|c s]; [reflexivity|]. cbn. by intros ->. Qed.

Lemma strip_idempotent (s : string) : strip (strip s) = strip s.
Proof.
  unfold strip at 1. rewrite (lstrip_fixed (strip s)) by apply strip_head.
  unfold strip. apply rstrip_idempotent.
Qed.

(** A stripped string is empty or ends with no whitespace. *)
Lemma rstrip_last (s r : string) (c : ascii) :
  rstrip s = r +:+ String c EmptyString -> isspace c = false.
Proof.
  unfold rstrip. intros H. apply (f_equal String.rev) in H.
  rewrite rev_involutive, rev_append in H.
  change (String.rev (String c "")) with (String c "") in H.
  rewrite append_cons, append_empty in H.
  pose proof (lstrip_head (String.rev s)) as Hhead. by rewrite H in Hhead.
Qed.

(** ** What [fetch_restaurant_data] returns *)

Lemma str_partition_none (c : ascii) (s : string) :
  str_partition c s = None <-> ~ has_char c s.
Proof.
  split.
  - intros Hnone (before & after & ->).
    destruct (str_partition_found c before after) as (b & a & Hsome).
    congruence.
  - intros Hno. destruct (str_partition c s) as [[before after]|] eqn:Hp;
      [|reflexivity].
    apply str_partition_spec in Hp as [-> _].
    exfalso. apply Hno. by exists before, after.
Qed.

Lemma singleton_reviews_inj (name : string) (r1 r2 : list string) :
  ({[ name := r1 ]} : gmap string (list string)) = {[ name := r2 ]} -> r1 = r2.
Proof.
  intros H. apply (f_equal (fun m => m !! name)) in H.
  rewrite !lookup_singleton_eq in H. congruence.
Qed.

(** The reviews returned come from a missing file and are none, or come
    from the lines of the text by the attribution rule. *)
Lemma fetch_restaurant_data_reviews (file : corpus) (name : string)
    (reviews : list string) :
  fetch_restaurant_data file name = Ok {[ name := reviews ]} ->
  reviews = []
  \/ exists contents,
       file = Text contents /\ attribution name (text_lines contents) reviews.
Proof.
  destruct file as [|e|contents].
  - cbn. intros H. left. symmetry. apply (singleton_reviews_inj name).
    congruence.
  - destruct e; cbn; try discriminate.
    intros H. left. symmetry. apply (singleton_reviews_inj name). congruence.
  - destruct (fetch_restaurant_data_text contents name) as (found & -> & Hfound).
    intros H. assert (found = reviews) as <-
      by (apply (singleton_reviews_inj name); congruence).
    right. by exists contents.
Qed.

Lemma attribution_Forall (name : string) (lines reviews : list string) :
  attribution name lines reviews ->
  Forall (fun review =>
            exists line text,
              In line lines
              /\ attributed name (strip line)
              /\ after_first_period (strip line) text
              /\ review = strip text) reviews.
Proof.
  induction 1 as [|line lines text reviews Hattr Hafter _ IH
                  |line lines reviews _ _ IH].
  - constructor.
  - constructor.
    + exists line, text. repeat split; try assumption. by left.
    + eapply Forall_impl; [exact IH|].
      intros review (l & t & Hin & ?). exists l, t. split; [by right|assumption].
  - eapply Forall_impl; [exact IH|].
    intros review (l & t & Hin & ?). exists l, t. split; [by right|assumption].
Qed.

(** X5. Every review returned is stripped: stripping it again changes nothing,
    and it neither starts nor ends with whitespace. *)
Theorem fetch_restaurant_data_stripped (file : corpus) (name : string)
    (reviews : list string) :
  fetch_restaurant_data file name = Ok {[ name := reviews ]} ->
  Forall (fun review =>
            strip review = review
            /\ (forall c rest, review = String c rest -> isspace c = false)
            /\ (forall rest c, review = rest +:+ String c EmptyString ->
                  isspace c = false)) reviews.
Proof.
  intros Hfetch.
  destruct (fetch_restaurant_data_reviews _ _ _ Hfetch)
    as [->|(contents & -> & Hattr)]; [constructor|].
  eapply Forall_impl; [exact (attribution_Forall _ _ _ Hattr)|].
  intros review (line & text & _ & _ & _ & ->).
  split; [apply strip_idempotent|]. split.
  - intros c rest Heq. pose proof (strip_head text) as Hhead.
    by rewrite Heq in Hhead.
  - intros rest c Heq. by apply (rstrip_last (lstrip text) rest c).
Qed.

Lemma fetch_restaurant_data_stripped_witness :
  Forall (fun review =>
            strip review = review
            /\ (forall c rest, review = String c rest -> isspace c = false)
            /\ (forall rest c, review = rest +:+ String c EmptyString ->
                  isspace c = false)) ["Great fries."].
Proof.
  apply (fetch_restaurant_data_stripped (Text example_corpus) "Bob's").
  vm_compute. reflexivity.
Defined.

(** The text kept of an attributed line, for the text [tail] that follows
    the first period of [name + "."]. *)
Lemma attribution_tail (name tail : string) (lines reviews : list string) :
  after_first_period (name +:+ ".") tail ->
  attribution name lines reviews ->
  Forall2 (fun line review =>
             exists rest, strip line = name +:+ "." +:+ rest
                          /\ review = strip (tail +:+ rest))
          (List.filter (fun line => startswith (strip line) (name +:+ "."))
                       lines)
          reviews.
Proof.
  intros (before & Hname & Hnone).
  induction 1 as [|line lines text reviews Hattr Hafter _ IH
                  |line lines reviews Hattr _ IH]; cbn [List.filter].
  - constructor.
  - pose proof Hattr as Hstart. apply attributed_startswith in Hstart.
    rewrite Hstart. constructor; [|exact IH].
    destruct Hattr as [rest Hline]. exists rest. split; [assumption|].
    f_equal. apply (after_first_period_unique (strip line)); [assumption|].
    exists before. split; [|assumption].
    rewrite Hline, <- !append_assoc, Hname, !append_assoc. reflexivity.
  - destruct (startswith (strip line) (name +:+ ".")) eqn:Hstart; [|exact IH].
    by apply attributed_startswith in Hstart.
Qed.

(** X6. For a name without a period, the reviews are, in file order, the lines
    whose stripped text starts with [name + "."], each giving the stripped
    text that follows that prefix. *)
Theorem fetch_restaurant_data_plain_name (contents name : string) :
  ~ has_char "." name ->
  exists reviews,
    fetch_restaurant_data (Text contents) name = Ok {[ name := reviews ]}
    /\ Forall2 (fun line review =>
                  exists rest, strip line = name +:+ "." +:+ rest
                               /\ review = strip rest)
               (List.filter (fun line => startswith (strip line) (name +:+ "."))
                            (text_lines contents))
               reviews.
Proof.
  intros Hplain.
  destruct (fetch_restaurant_data_text contents name) as (reviews & Hfetch & Hattr).
  exists reviews. split; [assumption|].
  apply (attribution_tail name EmptyString); [|assumption].
  exists name. split; [reflexivity | by apply str_partition_none].
Qed.

Lemma fetch_restaurant_data_plain_name_witness :
  exists reviews,
    fetch_restaurant_data (Text example_corpus) "Bob's"
    = Ok {[ "Bob's" := reviews ]}
    /\ Forall2 (fun line review =>
                  exists rest, strip line = "Bob's" +:+ "." +:+ rest
                               /\ review = strip rest)
               (List.filter (fun line => startswith (strip line) ("Bob's" +:+ "."))
                            (text_lines example_corpus))
               reviews.
Proof.
  apply (fetch_restaurant_data_plain_name example_corpus "Bob's").
  apply str_partition_none. vm_compute. reflexivity.
Defined.

(** X7. For a name with a period in it, [split(".", 1)] cuts inside the name:
    each review starts with what follows the first period of the name, and
    is not the text that follows the name on its line. *)
Theorem fetch_restaurant_data_dotted_name (contents first second : string) :
  ~ has_char "." first ->
  let name := first +:+ "." +:+ second in
  exists reviews,
    fetch_restaurant_data (Text contents) name = Ok {[ name := reviews ]}
    /\ Forall2 (fun line review =>
                  exists rest, strip line = name +:+ "." +:+ rest
                               /\ review = strip (second +:+ "." +:+ rest))
               (List.filter (fun line => startswith (strip line) (name +:+ "."))
                            (text_lines contents))
               reviews.
Proof.
  intros Hplain name.
  destruct (fetch_restaurant_data_text contents name) as (reviews & Hfetch & Hattr).
  exists reviews. split; [assumption|].
  eapply Forall2_impl;
    [apply (attribution_tail name (second +:+ ".")); [|exact Hattr]|].
  - exists first. split; [|by apply str_partition_none].
    unfold name. by rewrite !append_assoc.
  - intros line review (rest & Hline & ->). exists rest.
    split; [assumption|]. by rewrite append_assoc.
Qed.

Lemma fetch_restaurant_data_dotted_name_witness :
  let name := "St" +:+ "." +:+ " Louis" in
  exists reviews,
    fetch_restaurant_data (Text "St. Louis. Great ribs.") name
    = Ok {[ name := reviews ]}
    /\ Forall2 (fun line review =>
                  exists rest, strip line = name +:+ "." +:+ rest
                               /\ review = strip (" Louis" +:+ "." +:+ rest))
               (List.filter (fun line => startswith (strip line) (name +:+ "."))
                            (text_lines "St. Louis. Great ribs."))
               reviews.
Proof.
  apply (fetch_restaurant_data_dotted_name "St. Louis. Great ribs." "St" " Louis").
  apply str_partition_none. vm_compute. reflexivity.
Defined.

(** X8. A name that starts with whitespace finds nothing: the lines are stripped
    before the comparison, the name is not. *)
Theorem fetch_restaurant_data_padded_name (contents : string) (c : ascii)
    (name : string) :
  isspace c = true ->
  fetch_restaurant_data (Text contents) (String c name)
  = Ok {[ String c name := [] ]}.
Proof.
  intros Hc.
  destruct (fetch_restaurant_data_text contents (String c name))
    as (reviews & -> & Hreviews).
  assert (Forall (fun line => ~ attributed (String c name) (strip line))
                 (text_lines contents)) as Hnone.
  { apply Forall_forall. intros line _ [rest Hline].
    pose proof (strip_head line) as Hhead.
    rewrite Hline, append_cons, Hc in Hhead. discriminate. }
  rewrite (attribution_unique _ _ _ _ Hreviews (attribution_none _ _ Hnone)).
  reflexivity.
Qed.

Lemma fetch_restaurant_data_padded_name_witness :
  fetch_restaurant_data (Text example_corpus) (String " " "Bob's")
  = Ok {[ String " " "Bob's" := [] ]}.
Proof.
  apply (fetch_restaurant_data_padded_name example_corpus " " "Bob's").
  reflexivity.
Defined.

(** ** Lines of the corpus *)

Lemma universal_newlines_append (a b : string) :
  universal_newlines (a +:+ String LF b)
  = universal_newlines (a +:+ String LF EmptyString) +:+ universal_newlines b.
Proof.
  remember (String.length a) as n eqn:Hn.
  assert (String.length a <= n)%nat as Hlen by lia. clear Hn.
  revert a Hlen. induction n as [|n IH]; intros a Hlen.
  - destruct a; [reflexivity | cbn in Hlen; lia].
  - destruct a as [|c a]; [reflexivity|].
    rewrite !append_cons. cbn [universal_newlines].
    destruct (bool_decide (c = CR)).
    + destruct a as [|d a].
      * reflexivity.
      * rewrite !append_cons. destruct (bool_decide (d = LF)).
        -- rewrite append_cons. f_equal. apply IH. cbn in Hlen. lia.
        -- rewrite append_cons. f_equal. rewrite <- !append_cons.
           apply IH. cbn in Hlen |- *. lia.
    + rewrite append_cons. f_equal. apply IH. cbn in Hlen. lia.
Qed.

Lemma split_keepends_nil (s : string) : split_keepends s = [] -> s = EmptyString.
Proof.
  destruct s as [|c s]; [reflexivity|]. cbn [split_keepends].
  destruct (bool_decide (c = LF)); [discriminate|].
  destruct (split_keepends s); discriminate.
Qed.

Lemma split_keepends_append (a b : string) :
  split_keepends (a +:+ String LF b)
  = split_keepends (a +:+ String LF EmptyString) ++ split_keepends b.
Proof.
  induction a as [|c a IH]; [reflexivity|].
  rewrite !append_cons. cbn [split_keepends].
  destruct (bool_decide (c = LF)); [by rewrite IH|].
  rewrite IH.
  destruct (split_keepends (a +:+ String LF "")) as [|line lines] eqn:Hlines;
    [|reflexivity].
  apply split_keepends_nil in Hlines. destruct a; discriminate.
Qed.

(** Joining the lines gives the text back. *)
Lemma split_keepends_join (s : string) :
  foldr String.app EmptyString (split_keepends s) = s.
Proof.
  induction s as [|c s IH]; [reflexivity|]. cbn [split_keepends].
  destruct (bool_decide (c = LF)).
  - cbn [foldr]. by rewrite IH.
  - destruct (split_keepends s) as [|line lines].
    + cbn in IH |- *. by rewrite <- IH.
    + cbn [foldr] in IH |- *. by rewrite append_cons, IH.
Qed.

(** A line break can only be the last character of a line. *)
Lemma split_keepends_break (s : string) :
  Forall (fun line => forall x y, line = x +:+ String LF y -> y = EmptyString)
         (split_keepends s).
Proof.
  induction s as [|c s IH]; [constructor|]. cbn [split_keepends].
  destruct (bool_decide (c = LF)) eqn:Hc.
  - constructor; [|exact IH]. intros [|d x] y Hxy.
    + rewrite append_empty in Hxy. congruence.
    + rewrite append_cons in Hxy. destruct x; discriminate.
  - apply bool_decide_eq_false in Hc.
    destruct (split_keepends s) as [|line lines].
    + constructor; [|constructor]. intros [|d x] y Hxy.
      * rewrite append_empty in Hxy. congruence.
      * rewrite append_cons in Hxy. destruct x; discriminate.
    + apply Forall_cons in IH as [Hline Hlines].
      constructor; [|exact Hlines]. intros [|d x] y Hxy.
      * rewrite append_empty in Hxy. congruence.
      * rewrite append_cons in Hxy. injection Hxy as _ Hxy. by apply (Hline x).
Qed.

Lemma universal_newlines_no_return (s : string) :
  ~ has_char CR (universal_newlines s).
Proof.
  remember (String.length s) as n eqn:Hn.
  assert (String.length s <= n)%nat as Hlen by lia. clear Hn.
  revert s Hlen. induction n as [|n IH]; intros s Hlen.
  - destruct s; [|cbn in Hlen; lia]. intros ([|] & after & H); discriminate.
  - destruct s as [|c s].
    { intros ([|] & after & H); discriminate. }
    assert (forall d t, d <> CR -> ~ has_char CR t -> ~ has_char CR (String d t))
      as Hcons.
    { intros d t Hd Ht ([|e before] & after & H).
      - rewrite append_empty in H. congruence.
      - rewrite append_cons in H. injection H as _ H. apply Ht.
        by exists before, after. }
    cbn [universal_newlines]. destruct (bool_decide (c = CR)) eqn:Hc.
    + destruct s as [|d s].
      * apply Hcons; [discriminate|]. intros ([|] & after & H); discriminate.
      * destruct (bool_decide (d = LF)).
        -- apply Hcons; [discriminate|]. apply IH. cbn in Hlen. lia.
        -- apply Hcons; [discriminate|]. apply IH. cbn in Hlen |- *. lia.
    + apply bool_decide_eq_false in Hc. apply Hcons; [assumption|].
      apply IH. cbn in Hlen. lia.
Qed.

Lemma has_char_append_l (c : ascii) (s t : string) :
  has_char c s -> has_char c (s +:+ t).
Proof.
  intros (before & after & ->). exists before, (after +:+ t).
  by rewrite append_assoc, append_cons.
Qed.

Lemma has_char_append_r (c : ascii) (s t : string) :
  has_char c t -> has_char c (s +:+ t).
Proof.
  intros (before & after & ->). exists (s +:+ before), after.
  by rewrite append_assoc.
Qed.

Lemma has_char_line (c : ascii) (line : string) (lines : list string) :
  In line lines -> has_char c line ->
  has_char c (foldr String.app EmptyString lines).
Proof.
  induction lines as [|l lines IH]; [intros []|].
  intros [->|Hin] Hc; cbn [foldr].
  - by apply has_char_append_l.
  - apply has_char_append_r. by apply IH.
Qed.

(** [lstrip] keeps a suffix and [rstrip] a prefix. *)
Lemma lstrip_suffix (s : string) : exists w, s = w +:+ lstrip s.
Proof.
  induction s as [|c s [w IH]]; [by exists EmptyString|].
  cbn [lstrip]. destruct (isspace c).
  - exists (String c w). by rewrite append_cons, <- IH.
  - by exists EmptyString.
Qed.

Lemma rstrip_prefix (s : string) : exists w, s = rstrip s +:+ w.
Proof.
  induction s as [|c s [w IH]]; [by exists EmptyString|].
  rewrite rstrip_cons. destruct (rstrip s) as [|d r].
  - destruct (isspace c).
    + by exists (String c s).
    + exists s. reflexivity.
  - exists w. by rewrite append_cons, <- IH.
Qed.

Lemma has_char_strip (c : ascii) (s : string) :
  has_char c (strip s) -> has_char c s.
Proof.
  unfold strip. intros Hc.
  destruct (lstrip_suffix s) as [w Hw]. rewrite Hw. apply has_char_append_r.
  destruct (rstrip_prefix (lstrip s)) as [v Hv]. rewrite Hv.
  by apply has_char_append_l.
Qed.

Lemma attribution_app (name : string) (lines1 lines2 r1 r2 : list string) :
  attribution name lines1 r1 -> attribution name lines2 r2 ->
  attribution name (lines1 ++ lines2) (r1 ++ r2).
Proof.
  induction 1; intros H2; cbn [app]; [assumption | |].
  - apply attribution_take; auto.
  - apply attribution_skip; auto.
Qed.

Lemma universal_newlines_ends (a : string) :
  exists u, universal_newlines (a +:+ String LF EmptyString)
            = u +:+ String LF EmptyString.
Proof.
  remember (String.length a) as n eqn:Hn.
  assert (String.length a <= n)%nat as Hlen by lia. clear Hn.
  revert a Hlen. induction n as [|n IH]; intros a Hlen.
  - destruct a; [by exists EmptyString | cbn in Hlen; lia].
  - destruct a as [|c a]; [by exists EmptyString|].
    rewrite append_cons. cbn [universal_newlines].
    destruct (bool_decide (c = CR)).
    + destruct a as [|d a].
      * by exists EmptyString.
      * rewrite append_cons. destruct (bool_decide (d = LF)).
        -- destruct (IH a) as [u ->]; [cbn in Hlen; lia|].
           by exists (String LF u).
        -- rewrite <- append_cons.
           destruct (IH (String d a)) as [u ->]; [cbn in Hlen |- *; lia|].
           by exists (String LF u).
    + destruct (IH a) as [u ->]; [cbn in Hlen; lia|].
      by exists (String c u).
Qed.

(** X9. Text added after a line break adds its reviews after those already
    there: the reviews of [a + "\n" + b] are those of [a + "\n"] followed by
    those of [b]. *)
Theorem fetch_restaurant_data_append (a b name : string) :
  exists reviews_a reviews_b,
    fetch_restaurant_data (Text (a +:+ String LF EmptyString)) name
    = Ok {[ name := reviews_a ]}
    /\ fetch_restaurant_data (Text b) name = Ok {[ name := reviews_b ]}
    /\ fetch_restaurant_data (Text (a +:+ String LF b)) name
       = Ok {[ name := reviews_a ++ reviews_b ]}.
Proof.
  destruct (fetch_restaurant_data_text (a +:+ String LF EmptyString) name)
    as (reviews_a & Ha & Hattr_a).
  destruct (fetch_restaurant_data_text b name) as (reviews_b & Hb & Hattr_b).
  destruct (fetch_restaurant_data_text (a +:+ String LF b) name)
    as (reviews & Hab & Hattr).
  exists reviews_a, reviews_b. split; [assumption|]. split; [assumption|].
  rewrite Hab. do 2 f_equal.
  apply (attribution_unique name (text_lines (a +:+ String LF b)));
    [assumption|].
  unfold text_lines in *.
  rewrite universal_newlines_append.
  destruct (universal_newlines_ends a) as [u Hu]. rewrite Hu in Hattr_a |- *.
  rewrite append_assoc, append_cons, append_empty, split_keepends_append.
  by apply attribution_app.
Qed.

Lemma strip_no_break (line : string) :
  (forall x y, line = x +:+ String LF y -> y = EmptyString) ->
  ~ has_char LF (strip line).
Proof.
  intros Hbreak (x & y & Hxy).
  destruct (lstrip_suffix line) as [w Hw].
  destruct (rstrip_prefix (lstrip line)) as [v Hv].
  fold (strip line) in Hv. rewrite Hxy in Hv. rewrite Hv in Hw.
  rewrite !append_assoc, append_cons, <- append_assoc in Hw.
  apply Hbreak in Hw. destruct y; [|discriminate].
  assert (isspace LF = false) as Hspace; [|discriminate].
  by apply (rstrip_last (lstrip line) x LF).
Qed.

(** X10. No review spans lines: a returned review contains neither a line feed
    nor a carriage return. *)
Theorem fetch_restaurant_data_single_line (file : corpus) (name : string)
    (reviews : list string) :
  fetch_restaurant_data file name = Ok {[ name := reviews ]} ->
  Forall (fun review => ~ has_char LF review /\ ~ has_char CR review) reviews.
Proof.
  intros Hfetch.
  destruct (fetch_restaurant_data_reviews _ _ _ Hfetch)
    as [->|(contents & -> & Hattr)]; [constructor|].
  eapply Forall_impl; [exact (attribution_Forall _ _ _ Hattr)|].
  intros review (line & text & Hin & _ & (before & Hline & _) & ->).
  assert (forall c, has_char c (strip text) -> has_char c (strip line)) as Hsub.
  { intros c Hc. rewrite Hline. do 2 apply has_char_append_r.
    by apply has_char_strip. }
  split; intros Hc; apply Hsub in Hc.
  - revert Hc. apply strip_no_break.
    pose proof (split_keepends_break (universal_newlines contents)) as Hbreak.
    rewrite Forall_forall in Hbreak. apply Hbreak. by apply list_elem_of_In.
  - apply has_char_strip in Hc.
    apply (has_char_line CR line (text_lines contents) Hin) in Hc.
    unfold text_lines in Hc. rewrite split_keepends_join in Hc.
    by apply universal_newlines_no_return in Hc.
Qed.

Lemma fetch_restaurant_data_single_line_witness :
  Forall (fun review => ~ has_char LF review /\ ~ has_char CR review)
         ["Great fries."].
Proof.
  apply (fetch_restaurant_data_single_line (Text example_corpus) "Bob's").
  vm_compute. reflexivity.
Defined.

(** ** What the patterns of [main] pick *)

Lemma all_chars_append (p : ascii -> bool) (s t : string) :
  all_chars p (s +:+ t) = all_chars p s && all_chars p t.
Proof.
  induction s as [|c s IH]; [reflexivity|].
  rewrite append_cons. cbn [all_chars]. by rewrite IH, andb_assoc.
Qed.

Lemma all_chars_has (p : ascii -> bool) (c : ascii) (s : string) :
  all_chars p s = true -> has_char c s -> p c = true.
Proof.
  intros Hall (before & after & ->).
  rewrite all_chars_append in Hall. cbn [all_chars] in Hall.
  by apply andb_true_iff in Hall as [_ [? _]%andb_true_iff].
Qed.

Lemma has_char_cons (c d : ascii) (s : string) :
  has_char c (String d s) <-> c = d \/ has_char c s.
Proof.
  split.
  - intros ([|e before] & after & H).
    + rewrite append_empty in H. left. congruence.
    + rewrite append_cons in H. injection H as _ ->. right.
      by exists before, after.
  - intros [->|(before & after & ->)].
    + by exists EmptyString, s.
    + exists (String d before), after. by rewrite append_cons.
Qed.

(** The first occurrence of a character cuts a string in one way only. *)
Lemma first_char_unique (sep : ascii) (b a b' a' : string) :
  b +:+ String sep a = b' +:+ String sep a' ->
  ~ has_char sep b -> ~ has_char sep b' ->
  b = b' /\ a = a'.
Proof.
  intros Heq Hb Hb'.
  assert (str_partition sep (b +:+ String sep a) = Some (b, a)) as H1
    by (apply str_partition_spec; split; [reflexivity | by apply str_partition_none]).
  assert (str_partition sep (b +:+ String sep a) = Some (b', a')) as H2
    by (apply str_partition_spec; split; [assumption | by apply str_partition_none]).
  rewrite H1 in H2. by injection H2.
Qed.

Lemma append_inj_length (s t s' t' : string) :
  s +:+ t = s' +:+ t' -> String.length s = String.length s' ->
  s = s' /\ t = t'.
Proof.
  revert s'. induction s as [|c s IH]; intros [|c' s'] Heq Hlen;
    try discriminate.
  - by rewrite !append_empty in Heq.
  - rewrite !append_cons in Heq. injection Heq as -> Heq.
    injection Hlen as Hlen. destruct (IH s' Heq Hlen) as [-> ->]. done.
Qed.

Lemma string_last (s : string) :
  s <> EmptyString -> exists init c, s = init +:+ String c EmptyString.
Proof.
  induction s as [|c s IH]; [done|]. intros _.
  destruct s as [|d s].
  - by exists EmptyString, c.
  - destruct IH as (init & e & ->); [discriminate|].
    by exists (String c init), e.
Qed.

Lemma plus_matches_chars (ignorecase : bool) (a : atom) (s : string)
    (groups : list string) :
  matches ignorecase (Plus a) s groups ->
  s <> EmptyString /\ all_chars (atom_matches ignorecase a) s = true.
Proof.
  remember (Plus a) as r eqn:Hr. induction 1; try discriminate;
    injection Hr as ->.
  - split; [discriminate|]. cbn. by rewrite H.
  - split; [discriminate|]. cbn. rewrite H. by apply IHmatches.
Qed.

Lemma times_matches_chars (ignorecase : bool) (n : nat) (a : atom) (s : string)
    (groups : list string) :
  matches ignorecase (Times n a) s groups ->
  String.length s = n /\ all_chars (atom_matches ignorecase a) s = true.
Proof.
  remember (Times n a) as r eqn:Hr. intros H. revert n Hr.
  induction H; intros k Hr; try discriminate; injection Hr as Hk Ha; subst.
  - done.
  - destruct (IHmatches n eq_refl) as [Hlen Hall].
    split; [cbn; by rewrite Hlen|]. cbn. by rewrite H.
Qed.

Lemma plus_matches_intro (ignorecase : bool) (a : atom) (s : string) :
  s <> EmptyString -> all_chars (atom_matches ignorecase a) s = true ->
  matches ignorecase (Plus a) s [].
Proof.
  induction s as [|c s IH]; [done|]. intros _ Hall.
  cbn [all_chars] in Hall. apply andb_true_iff in Hall as [Hc Hall].
  destruct s as [|d s].
  - by apply matches_plus_one.
  - apply matches_plus_more; [assumption|]. by apply IH.
Qed.

Lemma times_matches_intro (ignorecase : bool) (a : atom) (s : string) :
  all_chars (atom_matches ignorecase a) s = true ->
  matches ignorecase (Times (String.length s) a) s [].
Proof.
  induction s as [|c s IH]; [constructor|]. intros Hall.
  cbn [all_chars] in Hall. apply andb_true_iff in Hall as [Hc Hall].
  cbn [String.length]. apply matches_times_succ; auto.
Qed.

(** What [(\d+\.\d{3})] matches: digits, a period, three digits. *)
Lemma score_pattern_shape (part : string) (groups : list string) :
  matches false score_pattern part groups ->
  exists digits decimals,
    part = digits +:+ "." +:+ decimals
    /\ groups = [part]
    /\ digits <> EmptyString /\ all_chars isdigit digits = true
    /\ String.length decimals = 3%nat /\ all_chars isdigit decimals = true.
Proof.
  intros H. pose proof (score_pattern_groups _ _ H) as ->.
  unfold score_pattern in H.
  inversion H as [| | | | | | | |? ? ? Hinner]; subst; clear H.
  inversion Hinner as [|? ? digits s2 ? ? Hdigits Htail| | | | | | |]; subst.
  inversion Htail as [|? ? s21 decimals ? ? Hdot Hdecimals| | | | | | |]; subst.
  inversion Hdot as [? c Hc| | | | | | | |]; subst.
  cbn in Hc. apply bool_decide_eq_true in Hc as ->.
  apply plus_matches_chars in Hdigits as [Hne Hall].
  apply times_matches_chars in Hdecimals as [Hlen Hall3].
  exists digits, decimals. repeat split; assumption.
Qed.

Lemma score_pattern_intro (digits decimals : string) :
  digits <> EmptyString -> all_chars isdigit digits = true ->
  String.length decimals = 3%nat -> all_chars isdigit decimals = true ->
  matches false score_pattern (digits +:+ "." +:+ decimals)
          [digits +:+ "." +:+ decimals].
Proof.
  intros Hne Hall Hlen Hall3. unfold score_pattern.
  apply (matches_group false _ _ []).
  apply (matches_seq false _ _ digits ("." +:+ decimals) [] []).
  - by apply plus_matches_intro.
  - apply (matches_seq false _ _ "." decimals [] []).
    + by constructor.
    + rewrite <- Hlen. by apply times_matches_intro.
Qed.

Lemma digits_no_period (s : string) :
  all_chars isdigit s = true -> ~ has_char "." s.
Proof. intros Hall Hdot. by pose proof (all_chars_has _ _ _ Hall Hdot). Qed.

Lemma upper_range (c : ascii) :
  ((65 <=? N_of_ascii c) && (N_of_ascii c <=? 90)
   || (192 <=? N_of_ascii c) && (N_of_ascii c <=? 222)
      && negb (N_of_ascii c =? 215))%N = true ->
  (65 <= N_of_ascii c <= 90
   \/ 192 <= N_of_ascii c <= 222 /\ N_of_ascii c <> 215)%N.
Proof.
  rewrite orb_true_iff, !andb_true_iff, negb_true_iff, !N.leb_le, N.eqb_neq.
  tauto.
Qed.

(** Lower-casing changes capital letters only. *)
Lemma to_lower_fixed (c l : ascii) :
  to_lower c = l ->
  (N_of_ascii l < 97 \/ 123 <= N_of_ascii l < 224 \/ N_of_ascii l = 247)%N ->
  c = l.
Proof.
  intros Hc Hl. unfold to_lower in Hc.
  destruct ((65 <=? N_of_ascii c) && (N_of_ascii c <=? 90)
            || (192 <=? N_of_ascii c) && (N_of_ascii c <=? 222)
               && negb (N_of_ascii c =? 215))%N eqn:Hupper; [|assumption].
  exfalso. apply upper_range in Hupper. subst l.
  rewrite N_ascii_embedding in Hl; lia.
Qed.

Lemma matches_seq_inv (ignorecase : bool) (r1 r2 : regex) (s : string)
    (groups : list string) :
  matches ignorecase (Seq r1 r2) s groups ->
  exists s1 s2 g1 g2,
    s = s1 +:+ s2 /\ groups = g1 ++ g2
    /\ matches ignorecase r1 s1 g1 /\ matches ignorecase r2 s2 g2.
Proof. inversion 1; subst. eauto 10. Qed.

Lemma matches_alt_inv (ignorecase : bool) (r1 r2 : regex) (s : string)
    (groups : list string) :
  matches ignorecase (Alt r1 r2) s groups ->
  matches ignorecase r1 s groups \/ matches ignorecase r2 s groups.
Proof. inversion 1; subst; auto. Qed.

Lemma matches_atom_inv (ignorecase : bool) (a : atom) (s : string)
    (groups : list string) :
  matches ignorecase (Atom a) s groups ->
  exists c, s = String c EmptyString /\ groups = []
            /\ atom_matches ignorecase a c = true.
Proof. inversion 1; subst. eauto. Qed.

Lemma matches_group_inv (ignorecase : bool) (r : regex) (s : string)
    (groups : list string) :
  matches ignorecase (Group r) s groups ->
  exists inner, groups = inner ++ [s] /\ matches ignorecase r s inner.
Proof. inversion 1; subst. eauto. Qed.

(** What [(?:do|da) ([^?]+)\?] matches without regard to case: a [d], an
    [o] or an [a], a space, one or more characters other than [?], and a
    [?]. *)
Lemma restaurant_pattern_shape (part : string) (groups : list string) :
  matches true restaurant_pattern part groups ->
  exists c1 c2 raw,
    part = String c1 (String c2 (String " " (raw +:+ "?")))
    /\ groups = [raw]
    /\ to_lower c1 = "d"%char
    /\ (to_lower c2 = "o"%char \/ to_lower c2 = "a"%char)
    /\ raw <> EmptyString /\ ~ has_char "?" raw.
Proof.
  intros H. destruct (restaurant_pattern_groups _ _ H) as (raw' & -> & _).
  unfold restaurant_pattern in H.
  apply matches_seq_inv in H as (prep & s234 & g1 & g234 & -> & Hg & Hprep & H).
  apply matches_seq_inv in H as (sp & s34 & g2 & g34 & -> & -> & Hspace & H).
  apply matches_seq_inv in H as (raw & mark & g3 & g4 & -> & -> & Hgroup & Hmark).
  apply matches_group_inv in Hgroup as (inner & -> & Hraw).
  apply matches_atom_inv in Hspace as (space & -> & -> & Hspace).
  apply matches_atom_inv in Hmark as (question & -> & -> & Hquestion).
  pose proof (matches_groupless _ _ _ _ Hraw eq_refl) as ->.
  cbn in Hspace, Hquestion.
  apply bool_decide_eq_true in Hspace, Hquestion.
  apply to_lower_fixed in Hspace; [|vm_compute; left; reflexivity].
  apply to_lower_fixed in Hquestion; [|vm_compute; left; reflexivity].
  subst space question.
  apply plus_matches_chars in Hraw as [Hne Hall].
  assert (exists c1 c2, prep = String c1 (String c2 EmptyString)
                        /\ g1 = []
                        /\ to_lower c1 = "d"%char
                        /\ (to_lower c2 = "o"%char \/ to_lower c2 = "a"%char))
    as (c1 & c2 & -> & -> & Hc1 & Hc2).
  { apply matches_alt_inv in Hprep as [Hprep|Hprep];
      apply matches_seq_inv in Hprep as (s1 & s2 & h1 & h2 & -> & -> & H1 & H2);
      apply matches_atom_inv in H1 as (c1 & -> & -> & H1);
      apply matches_atom_inv in H2 as (c2 & -> & -> & H2);
      cbn in H1, H2; apply bool_decide_eq_true in H1, H2;
      exists c1, c2; auto. }
  cbn [app] in Hg. injection Hg as ->.
  exists c1, c2, raw. repeat split; try assumption.
  intros Hq. by pose proof (all_chars_has _ _ _ Hall Hq).
Qed.

Lemma restaurant_pattern_intro (c1 c2 : ascii) (raw : string) :
  to_lower c1 = "d"%char ->
  to_lower c2 = "o"%char \/ to_lower c2 = "a"%char ->
  raw <> EmptyString -> ~ has_char "?" raw ->
  matches true restaurant_pattern
          (String c1 (String c2 (String " " (raw +:+ "?")))) [raw].
Proof.
  intros Hc1 Hc2 Hne Hraw. unfold restaurant_pattern.
  apply (matches_seq true _ _ (String c1 (String c2 "")) _ [] [raw]).
  - destruct Hc2 as [Hc2|Hc2]; [apply matches_alt_left | apply matches_alt_right];
      apply (matches_seq true _ _ (String c1 "") (String c2 "") [] []);
      constructor; cbn; apply bool_decide_eq_true; assumption.
  - apply (matches_seq true _ _ " " _ [] [raw]); [by constructor|].
    apply (matches_seq true _ _ raw "?" [raw] []); [|by constructor].
    apply (matches_group true _ _ []). apply plus_matches_intro; [assumption|].
    clear Hne. induction raw as [|c raw IH]; [reflexivity|].
    cbn [all_chars]. rewrite IH.
    + rewrite andb_true_r. cbn. apply negb_true_iff, bool_decide_eq_false.
      intros Hc. apply to_lower_fixed in Hc; [|vm_compute; left; reflexivity].
      apply Hraw. apply has_char_cons. by left.
    + intros Hq. apply Hraw. apply has_char_cons. by right.
Qed.

Lemma re_search_none (ignorecase : bool) (r : regex) (s : string) :
  ~ contains ignorecase r s -> re_search ignorecase r s = None.
Proof.
  intros Hno. destruct (re_search ignorecase r s) eqn:Hs; [|reflexivity].
  exfalso. apply Hno. apply re_search_contains. by eexists.
Qed.

(** No match starts inside [before]: the search goes on after it. *)
Lemma re_search_skip (ignorecase : bool) (r : regex) (before s : string) :
  (forall x y, before = x +:+ y -> y <> EmptyString ->
     regex_match ignorecase r (y +:+ s) [] (fun _ groups => Some groups) = None) ->
  re_search ignorecase r (before +:+ s) = re_search ignorecase r s.
Proof.
  induction before as [|c before IH]; intros Hnone.
  - by rewrite append_empty.
  - rewrite re_search_unfold.
    rewrite (Hnone EmptyString (String c before)); [|reflexivity|discriminate].
    rewrite append_cons. apply IH. intros x y -> Hy.
    apply (Hnone (String c x)); [by rewrite append_cons | assumption].
Qed.

(** The search at a place where the pattern matches in one way only. *)
Lemma re_search_here (ignorecase : bool) (r : regex) (part rest : string)
    (found : list string) :
  matches ignorecase r part found ->
  (forall part' rest' found',
     part +:+ rest = part' +:+ rest' -> matches ignorecase r part' found' ->
     found' = found) ->
  re_search ignorecase r (part +:+ rest) = Some found.
Proof.
  intros Hpart Hunique. rewrite re_search_unfold.
  destruct (regex_match_complete ignorecase r part found Hpart rest []
              (fun _ groups => Some groups)) as [groups Hgroups]; [eauto|].
  rewrite Hgroups.
  apply regex_match_sound in Hgroups
    as (part' & rest' & found' & Heq & Hpart' & [= <-]).
  by rewrite (Hunique _ _ _ Heq Hpart').
Qed.

Lemma has_char_append_inv (c : ascii) (s t : string) :
  has_char c (s +:+ t) -> has_char c s \/ has_char c t.
Proof.
  induction s as [|d s IH].
  - rewrite append_empty. by right.
  - rewrite append_cons, !has_char_cons. intros [->|H]; [by left; left|].
    destruct (IH H); [left; by right | by right].
Qed.

(** The score found in a message: the first run of digits that is followed
    by a period and three digits; what follows the three digits is left. *)
Lemma score_search (before digits decimals rest : string) :
  ~ has_char "." before ->
  (forall init c, before = init +:+ String c EmptyString -> isdigit c = false) ->
  digits <> EmptyString -> all_chars isdigit digits = true ->
  String.length decimals = 3%nat -> all_chars isdigit decimals = true ->
  re_search false score_pattern
            (before +:+ digits +:+ "." +:+ decimals +:+ rest)
  = Some [digits +:+ "." +:+ decimals].
Proof.
  intros Hdot Hlast Hne Hall Hlen Hall3.
  rewrite re_search_skip.
  - replace (digits +:+ "." +:+ decimals +:+ rest)
      with ((digits +:+ "." +:+ decimals) +:+ rest)
      by (by rewrite !append_assoc).
    apply re_search_here; [by apply score_pattern_intro|].
    intros part' rest' found' Heq Hpart'.
    apply score_pattern_shape in Hpart'
      as (digits' & decimals' & -> & -> & _ & Hall' & Hlen' & _).
    rewrite !append_assoc in Heq.
    change ("." +:+ decimals +:+ rest) with (String "." (decimals +:+ rest)) in Heq.
    change ("." +:+ decimals' +:+ rest') with (String "." (decimals' +:+ rest')) in Heq.
    apply first_char_unique in Heq as [<- Heq];
      [|by apply digits_no_period..].
    apply append_inj_length in Heq as [<- _]; [reflexivity | congruence].
  - intros x y -> Hy.
    destruct (regex_match _ _ _ _ _) as [groups|] eqn:Hmatch; [|reflexivity].
    exfalso.
    apply regex_match_sound in Hmatch
      as (part' & rest' & found' & Heq & Hpart' & _).
    apply score_pattern_shape in Hpart'
      as (digits' & decimals' & -> & _ & _ & Hall' & _ & _).
    rewrite !append_assoc in Heq. rewrite <- (append_assoc y digits) in Heq.
    change ("." +:+ decimals +:+ rest) with (String "." (decimals +:+ rest)) in Heq.
    change ("." +:+ decimals' +:+ rest') with (String "." (decimals' +:+ rest')) in Heq.
    apply first_char_unique in Heq as [Heq _].
    + rewrite <- Heq, all_chars_append in Hall'.
      apply andb_true_iff in Hall' as [Hy' _].
      destruct (string_last y Hy) as (init & c & ->).
      rewrite all_chars_append in Hy'. cbn [all_chars] in Hy'.
      apply andb_true_iff in Hy' as [_ [Hc _]%andb_true_iff].
      rewrite (Hlast (x +:+ init) c) in Hc; [discriminate|].
      by rewrite append_assoc.
    + intros [H|H]%has_char_append_inv.
      * apply Hdot. by apply has_char_append_r.
      * by apply digits_no_period in H.
    + by apply digits_no_period.
Qed.

(** The restaurant found in a query: what stands between the first
    [do ] or [da ] (in either case, also at the end of a longer word) and
    the next question mark. *)
Lemma restaurant_search (before : string) (c1 c2 : ascii) (name rest : string) :
  (forall x a b y,
     before = x +:+ String a (String b (String " " y)) ->
     to_lower a = "d"%char ->
     to_lower b <> "o"%char /\ to_lower b <> "a"%char) ->
  to_lower c1 = "d"%char ->
  to_lower c2 = "o"%char \/ to_lower c2 = "a"%char ->
  name <> EmptyString -> ~ has_char "?" name ->
  re_search true restaurant_pattern
            (before +:+ String c1 (String c2 (String " " (name +:+ "?" +:+ rest))))
  = Some [name].
Proof.
  intros Hbefore Hc1 Hc2 Hne Hname.
  rewrite re_search_skip.
  - replace (String c1 (String c2 (String " " (name +:+ "?" +:+ rest))))
      with (String c1 (String c2 (String " " (name +:+ "?"))) +:+ rest)
      by (by rewrite !append_cons, !append_assoc).
    apply re_search_here; [by apply restaurant_pattern_intro|].
    intros part' rest' found' Heq Hpart'.
    apply restaurant_pattern_shape in Hpart'
      as (a & b & raw & -> & -> & _ & _ & _ & Hraw).
    rewrite !append_cons, !append_assoc in Heq.
    injection Heq as _ _ Heq.
    change ("?" +:+ rest) with (String "?" rest) in Heq.
    change ("?" +:+ rest') with (String "?" rest') in Heq.
    by apply first_char_unique in Heq as [<- _].
  - intros x y -> Hy.
    destruct (regex_match _ _ _ _ _) as [groups|] eqn:Hmatch; [|reflexivity].
    exfalso.
    apply regex_match_sound in Hmatch
      as (part' & rest' & found' & Heq & Hpart' & _).
    apply restaurant_pattern_shape in Hpart'
      as (a & b & raw & -> & _ & Ha & Hb & _ & _).
    rewrite !append_cons in Heq.
    destruct y as [|y1 [|y2 [|y3 y]]]; [done | | |].
    + rewrite append_cons, append_empty in Heq. injection Heq as _ _ Heq _.
      subst c2. destruct Hc2 as [H|H]; vm_compute in H; discriminate.
    + rewrite !append_cons, append_empty in Heq. injection Heq as _ _ Heq _.
      subst c1. vm_compute in Hc1. discriminate.
    + rewrite !append_cons in Heq. injection Heq as -> -> -> _.
      destruct (Hbefore x a b y eq_refl Ha) as [Ho Ha'].
      destruct Hb; contradiction.
Qed.

Lemma last_char_append (init : string) (c : ascii) :
  last_char (init +:+ String c EmptyString) = Some c.
Proof.
  induction init as [|d init IH]; [reflexivity|].
  rewrite append_cons. cbn [last_char]. rewrite IH.
  destruct init; reflexivity.
Qed.

Lemma has_preposition_none (before : string) :
  has_preposition before = false ->
  forall x a b y,
    before = x +:+ String a (String b (String " " y)) ->
    to_lower a = "d"%char ->
    to_lower b <> "o"%char /\ to_lower b <> "a"%char.
Proof.
  intros Hnone x. revert before Hnone.
  induction x as [|d x IH]; intros before Hnone a b y -> Ha.
  - rewrite append_empty in Hnone. cbn [has_preposition] in Hnone.
    apply orb_false_iff in Hnone as [Hnone _].
    unfold starts_with_preposition in Hnone.
    rewrite (bool_decide_eq_true_2 _ Ha), (bool_decide_eq_true_2 _ eq_refl),
      andb_true_l, andb_true_r in Hnone.
    apply orb_false_iff in Hnone as [Ho Ha'].
    by apply bool_decide_eq_false in Ho, Ha'.
  - rewrite append_cons in Hnone. cbn [has_preposition] in Hnone.
    apply orb_false_iff in Hnone as [_ Hnone].
    by apply (IH _ Hnone a b y).
Qed.

(** ** What [main] prints *)

(** X11. Only the last message of the last chat counts: earlier chats and
    earlier messages do not change what is printed. *)
Theorem report_last_only (earlier : list ChatResult) (final : ChatResult)
    (history : list chat_message) (last : chat_message) (query : string) :
  chat_history final = Some (history ++ [last]) ->
  report (earlier ++ [final]) query
  = report [ {| chat_history := Some [last] |} ] query.
Proof.
  intros Hhistory. rewrite (report_last_message _ _ _ _ _ Hhistory).
  symmetry.
  apply (report_last_message [] {| chat_history := Some [last] |} [] last).
  reflexivity.
Qed.

Lemma report_last_only_witness :
  report ([ {| chat_history := None |} ]
          ++ [ {| chat_history :=
                    Some ([ {| content := Some "7.000" |} ]
                          ++ [ {| content := Some "Done: 7.123." |} ]) |} ])
         example_consulta
  = report [ {| chat_history :=
                  Some [ {| content := Some "Done: 7.123." |} ] |} ]
           example_consulta.
Proof.
  apply (report_last_only [ {| chat_history := None |} ]
           {| chat_history :=
                Some ([ {| content := Some "7.000" |} ]
                      ++ [ {| content := Some "Done: 7.123." |} ]) |}
           [ {| content := Some "7.000" |} ]
           {| content := Some "Done: 7.123." |}).
  reflexivity.
Defined.

Lemma restaurant_contains_question (query : string) :
  contains true restaurant_pattern query -> has_char "?" query.
Proof.
  intros (before & part & after & groups & -> & Hpart).
  apply restaurant_pattern_shape in Hpart as (c1 & c2 & raw & -> & _).
  apply has_char_append_r, has_char_append_l.
  do 3 (apply has_char_cons; right). apply has_char_append_r.
  by exists EmptyString, EmptyString.
Qed.

Lemma score_contains_period (text : string) :
  contains false score_pattern text -> has_char "." text.
Proof.
  intros (before & part & after & groups & -> & Hpart).
  apply score_pattern_shape in Hpart as (digits & decimals & -> & _).
  apply has_char_append_r, has_char_append_l, has_char_append_r.
  by exists EmptyString, decimals.
Qed.

(** X12. When the last message is a string, a query without a question mark, or
    a last message without a period, never gives the fixed sentence: the
    last message is printed as it is. *)
Theorem report_verbatim (earlier : list ChatResult) (final : ChatResult)
    (history : list chat_message) (last : chat_message)
    (text query : string) :
  chat_history final = Some (history ++ [last]) ->
  content last = Some text ->
  ~ has_char "?" query \/ ~ has_char "." text ->
  report (earlier ++ [final]) query = Ok [text].
Proof.
  intros Hhistory Htext Hno.
  rewrite (report_text _ _ _ _ _ _ Hhistory Htext).
  destruct Hno as [Hno|Hno].
  - rewrite (re_search_none true restaurant_pattern query).
    + by destruct (re_search false score_pattern text).
    + intros H. by apply Hno, restaurant_contains_question.
  - rewrite (re_search_none false score_pattern text); [reflexivity|].
    intros H. by apply Hno, score_contains_period.
Qed.

Lemma report_verbatim_witness :
  report ([] ++ [ {| chat_history :=
                       Some ([] ++ [ {| content := Some "Bob's: 7.123" |} ]) |} ])
         "Qual a nota do Bob's"
  = Ok ["Bob's: 7.123"].
Proof.
  apply (report_verbatim []
           {| chat_history :=
                Some ([] ++ [ {| content := Some "Bob's: 7.123" |} ]) |}
           [] {| content := Some "Bob's: 7.123" |} "Bob's: 7.123"
           "Qual a nota do Bob's").
  - reflexivity.
  - reflexivity.
  - left. apply str_partition_none. vm_compute. reflexivity.
Defined.



(** X14. The number in the sentence is the first run of digits of the last
    message that a period and three digits follow; digits after the third
    decimal are dropped, not rounded. *)
Theorem report_score_first_decimal (earlier : list ChatResult)
    (final : ChatResult) (history : list chat_message) (last : chat_message)
    (query before digits decimals rest raw : string) :
  chat_history final = Some (history ++ [last]) ->
  content last = Some (before +:+ digits +:+ "." +:+ decimals +:+ rest) ->
  ~ has_char "." before ->
  (forall c, last_char before = Some c -> isdigit c = false) ->
  digits <> EmptyString -> all_chars isdigit digits = true ->
  String.length decimals = 3%nat -> all_chars isdigit decimals = true ->
  re_search true restaurant_pattern query = Some [raw] ->
  report (earlier ++ [final]) query
  = Ok [canonical_sentence (strip raw) (digits +:+ "." +:+ decimals)].
Proof.
  intros Hhistory Hcontent Hdot Hlast Hne Hall Hlen Hall3 Hname.
  rewrite (report_text _ _ _ _ _ _ Hhistory Hcontent), Hname.
  rewrite score_search; try assumption; [reflexivity|].
  intros init c ->. apply Hlast, last_char_append.
Qed.

Lemma report_score_first_decimal_witness :
  report ([] ++ [ {| chat_history :=
                       Some ([] ++ [ {| content :=
                                          Some "Paris 6: 7.12389 (4 reviews)" |} ]) |} ])
         example_consulta
  = Ok [canonical_sentence (strip "Bob's") ("7" +:+ "." +:+ "123")].
Proof.
  apply (report_score_first_decimal []
           {| chat_history :=
                Some ([] ++ [ {| content :=
                                   Some "Paris 6: 7.12389 (4 reviews)" |} ]) |}
           [] {| content := Some "Paris 6: 7.12389 (4 reviews)" |}
           example_consulta "Paris 6: " "7" "123" "89 (4 reviews)" "Bob's").
  - reflexivity.
  - reflexivity.
  - apply str_partition_none. vm_compute. reflexivity.
  - intros c [= <-]. reflexivity.
  - discriminate.
  - reflexivity.
  - reflexivity.
  - reflexivity.
  - vm_compute. reflexivity.
Defined.

(** X15. The name in the sentence is what stands between the first [do ] or
    [da ] of the query (capitals or not, also at the end of a longer word)
    and the next question mark, stripped. *)
Theorem report_restaurant_name (earlier : list ChatResult)
    (final : ChatResult) (history : list chat_message) (last : chat_message)
    (query before : string) (c1 c2 : ascii) (name rest text score : string) :
  chat_history final = Some (history ++ [last]) ->
  query = before +:+ String c1 (String c2 (String " " (name +:+ "?" +:+ rest))) ->
  has_preposition before = false ->
  to_lower c1 = "d"%char ->
  to_lower c2 = "o"%char \/ to_lower c2 = "a"%char ->
  name <> EmptyString -> ~ has_char "?" name ->
  content last = Some text ->
  re_search false score_pattern text = Some [score] ->
  report (earlier ++ [final]) query
  = Ok [canonical_sentence (strip name) score].
Proof.
  intros Hhistory Hquery Hbefore Hc1 Hc2 Hne Hname Htext Hscore.
  rewrite (report_text _ _ _ _ _ _ Hhistory Htext), Hscore, Hquery.
  rewrite restaurant_search; try assumption; [reflexivity|].
  by apply has_preposition_none.
Qed.

Lemma report_restaurant_name_witness :
  report ([] ++ [ {| chat_history :=
                       Some ([] ++ [ {| content := Some "Score: 7.123" |} ]) |} ])
         ("Qual a nota " +:+ String "D" (String "O" (String " "
            ("resultado do KFC " +:+ "?" +:+ " E do Bob's?"))))
  = Ok [canonical_sentence (strip "resultado do KFC ") "7.123"].
Proof.
  apply (report_restaurant_name []
           {| chat_history :=
                Some ([] ++ [ {| content := Some "Score: 7.123" |} ]) |}
           [] {| content := Some "Score: 7.123" |} _ "Qual a nota " "D" "O"
           "resultado do KFC " " E do Bob's?" "Score: 7.123" "7.123").
  - reflexivity.
  - reflexivity.
  - reflexivity.
  - reflexivity.
  - left. reflexivity.
  - discriminate.
  - apply str_partition_none. vm_compute. reflexivity.
  - reflexivity.
  - vm_compute. reflexivity.
Defined.
